(** * paper-qa vector stores: a shallow embedding of [paperqa/llms.py]

    The development follows the Python module function by function:
    - a fragment of NumPy on binary64 floats (Rocq's primitive floats are
      IEEE 754 binary64, the type behind Python's [float] and NumPy's
      [float64]), with broadcasting, [nan_to_num], [argmax], [unique], and
      the portable quicksort behind [argsort];
    - Python iterables, which are sequences or one-shot iterators;
    - [cosine_similarity];
    - the embedding model as an external collaborator with a mode flag and a
      trace of the calls made on it;
    - [NumpyVectorStore]: [add_texts_and_embeddings], [clear],
      [similarity_search], [partitioned_similarity_search];
    - [VectorStore.max_marginal_relevance_search];
    - [QdrantVectorStore]: [clear], [add_texts_and_embeddings],
      [similarity_search], over a Qdrant client that is a black box with a
      trace of the requests made of it;
    - [embedding_model_factory], with [str.strip] and [str.startswith].

    Python exceptions are values of [exn]; a method that mutates [self] or
    the embedding model is a function of the state monad [M] over [World],
    which keeps the state reached when an exception is raised.

    The definitions come first; then the properties of the order of floats,
    of the index arrays and of each function; then the claims C1 to C10 made
    of the module, each with the theorem that settles it; then further
    properties X1 to X26. *)

From Stdlib Require Import ZArith List Bool Lia Floats String Sorting.Sorted Permutation.
From stdpp Require Import base gmap.
Import ListNotations.

#[local] Set Warnings "-clear-no-such-hyp,-register-all".
Local Open Scope Z_scope.

(** ** Python exceptions and results *)

Inductive exn : Type :=
| ValueError
| IndexError
| AxisError
| NoneError            (* an operation applied to [None] *)
| NotImplementedError
| EmbeddingError.      (* whatever the embedding model raises *)

Inductive result (A : Type) : Type :=
| Ok (a : A)
| Raise (e : exn).

Arguments Ok {A} a.
Arguments Raise {A} e.

Definition rbind {A B} (r : result A) (f : A -> result B) : result B :=
  match r with
  | Ok a => f a
  | Raise e => Raise e
  end.

Notation "x <- c1 ;; c2" := (rbind c1 (fun x => c2))
  (at level 100, c1 at next level, right associativity).

Fixpoint rmap {A B} (f : A -> result B) (l : list A) : result (list B) :=
  match l with
  | [] => Ok []
  | a :: l' => b <- f a ;; bs <- rmap f l' ;; Ok (b :: bs)
  end.

(** ** Python sequences *)

(** [l[i]] for a non-negative index: [IndexError] out of range. *)
Definition getitem {A} (l : list A) (i : nat) : result A :=
  match nth_error l i with
  | Some a => Ok a
  | None => Raise IndexError
  end.

(** [[l[i] for i in idx]], and NumPy's [l[idx]] for an integer index array. *)
Definition take_indices {A} (l : list A) (idx : list nat) : result (list A) :=
  rmap (getitem l) idx.

(** [l[:k]]: a negative [k] counts from the end. *)
Definition slice_to {A} (k : Z) (l : list A) : list A :=
  if 0 <=? k then firstn (Z.to_nat k) l
  else firstn (Z.to_nat (Z.of_nat (length l) + k)) l.

(** [list.remove(x)]: drops the first occurrence, [ValueError] when absent. *)
Fixpoint list_remove (x : nat) (l : list nat) : result (list nat) :=
  match l with
  | [] => Raise ValueError
  | y :: l' => if Nat.eqb x y then Ok l'
               else (r <- list_remove x l' ;; Ok (y :: r))
  end.

(** ** The NumPy fragment *)

Definition vector := list float.
(** A two-dimensional array as the list of its rows. *)
Definition matrix := list vector.

Definition neg_inf : float := PrimFloat.neg_infinity.
Definition pos_inf : float := PrimFloat.infinity.
(** The largest finite binary64 number, [np.finfo(np.float64).max]. *)
Definition float_max : float := 0x1.fffffffffffffp+1023%float.

Definition is_nan (x : float) : bool := negb (PrimFloat.eqb x x).

(** [np.nan_to_num(x, nan=-np.inf)]: NaN becomes the given value; the
    infinities, whose replacements are left at their defaults, become the
    largest and the most negative finite numbers. *)
Definition nan_to_num (x : float) : float :=
  if is_nan x then neg_inf
  else if PrimFloat.eqb x pos_inf then float_max
  else if PrimFloat.eqb x neg_inf then PrimFloat.opp float_max
  else x.

(** The sum of products behind [a @ b.T], accumulated left to right. *)
Definition dot (u v : vector) : float :=
  fold_left (fun acc p => PrimFloat.add acc (PrimFloat.mul (fst p) (snd p)))
            (combine u v) 0%float.

(** The 2-norm of one row: [sqrt(add.reduce(x * x))]. *)
Definition norm (u : vector) : float :=
  PrimFloat.sqrt
    (fold_left (fun acc x => PrimFloat.add acc (PrimFloat.mul x x)) u 0%float).

(** [np.linalg.norm(a, axis=1)]. The only array of this model without a
    second axis is the empty one ([np.array([])] has shape [(0,)]), for which
    NumPy raises [AxisError]. (A selection of no row at all from a matrix
    with rows, which keeps its second axis in NumPy, does not arise: the
    mask of a partition keeps at least one row.) *)
Definition linalg_norm_axis1 (a : matrix) : result vector :=
  match a with
  | [] => Raise AxisError
  | _ => Ok (map norm a)
  end.

(** Broadcasting of a binary operation over two one-dimensional arrays:
    equal lengths go elementwise, a length of one is stretched, anything else
    is NumPy's "operands could not be broadcast together" [ValueError]. *)
Definition broadcast2 (op : float -> float -> float) (u v : vector)
  : result vector :=
  if Nat.eqb (length u) (length v) then
    Ok (map (fun p => op (fst p) (snd p)) (combine u v))
  else match u, v with
       | [x], _ => Ok (map (fun y => op x y) v)
       | _, [y] => Ok (map (fun x => op x y) u)
       | _, _ => Raise ValueError
       end.

(** [a @ b.T] for [a] of shape (m, d) and [b] of shape (n, d'): a
    [ValueError] unless [d = d']. *)
Definition matmul_T (a b : matrix) : result matrix :=
  if forallb (fun ra => forallb (fun rb => Nat.eqb (length ra) (length rb)) b) a
  then Ok (map (fun ra => map (fun rb => dot ra rb) b) a)
  else Raise ValueError.

(** [m / v] for a two-dimensional [m] and a one-dimensional [v]: NumPy
    aligns [v] with the last axis of [m], so every row of [m] is broadcast
    against [v]. *)
Definition broadcast_div_rows (m : matrix) (v : vector) : result matrix :=
  rmap (fun row => broadcast2 PrimFloat.div row v) m.

(** ** [cosine_similarity] *)

Definition cosine_similarity (a b : matrix) : result matrix :=
  na <- linalg_norm_axis1 a ;;
  nb <- linalg_norm_axis1 b ;;
  norm_product <- broadcast2 PrimFloat.mul na nb ;;
  prod <- matmul_T a b ;;
  broadcast_div_rows prod norm_product.

(** [np.argmax] of a one-dimensional float array: the first position of the
    maximum, where a NaN counts as the maximum (the scan of NumPy's
    [DOUBLE_argmax]: a later entry replaces the running maximum [best] when
    [not (x <= best)], and the scan stops on a NaN). *)
Fixpoint argmax_from (best : float) (besti i : nat) (l : list float) : nat :=
  match l with
  | [] => besti
  | x :: l' =>
      if is_nan best then besti
      else if PrimFloat.leb x best then argmax_from best besti (S i) l'
      else argmax_from x i (S i) l'
  end.

Definition argmax (l : list float) : result nat :=
  match l with
  | [] => Raise ValueError
  | x :: l' => Ok (argmax_from x 0 1 l')
  end.

(** [np.maximum] on two floats, which propagates NaN. *)
Definition np_maximum (a b : float) : float :=
  if PrimFloat.leb b a || is_nan a then a else b.

(** [row.max()]: the reduction of [np.maximum] over one row. *)
Definition row_max (row : vector) : result float :=
  match row with
  | [] => Raise ValueError
  | x :: row' => Ok (fold_left np_maximum row' x)
  end.

(** [np.unique] of an integer array: its distinct values in ascending order. *)
Fixpoint insert_unique (x : Z) (l : list Z) : list Z :=
  match l with
  | [] => [x]
  | y :: l' => if x <? y then x :: y :: l'
               else if x =? y then y :: l'
               else y :: insert_unique x l'
  end.

Definition np_unique (l : list Z) : list Z :=
  fold_right insert_unique [] l.

(** [np.where(mask)[0]]: the positions holding [True]. *)
Fixpoint where_from (i : nat) (mask : list bool) : list nat :=
  match mask with
  | [] => []
  | b :: mask' => if b then i :: where_from (S i) mask'
                  else where_from (S i) mask'
  end.

Definition np_where (mask : list bool) : list nat := where_from 0 mask.

(** [m[mask]] for a boolean [mask] over the rows: NumPy raises [IndexError]
    when the mask's length is not the number of rows. *)
Fixpoint select_rows {A} (rows : list A) (mask : list bool) : list A :=
  match rows, mask with
  | r :: rows', b :: mask' =>
      if b then r :: select_rows rows' mask' else select_rows rows' mask'
  | _, _ => []
  end.

Definition bool_index {A} (rows : list A) (mask : list bool) : result (list A) :=
  if Nat.eqb (length rows) (length mask) then Ok (select_rows rows mask)
  else Raise IndexError.

(** [scores[idx] = v] for an index list [idx] within range. *)
Fixpoint put_from (i : nat) (idx : list nat) (v : float) (l : vector) : vector :=
  match l with
  | [] => []
  | x :: l' => (if existsb (Nat.eqb i) idx then v else x)
                 :: put_from (S i) idx v l'
  end.

Definition put (idx : list nat) (v : float) (l : vector) : vector :=
  put_from 0 idx v l.

(** [np.array(rows)] for rows that are lists of floats: the rows as they
    are when they all have one length; [ValueError] (an inhomogeneous
    shape, in NumPy 1.24 and later) when they do not. No row at all gives
    the empty array. *)
Definition np_array (rows : list vector) : result matrix :=
  match rows with
  | [] => Ok []
  | r :: rest =>
      if forallb (fun r' => Nat.eqb (length r') (length r)) rest then Ok rows
      else Raise ValueError
  end.

(** ** Python iterables

    The argument of a parameter annotated [Iterable]: a list (or another
    sequence), which yields its items every time it is iterated over, or an
    iterator (a generator, the result of [map] or [iter]), which yields the
    items it has left once and nothing after that. *)
Inductive Iterable (A : Type) : Type :=
| sequence (items : list A)
| iterator (items : list A).

Arguments sequence {A} items.
Arguments iterator {A} items.

(** What a first and a second iteration over the argument yield. *)
Definition first_pass {A} (it : Iterable A) : list A :=
  match it with
  | sequence items => items
  | iterator items => items
  end.

Definition second_pass {A} (it : Iterable A) : list A :=
  match it with
  | sequence items => items
  | iterator _ => []
  end.

(** ** [itertools] *)

Definition max_length {A} (ls : list (list A)) : nat :=
  fold_right (fun l n => Nat.max (length l) n) 0%nat ls.

(** [itertools.zip_longest] over the lists [ls]: one tuple per position up to the longest
    list, [None] where a list has run out. *)
Definition zip_longest {A} (ls : list (list A)) : list (list (option A)) :=
  map (fun i => map (fun l => nth_error l i) ls) (seq 0 (max_length ls)).

(** [[t for t in itertools.chain.from_iterable(tuples) if t is not None]]. *)
Definition chain_not_none {A} (tuples : list (list (option A))) : list A :=
  flat_map (fun o => match o with Some a => [a] | None => [] end)
           (concat tuples).

(** ** The embedding model (an external collaborator) *)

Inductive EmbeddingModes : Type := QUERY | DOCUMENT.

(** The calls an embedding model receives. *)
Inductive call : Type :=
| SetMode (m : EmbeddingModes)
| EmbedDocuments (docs : list string).

(** The model's mutable mode, the calls made on it so far (oldest first), and
    its behaviour as a black box: what [embed_documents] answers, which may
    depend on everything it was asked before, on the mode and on the texts. *)
Record EmbeddingModel : Type := {
  mode : EmbeddingModes;
  calls : list call;
  respond : list call -> EmbeddingModes -> list string -> result (list vector)
}.

(** ** Embeddable texts and the in-memory store *)

Record Embeddable : Type := {
  text : string;
  embedding : vector
}.

Record NumpyVectorStore : Type := {
  mmr_lambda : float;
  texts_hashes : gset Z;
  texts : list Embeddable;
  _embeddings_matrix : option matrix;
  _texts_filter : option (list bool)
}.

(** A store as pydantic builds it from the field defaults. *)
Definition new_store (lam : float) : NumpyVectorStore :=
  {| mmr_lambda := lam; texts_hashes := ∅; texts := [];
     _embeddings_matrix := None; _texts_filter := None |}.

(** ** The state of a call: the store [self] and the embedding model *)

Record World : Type := {
  self : NumpyVectorStore;
  embedding_model : EmbeddingModel
}.

Definition M (A : Type) : Type := World -> result A * World.

Definition ret {A} (a : A) : M A := fun w => (Ok a, w).

Definition raise {A} (e : exn) : M A := fun w => (Raise e, w).

Definition bind {A B} (c : M A) (f : A -> M B) : M B :=
  fun w => match c w with
           | (Ok a, w') => f a w'
           | (Raise e, w') => (Raise e, w')
           end.

Notation "x <~ c1 ;; c2" := (bind c1 (fun x => c2))
  (at level 100, c1 at next level, right associativity).

Definition lift {A} (r : result A) : M A := fun w => (r, w).

Definition get_self : M NumpyVectorStore := fun w => (Ok (self w), w).

(** [self._texts_filter = f] *)
Definition set_texts_filter (f : option (list bool)) : M unit :=
  fun w =>
    let s := self w in
    (Ok tt,
     {| self := {| mmr_lambda := mmr_lambda s; texts_hashes := texts_hashes s;
                   texts := texts s; _embeddings_matrix := _embeddings_matrix s;
                   _texts_filter := f |};
        embedding_model := embedding_model w |}).

(** [embedding_model.set_mode(m)] *)
Definition set_mode (m : EmbeddingModes) : M unit :=
  fun w =>
    let e := embedding_model w in
    (Ok tt,
     {| self := self w;
        embedding_model := {| mode := m; calls := calls e ++ [SetMode m];
                              respond := respond e |} |}).

(** [await embedding_model.embed_documents(docs)] *)
Definition embed_documents (docs : list string) : M (list vector) :=
  fun w =>
    let e := embedding_model w in
    (respond e (calls e) (mode e) docs,
     {| self := self w;
        embedding_model := {| mode := mode e;
                              calls := calls e ++ [EmbedDocuments docs];
                              respond := respond e |} |}).

(** *** [VectorStore.partitioned_similarity_search]

    The default of the abstract class, which a store without a filter of
    its own (the Qdrant store) inherits. *)
Definition default_partitioned_similarity_search (query : string) (k : Z)
    (partitioning_fn : Embeddable -> Z) : M (list Embeddable * list float) :=
  raise NotImplementedError.

(** What a call of the partitioning function gives. The function is the
    caller's, a Python callable: a call returns a key or raises. A function
    into [Z] is a callable that returns for every text; a function into
    [result Z] is any callable. *)
Class Callable (R : Type) : Type := call_key : R -> result Z.

#[export] Instance may_raise : Callable (result Z) := fun r => r.

#[export] Instance returns_key : Callable Z := fun z => Ok z.

Section Store.

(** [np.argsort], which the search calls with its default [kind]: NumPy's
    quicksort, an introsort that NumPy documents as not stable and that it
    replaces by vectorized sorts on some processors. It is NumPy's code, not
    this module's, and enters as a parameter; [argsort_contract] below states
    what NumPy documents of it. *)
Variable argsort : list float -> list nat.

(** Python's [hash] on an [Embeddable]. *)
Variable hash : Embeddable -> Z.

(** *** [VectorStore.__contains__], [VectorStore.__len__] *)

Definition contains (s : NumpyVectorStore) (item : Embeddable) : bool :=
  bool_decide (hash item ∈ texts_hashes s).

Definition len (s : NumpyVectorStore) : nat := size (texts_hashes s).

(** *** [NumpyVectorStore.clear] *)

Definition clear (s : NumpyVectorStore) : NumpyVectorStore :=
  {| mmr_lambda := mmr_lambda s; texts_hashes := ∅; texts := [];
     _embeddings_matrix := None; _texts_filter := None |}.

(** *** [NumpyVectorStore.add_texts_and_embeddings]

    The method iterates over [texts] twice: [super()] takes the hashes from
    a first iteration, [self.texts.extend(texts)] the texts from a second.
    [np.array] then raises when the stored embeddings have not all one
    length, after the hashes were added and the texts appended: the matrix
    stays the one it was. The result is the outcome of the call and the
    store it leaves. *)
Definition add_texts_and_embeddings (s : NumpyVectorStore)
    (texts_arg : Iterable Embeddable) : result unit * NumpyVectorStore :=
  let hashes := texts_hashes s ∪ list_to_set (map hash (first_pass texts_arg)) in
  let texts' := texts s ++ second_pass texts_arg in
  match np_array (map embedding texts') with
  | Ok m =>
      (Ok tt,
       {| mmr_lambda := mmr_lambda s; texts_hashes := hashes; texts := texts';
          _embeddings_matrix := Some m; _texts_filter := _texts_filter s |})
  | Raise e =>
      (Raise e,
       {| mmr_lambda := mmr_lambda s; texts_hashes := hashes; texts := texts';
          _embeddings_matrix := _embeddings_matrix s;
          _texts_filter := _texts_filter s |})
  end.

(** *** [NumpyVectorStore.similarity_search] *)

(** The lines of [similarity_search] after the embedding call: they only
    read [self]. [k] is already [min(k, len(self.texts))]. *)
Definition search_rows (s : NumpyVectorStore) (np_query : vector) (k : Z)
  : result (list Embeddable * list float) :=
  sel <- match _texts_filter s with
         | Some mask =>
             m <- match _embeddings_matrix s with
                  | Some m => Ok m
                  | None => Raise NoneError
                  end ;;
             rows <- bool_index m mask ;;
             Ok (np_where mask, Some rows)
         | None => Ok (seq 0 (length (texts s)), _embeddings_matrix s)
         end ;;
  let original_indices := fst sel in
  embedding_matrix <- match snd sel with
                      | Some m => Ok m
                      | None => Raise NoneError
                      end ;;
  sims <- cosine_similarity [np_query] embedding_matrix ;;
  row0 <- getitem sims 0 ;;
  let similarity_scores := map nan_to_num row0 in
  let sorted_indices := argsort (map PrimFloat.opp similarity_scores) in
  resolved <- take_indices original_indices sorted_indices ;;
  ts <- take_indices (texts s) (slice_to k resolved) ;;
  ss <- take_indices similarity_scores (slice_to k sorted_indices) ;;
  Ok (ts, ss).

Definition similarity_search (query : string) (k : Z)
  : M (list Embeddable * list float) :=
  s <~ get_self ;;
  let k := Z.min k (Z.of_nat (length (texts s))) in
  if k =? 0 then ret ([], [])
  else
    _ <~ set_mode QUERY ;;
    vecs <~ embed_documents [query] ;;
    np_query <~ lift (getitem vecs 0) ;;
    _ <~ set_mode DOCUMENT ;;
    lift (search_rows s np_query k).

(** *** [NumpyVectorStore.partitioned_similarity_search] *)

(** The [for partition in np.unique(text_partitions)] loop; the two result
    lists grow by one entry per partition. *)
Fixpoint partition_loop (partitions : list Z) (text_partitions : list Z)
    (query : string) (k : Z)
  : M (list (list Embeddable) * list (list float)) :=
  match partitions with
  | [] => ret ([], [])
  | partition :: rest =>
      _ <~ set_texts_filter (Some (map (Z.eqb partition) text_partitions)) ;;
      r <~ similarity_search query k ;;
      rs <~ partition_loop rest text_partitions query k ;;
      ret (fst r :: fst rs, snd r :: snd rs)
  end.

Definition partitioned_similarity_search {R : Type} `{Callable R}
    (query : string) (k : Z) (partitioning_fn : Embeddable -> R)
  : M (list Embeddable * list float) :=
  s <~ get_self ;;
  text_partitions <~
    lift (rmap (fun t => call_key (partitioning_fn t)) (texts s)) ;;
  rs <~ partition_loop (np_unique text_partitions) text_partitions query k ;;
  _ <~ set_texts_filter None ;;
  ret (slice_to k (chain_not_none (zip_longest (fst rs))),
       slice_to k (chain_not_none (zip_longest (snd rs)))).

(** *** [VectorStore.max_marginal_relevance_search] *)

(** The [while len(selected_indices) < k] loop: every pass appends one index,
    so [todo] counts the passes left, [k - len(selected_indices)]. *)
Fixpoint mmr_loop (todo : nat) (lam : float) (np_scores : vector)
    (similarity_matrix : matrix) (selected_indices remaining_indices : list nat)
  : result (list nat) :=
  match todo with
  | O => Ok selected_indices
  | S todo' =>
      selected_similarities <-
        rmap (fun row => take_indices row selected_indices) similarity_matrix ;;
      max_sim_to_selected <- rmap row_max selected_similarities ;;
      mmr_scores <-
        broadcast2 PrimFloat.sub
          (map (PrimFloat.mul lam) np_scores)
          (map (PrimFloat.mul (PrimFloat.sub 1 lam)) max_sim_to_selected) ;;
      let mmr_scores := put selected_indices neg_inf mmr_scores in
      max_mmr_index <- argmax mmr_scores ;;
      remaining <- list_remove max_mmr_index remaining_indices ;;
      mmr_loop todo' lam np_scores similarity_matrix
               (selected_indices ++ [max_mmr_index]) remaining
  end.

(** The lines of [max_marginal_relevance_search] after the early return. *)
Definition mmr_select (lam : float) (k : Z) (ts : list Embeddable)
    (scores : list float) : result (list Embeddable * list float) :=
  let embeddings := map embedding ts in
  similarity_matrix <- cosine_similarity embeddings embeddings ;;
  selected <- mmr_loop (Z.to_nat (k - 1)) lam scores similarity_matrix
                       [0%nat] (seq 1 (length ts - 1)) ;;
  sel_texts <- take_indices ts selected ;;
  sel_scores <- take_indices scores selected ;;
  Ok (sel_texts, sel_scores).

Definition max_marginal_relevance_search (query : string) (k fetch_k : Z)
    (partitioning_fn : option (Embeddable -> Z))
  : M (list Embeddable * list float) :=
  if fetch_k <? k then raise ValueError
  else
    r <~ match partitioning_fn with
         | None => similarity_search query fetch_k
         | Some f => partitioned_similarity_search query fetch_k f
         end ;;
    s <~ get_self ;;
    if (Z.of_nat (length (fst r)) <=? k) || PrimFloat.leb 1 (mmr_lambda s)
    then ret r
    else lift (mmr_select (mmr_lambda s) k (fst r) (snd r)).

End Store.

(** ** The embedding models [embedding_model_factory] builds *)

(** The objects by class, with the arguments their constructors are given;
    [K] is the type of the keyword arguments, which the factory only passes
    on. The classes are not this module's code: a constructor is taken to
    return its object. *)
Inductive BuiltModel (K : Type) : Type :=
| HybridEmbeddingModel (models : list (BuiltModel K))
| SentenceTransformerEmbeddingModel (name : string) (config : K)
| LiteLLMEmbeddingModel (name : string) (config : K)
| SparseEmbeddingModel (kwargs : K).

Arguments HybridEmbeddingModel {K} models.
Arguments SentenceTransformerEmbeddingModel {K} name config.
Arguments LiteLLMEmbeddingModel {K} name config.
Arguments SparseEmbeddingModel {K} kwargs.

(** ** [embedding_model_factory]

    Python strings are strings of characters below 256 here (Rocq's
    [ascii]); [str.strip] removes the characters for which [str.isspace]
    holds, among those: tab to carriage return, the four separators 28 to
    31, the space, NEL (133) and the no-break space (160). *)
Section Strings.
Local Open Scope string_scope.
Local Open Scope nat_scope.

Definition isspace (c : Ascii.ascii) : bool :=
  let n := Ascii.nat_of_ascii c in
  (9 <=? n) && (n <=? 13) || (28 <=? n) && (n <=? 32)
  || (n =? 133) || (n =? 160).

Fixpoint lstrip (s : string) : string :=
  match s with
  | EmptyString => EmptyString
  | String c s' => if isspace c then lstrip s' else s
  end.

Fixpoint rstrip (s : string) : string :=
  match s with
  | EmptyString => EmptyString
  | String c s' =>
      match rstrip s' with
      | EmptyString => if isspace c then EmptyString else String c EmptyString
      | r => String c r
      end
  end.

(** [s.strip()] *)
Definition strip (s : string) : string := rstrip (lstrip s).

(** [s.startswith(p)] *)
Definition startswith (s p : string) : bool := String.prefix p s.

(** [s[n:]] *)
Fixpoint slice_from (n : nat) (s : string) : string :=
  match n, s with
  | O, _ => s
  | S n', String _ s' => slice_from n' s'
  | S _, EmptyString => EmptyString
  end.

(** The body of [embedding_model_factory], with its recursion cut off below
    [depth] nested calls: [None] when the cut is reached. *)
Fixpoint factory_calls {K} (depth : nat) (embedding : string) (kwargs : K)
  : option (result (BuiltModel K)) :=
  let embedding := strip embedding in
  if startswith embedding "hybrid-" then
    let dense_name := slice_from (String.length "hybrid-") embedding in
    if String.eqb dense_name "" then Some (Raise ValueError)
    else
      match depth with
      | O => None
      | S depth' =>
          match factory_calls depth' dense_name kwargs with
          | Some (Ok dense_model) =>
              let sparse_model := SparseEmbeddingModel kwargs in
              Some (Ok (HybridEmbeddingModel [dense_model; sparse_model]))
          | r => r
          end
      end
  else if startswith embedding "st-" then
    let model_name := strip (slice_from (String.length "st-") embedding) in
    if String.eqb model_name "" then Some (Raise ValueError)
    else Some (Ok (SentenceTransformerEmbeddingModel model_name kwargs))
  else if startswith embedding "litellm-" then
    let model_name := strip (slice_from (String.length "litellm-") embedding) in
    if String.eqb model_name "" then Some (Raise ValueError)
    else Some (Ok (LiteLLMEmbeddingModel model_name kwargs))
  else if String.eqb embedding "sparse" then
    Some (Ok (SparseEmbeddingModel kwargs))
  else Some (Ok (LiteLLMEmbeddingModel embedding kwargs)).

(** Every nested call is on a string at least seven characters shorter, so
    the recursion never goes deeper than the string is long
    ([factory_calls_finish] below): the cut is not reached. The limit the
    Python interpreter puts on the depth of recursion is not modelled. *)
Definition embedding_model_factory {K} (embedding : string) (kwargs : K)
  : result (BuiltModel K) :=
  match factory_calls (String.length embedding) embedding kwargs with
  | Some r => r
  | None => Raise ValueError
  end.

(** A string of whitespace only, the empty string included. *)
Fixpoint blank (s : string) : bool :=
  match s with
  | EmptyString => true
  | String c s' => isspace c && blank s'
  end.

(** A model as the factory builds them for the keyword arguments [kwargs]:
    every name is non-empty and stripped, every hybrid holds a model and the
    sparse model, in this order, and [kwargs] reaches every constructor. *)
Fixpoint well_named {K} (kwargs : K) (m : BuiltModel K) : Prop :=
  match m with
  | HybridEmbeddingModel [dense_model; SparseEmbeddingModel c] =>
      well_named kwargs dense_model /\ c = kwargs
  | HybridEmbeddingModel _ => False
  | SentenceTransformerEmbeddingModel name c
  | LiteLLMEmbeddingModel name c =>
      name <> "" /\ strip name = name /\ c = kwargs
  | SparseEmbeddingModel c => c = kwargs
  end.

End Strings.

(** ** [QdrantVectorStore]

    The store keeps its texts in a Qdrant collection, through a client that
    is not this module's code: the client is a black box that records the
    requests made of it and answers them. The names of the in-memory store
    are used again inside the module [Qdrant]. *)
Module Qdrant.

(** What a method of the Qdrant store can raise. *)
Inductive qexn : Type :=
| ClientError            (* whatever the Qdrant client raises *)
| KeyError
| TypeError
| ValidationError        (* raised by pydantic when it builds a [Text] *)
| Raised (e : exn).      (* raised as in the in-memory store *)

Inductive outcome (A : Type) : Type :=
| Done (a : A)
| Failed (e : qexn).

Arguments Done {A} a.
Arguments Failed {A} e.

(** [text.model_dump(exclude={"embedding"})]: the fields of a text but its
    embedding. *)
Record Payload : Type := { payload_text : string }.

Definition model_dump (t : Embeddable) : Payload :=
  {| payload_text := text t |}.

(** The vector of a point: the embedding itself, or a dict of embeddings by
    vector name. *)
Inductive stored_vector : Type :=
| Plain (v : vector)
| Named (vs : list (string * vector)).

(** A point as [query_points] returns it with [with_vectors=True] and
    [with_payload=True]. *)
Record ScoredPoint : Type := {
  payload : Payload;
  point_vector : stored_vector;
  score : float
}.

(** The calls the store makes on its client, with the arguments that vary. *)
Inductive request : Type :=
| CollectionExists (name : string)
| CreateCollection (name : string) (vector_name : option string) (size : nat)
| UploadCollection (name : string) (vectors : list stored_vector)
                   (payloads : list Payload) (ids : list string)
| Delete (name : string)
| QueryPoints (name : string) (query : vector) (using_name : option string)
              (limit : Z).

(** The client, a black box as the embedding model is: the requests made of
    it so far (oldest first) and what it answers, which may depend on all
    of them. *)
Record QdrantClient : Type := {
  requests : list request;
  collection_exists_answer : list request -> string -> outcome bool;
  command_answer : list request -> request -> outcome unit;
  query_points_answer : list request -> request -> outcome (list ScoredPoint)
}.

Record QdrantVectorStore : Type := {
  mmr_lambda : float;
  texts_hashes : gset Z;
  client : QdrantClient;
  collection_name : string;
  vector_name : option string;
  _point_ids : option (gset string)
}.

Record World : Type := {
  self : QdrantVectorStore;
  embedding_model : EmbeddingModel
}.

Definition Q (A : Type) : Type := World -> outcome A * World.

Definition qret {A} (a : A) : Q A := fun w => (Done a, w).

Definition qbind {A B} (c : Q A) (f : A -> Q B) : Q B :=
  fun w => match c w with
           | (Done a, w') => f a w'
           | (Failed e, w') => (Failed e, w')
           end.

Notation "x <~~ c1 ;; c2" := (qbind c1 (fun x => c2))
  (at level 100, c1 at next level, right associativity).

Definition qlift {A} (r : outcome A) : Q A := fun w => (r, w).

Definition get_self : Q QdrantVectorStore := fun w => (Done (self w), w).

Definition set_self (s : QdrantVectorStore) : Q unit :=
  fun w => (Done tt, {| self := s; embedding_model := embedding_model w |}).

(** [self.texts_hashes = h] *)
Definition set_texts_hashes (h : gset Z) : Q unit :=
  s <~~ get_self ;;
  set_self {| mmr_lambda := mmr_lambda s; texts_hashes := h;
              client := client s; collection_name := collection_name s;
              vector_name := vector_name s; _point_ids := _point_ids s |}.

(** [self._point_ids = ids] *)
Definition set_point_ids (ids : option (gset string)) : Q unit :=
  s <~~ get_self ;;
  set_self {| mmr_lambda := mmr_lambda s; texts_hashes := texts_hashes s;
              client := client s; collection_name := collection_name s;
              vector_name := vector_name s; _point_ids := ids |}.

(** The state after the request [r] has gone on the client's record. *)
Definition with_request (w : World) (r : request) : World :=
  let s := self w in
  let c := client s in
  {| self := {| mmr_lambda := mmr_lambda s; texts_hashes := texts_hashes s;
                client := {| requests := requests c ++ [r];
                             collection_exists_answer :=
                               collection_exists_answer c;
                             command_answer := command_answer c;
                             query_points_answer := query_points_answer c |};
                collection_name := collection_name s;
                vector_name := vector_name s;
                _point_ids := _point_ids s |};
     embedding_model := embedding_model w |}.

(** A call on [self.client]: the client answers from what it was asked
    before, and the request goes on its record. *)
Definition call_client {A}
    (answer : QdrantClient -> list request -> outcome A) (r : request) : Q A :=
  fun w => (answer (client (self w)) (requests (client (self w))),
            with_request w r).

Definition collection_exists (name : string) : Q bool :=
  call_client (fun c h => collection_exists_answer c h name)
              (CollectionExists name).

Definition command (r : request) : Q unit :=
  call_client (fun c h => command_answer c h r) r.

Definition query_points (r : request) : Q (list ScoredPoint) :=
  call_client (fun c h => query_points_answer c h r) r.

(** [embedding_model.set_mode(m)] and [embed_documents(docs)], as for the
    in-memory store. *)
Definition set_mode (m : EmbeddingModes) : Q unit :=
  fun w =>
    let e := embedding_model w in
    (Done tt,
     {| self := self w;
        embedding_model := {| mode := m; calls := calls e ++ [SetMode m];
                              respond := respond e |} |}).

Definition embed_documents (docs : list string) : Q (list vector) :=
  fun w =>
    let e := embedding_model w in
    (match respond e (calls e) (mode e) docs with
     | Ok vecs => Done vecs
     | Raise x => Failed (Raised x)
     end,
     {| self := self w;
        embedding_model := {| mode := mode e;
                              calls := calls e ++ [EmbedDocuments docs];
                              respond := respond e |} |}).

(** The truth value of [self.vector_name]: [None] and the empty string are
    false. *)
Definition named (vector_name : option string) : option string :=
  match vector_name with
  | Some n => if String.eqb n "" then None else Some n
  | None => None
  end.

(** [{self.vector_name: x} if self.vector_name else x] for an embedding. *)
Definition as_stored (vector_name : option string) (v : vector)
  : stored_vector :=
  match named vector_name with
  | Some n => Named [(n, v)]
  | None => Plain v
  end.

(** [d[key]] on a dict. *)
Fixpoint dict_get (key : string) (d : list (string * vector)) : outcome vector :=
  match d with
  | [] => Failed KeyError
  | (k, v) :: d' => if String.eqb k key then Done v else dict_get key d'
  end.

(** The [Text] built from the fields of [p.payload] and the embedding
    [p.vector[self.vector_name] if self.vector_name else p.vector]: a list
    cannot be indexed by a name, and pydantic does not take a dict for an
    embedding. *)
Definition text_of_point (vector_name : option string) (p : ScoredPoint)
  : outcome Embeddable :=
  match match named vector_name, point_vector p with
        | Some n, Named d => dict_get n d
        | Some _, Plain _ => Failed TypeError
        | None, Plain v => Done v
        | None, Named _ => Failed ValidationError
        end with
  | Done v => Done {| text := payload_text (payload p); embedding := v |}
  | Failed e => Failed e
  end.

Fixpoint omap {A B} (f : A -> outcome B) (l : list A) : outcome (list B) :=
  match l with
  | [] => Done []
  | a :: l' =>
      match f a with
      | Done b => match omap f l' with
                  | Done bs => Done (b :: bs)
                  | Failed e => Failed e
                  end
      | Failed e => Failed e
      end
  end.

Section Store.

(** Python's [hash] on a text, and
    [uuid.uuid5(uuid.NAMESPACE_URL, str(embedding)).hex]. *)
Variable hash : Embeddable -> Z.
Variable uuid5 : vector -> string.

(** [VectorStore.__contains__], [VectorStore.__len__] *)
Definition contains (s : QdrantVectorStore) (item : Embeddable) : bool :=
  bool_decide (hash item ∈ texts_hashes s).

Definition len (s : QdrantVectorStore) : nat := size (texts_hashes s).

(** [QdrantVectorStore.clear] *)
Definition clear : Q unit :=
  _ <~~ set_texts_hashes ∅ ;;
  s <~~ get_self ;;
  present <~~ collection_exists (collection_name s) ;;
  if negb present then qret tt
  else
    _ <~~ command (Delete (collection_name s)) ;;
    set_point_ids None.

(** [QdrantVectorStore.add_texts_and_embeddings]: [super()] takes the
    hashes from a first iteration over [texts], and [list(texts)] is a
    second iteration. *)
Definition add_texts_and_embeddings (texts : Iterable Embeddable) : Q unit :=
  s <~~ get_self ;;
  _ <~~ set_texts_hashes
          (texts_hashes s ∪ list_to_set (map hash (first_pass texts))) ;;
  let texts_list := second_pass texts in
  _ <~~ match texts_list with
       | [] => qret tt
       | first :: _ =>
           present <~~ collection_exists (collection_name s) ;;
           if negb present
           then command (CreateCollection (collection_name s)
                           (named (vector_name s))
                           (length (embedding first)))
           else qret tt
       end ;;
  let ids := map (fun t => uuid5 (embedding t)) texts_list in
  let payloads := map model_dump texts_list in
  let vectors :=
    map (fun t => as_stored (vector_name s) (embedding t)) texts_list in
  _ <~~ command (UploadCollection (collection_name s) vectors payloads ids) ;;
  set_point_ids (Some (list_to_set ids)).

(** [QdrantVectorStore.similarity_search] *)
Definition similarity_search (query : string) (k : Z)
  : Q (list Embeddable * list float) :=
  s <~~ get_self ;;
  present <~~ collection_exists (collection_name s) ;;
  if negb present then qret ([], [])
  else
    _ <~~ set_mode QUERY ;;
    vecs <~~ embed_documents [query] ;;
    np_query <~~ qlift (match getitem vecs 0 with
                       | Ok v => Done v
                       | Raise x => Failed (Raised x)
                       end) ;;
    _ <~~ set_mode DOCUMENT ;;
    points <~~ query_points (QueryPoints (collection_name s) np_query
                              (vector_name s) k) ;;
    texts <~~ qlift (omap (text_of_point (vector_name s)) points) ;;
    qret (texts, map score points).

End Store.

End Qdrant.

(** ** Sorting algorithms for [argsort]

    Insertion of the indices one by one into a sorted index list. With the
    strict comparison an index goes after the indices of equal key: a
    stable sort, as the insertion sort that NumPy's portable quicksort runs
    on a short array. It keeps the contract of [argsort]. *)
Fixpoint insert_index (before : float -> float -> bool) (keys : list float)
    (i : nat) (sorted : list nat) : list nat :=
  match sorted with
  | [] => [i]
  | j :: sorted' =>
      if before (nth i keys 0%float) (nth j keys 0%float)
      then i :: j :: sorted'
      else j :: insert_index before keys i sorted'
  end.

Definition insertion_argsort (before : float -> float -> bool)
    (keys : list float) : list nat :=
  fold_left (fun sorted i => insert_index before keys i sorted)
            (seq 0 (length keys)) [].

Definition stable_argsort : list float -> list nat :=
  insertion_argsort PrimFloat.ltb.

(** What NumPy documents of [argsort] on an array without NaN: the result
    lists every position once, and the keys it points at are ascending. *)
Definition no_nan (keys : list float) : Prop :=
  Forall (fun x => is_nan x = false) keys.

Definition key_le (keys : list float) (i j : nat) : Prop :=
  PrimFloat.leb (nth i keys 0%float) (nth j keys 0%float) = true.

Definition argsort_contract (argsort : list float -> list nat) : Prop :=
  forall keys, no_nan keys ->
    Permutation (argsort keys) (seq 0 (length keys)) /\
    StronglySorted (key_le keys) (argsort keys).

(** ** NumPy's portable quicksort for [argsort]

    [np.argsort] with its default [kind] runs [aquicksort_] of NumPy's
    [npysort/quicksort.cpp] where no vectorized sort replaces it: an
    introsort on the index array, which partitions around a median of three
    while a partition has more than [SMALL_QUICKSORT + 1] entries and
    finishes each partition with an insertion sort. *)



Section Aquicksort.
Local Open Scope nat_scope.

(** The keys [v]; the index array [tosort] is a list, and a pointer into it
    is a position. *)
Variable v : list float.












End Aquicksort.


(** ** The words of the specification, for comparison with the code *)

(** Round-robin interleaving: index 0 of every list in order, then index 1,
    and so on, skipping the lists that have run out. *)
Definition heads {A} (ls : list (list A)) : list A :=
  flat_map (fun l => match l with [] => [] | x :: _ => [x] end) ls.

Fixpoint round_robin_rounds {A} (rounds : nat) (ls : list (list A)) : list A :=
  match rounds with
  | O => []
  | S rounds' => heads ls ++ round_robin_rounds rounds' (map (@tl A) ls)
  end.

Definition round_robin {A} (ls : list (list A)) : list A :=
  round_robin_rounds (max_length ls) ls.

(** The cosine of the angle between two vectors, as the specification
    defines an entry of the similarity matrix. *)
Definition cosine (u v : vector) : float :=
  PrimFloat.div (dot u v) (PrimFloat.mul (norm u) (norm v)).

(** ** The rows a search ranks, and their scores *)

(** The texts whose rows a search looks at: all, or those the filter keeps. *)
Definition active_texts (s : NumpyVectorStore) : list Embeddable :=
  match _texts_filter s with
  | Some mask => select_rows (texts s) mask
  | None => texts s
  end.

Definition score (np_query : vector) (t : Embeddable) : float :=
  nan_to_num (cosine np_query (embedding t)).

(** The order in which a search ranks the active rows. *)
Definition ranking (argsort : list float -> list nat) (s : NumpyVectorStore)
    (q : vector) : list nat :=
  argsort (map PrimFloat.opp (map (score q) (active_texts s))).

(** The entries of [l] at the positions [idx], without the range check. *)
Definition pick {A} (l : list A) (idx : list nat) : list A :=
  flat_map (fun i => match nth_error l i with Some a => [a] | None => [] end) idx.

(** Scores in non-increasing order. *)
Definition descending (scores : list float) : Prop :=
  StronglySorted (fun a b => PrimFloat.leb b a = true) scores.

(** A store whose matrix holds the embedding of every text, all of the
    dimension [d], and whose filter, when set, has one flag per text and
    keeps at least one. *)
Record store_ok (d : nat) (s : NumpyVectorStore) : Prop := {
  ok_matrix : _embeddings_matrix s = Some (map embedding (texts s));
  ok_dim : Forall (fun t => length (embedding t) = d) (texts s);
  ok_filter : forall mask, _texts_filter s = Some mask ->
                length mask = length (texts s) /\ In true mask
}.

(** An embedding model that answers [query] with [np_query] whatever it was
    asked before. *)
Definition answers (e : EmbeddingModel) (query : string) (np_query : vector)
  : Prop :=
  forall history m, exists more,
    respond e history m [query] = Ok (np_query :: more).

(** The embedding model after it has embedded one query: the three calls
    of [similarity_search] are on its record and its mode is [DOCUMENT]. *)
Definition query_calls (query : string) : list call :=
  [SetMode QUERY; EmbedDocuments [query]; SetMode DOCUMENT].

Definition after_queries (times : nat) (query : string) (w : World) : World :=
  {| self := self w;
     embedding_model :=
       {| mode := match times with O => mode (embedding_model w)
                                 | S _ => DOCUMENT end;
          calls := calls (embedding_model w)
                     ++ concat (repeat (query_calls query) times);
          respond := respond (embedding_model w) |} |}.

(** [self] with its filter replaced. *)
Definition with_filter (s : NumpyVectorStore) (f : option (list bool))
  : NumpyVectorStore :=
  {| mmr_lambda := mmr_lambda s; texts_hashes := texts_hashes s;
     texts := texts s; _embeddings_matrix := _embeddings_matrix s;
     _texts_filter := f |}.

(** The mask [text_partitions == partition]. *)
Definition partition_mask (partitioning_fn : Embeddable -> Z)
    (s : NumpyVectorStore) (partition : Z) : list bool :=
  map (Z.eqb partition) (map partitioning_fn (texts s)).

(** The result of the search scoped to one partition: the [k] best of the
    rows the partition's mask keeps ([k] capped by the number of texts). *)
Definition top_k (argsort : list float -> list nat) (s : NumpyVectorStore)
    (q : vector) (k : Z) : list Embeddable * list float :=
  let k' := Z.min k (Z.of_nat (length (texts s))) in
  (pick (active_texts s) (slice_to k' (ranking argsort s q)),
   pick (map (score q) (active_texts s)) (slice_to k' (ranking argsort s q))).

Definition scoped_search (argsort : list float -> list nat)
    (partitioning_fn : Embeddable -> Z) (s : NumpyVectorStore) (q : vector)
    (k : Z) (partition : Z) : list Embeddable * list float :=
  top_k argsort
        (with_filter s (Some (partition_mask partitioning_fn s partition))) q k.

(** How many times a search over [parts] partitions embeds the query. *)
Definition embeddings_made (s : NumpyVectorStore) (k : Z) (parts : nat) : nat :=
  if Z.min k (Z.of_nat (length (texts s))) =? 0 then O else parts.

(** The state in which the search of one partition starts: the partition's
    mask is the filter. *)
Definition scoped_world (partitioning_fn : Embeddable -> Z) (w : World)
    (partition : Z) : World :=
  {| self := with_filter (self w)
               (Some (partition_mask partitioning_fn (self w) partition));
     embedding_model := embedding_model w |}.

(** What [cosine_similarity] computes for two matrices of equally many rows:
    entry (i, j) is the dot product of [a_i] and [b_j] over the product of
    the norms of [a_j] and [b_j]. *)
Definition pairwise_similarity (a b : matrix) : matrix :=
  map (fun ra =>
         map (fun p => PrimFloat.div (dot ra (snd p))
                         (PrimFloat.mul (norm (fst p)) (norm (snd p))))
             (combine a b))
      a.

(** ** The words of the specification on MMR *)

(** [max(similarity to any selected item)] for candidate [i]; [selected] is
    never empty. *)
Definition max_similarity (similarity_matrix : matrix) (selected : list nat)
    (i : nat) : float :=
  match pick (nth i similarity_matrix []) selected with
  | [] => 0%float
  | x :: rest => fold_left np_maximum rest x
  end.

(** [mmrScore = mmrLambda * relevance - (1 - mmrLambda) * max(similarity to
    any selected item)]. *)
Definition mmr_score (lam : float) (scores : vector) (similarity_matrix : matrix)
    (selected : list nat) (i : nat) : float :=
  PrimFloat.sub (PrimFloat.mul lam (nth i scores 0%float))
                (PrimFloat.mul (PrimFloat.sub 1 lam)
                               (max_similarity similarity_matrix selected i)).

(** The scores [argmax] sees: [-inf] written over the selected candidates. *)
Definition masked_score (lam : float) (scores : vector)
    (similarity_matrix : matrix) (selected : list nat) (i : nat) : float :=
  if existsb (Nat.eqb i) selected then neg_inf
  else mmr_score lam scores similarity_matrix selected i.

(** Candidate [i] of [n] is the greedy choice: not yet selected, of maximal
    score among those not yet selected, and the earliest such. *)
Definition greedy_choice (n : nat) (score_of : nat -> float)
    (selected : list nat) (i : nat) : Prop :=
  (i < n)%nat /\ ~ In i selected /\
  (forall j, (j < n)%nat -> ~ In j selected ->
             PrimFloat.leb (score_of j) (score_of i) = true) /\
  (forall j, (j < i)%nat -> ~ In j selected ->
             PrimFloat.ltb (score_of j) (score_of i) = true).

(** Every entry of [picks] is the greedy choice given those before it. *)
Fixpoint greedy_selection (n : nat) (lam : float) (scores : vector)
    (similarity_matrix : matrix) (selected picks : list nat) : Prop :=
  match picks with
  | [] => True
  | i :: picks' =>
      greedy_choice n (mmr_score lam scores similarity_matrix selected)
                    selected i /\
      greedy_selection n lam scores similarity_matrix (selected ++ [i]) picks'
  end.

(** No MMR score of a candidate not yet selected is NaN or [-inf]. *)
Definition scores_usable (n : nat) (lam : float) (scores : vector)
    (similarity_matrix : matrix) : Prop :=
  forall selected i,
    selected <> [] -> Forall (fun s => (s < n)%nat) selected ->
    (i < n)%nat -> ~ In i selected ->
    PrimFloat.ltb neg_inf (mmr_score lam scores similarity_matrix selected i)
    = true.

(** A check that implies [scores_usable]: whatever similarity entry of its
    row a candidate is charged with, its score is above [-inf]. *)
Definition all_scores_above_neg_inf (lam : float) (scores : vector)
    (similarity_matrix : matrix) : bool :=
  forallb (fun i =>
             forallb (fun v =>
                        PrimFloat.ltb neg_inf
                          (PrimFloat.sub
                             (PrimFloat.mul lam (nth i scores 0%float))
                             (PrimFloat.mul (PrimFloat.sub 1 lam) v)))
                     (nth i similarity_matrix []))
          (seq 0 (length scores)).

(** Position [r] holds the first maximum of [l]. *)
Definition first_maximum (l : list float) (r : nat) : Prop :=
  (r < length l)%nat /\
  (forall j, (j < length l)%nat ->
             PrimFloat.leb (nth j l 0%float) (nth r l 0%float) = true) /\
  (forall j, (j < r)%nat ->
             PrimFloat.ltb (nth j l 0%float) (nth r l 0%float) = true).

(** ** Sequences of updates, and what a search leaves alone *)

(** The calls that change a store. *)
Inductive update : Type :=
| AddTextsAndEmbeddings (texts_arg : Iterable Embeddable)
| ClearStore.

(** The store after a call, whether the call returned or raised (a caller
    can catch the exception and go on with the store). *)
Definition apply_update (hash : Embeddable -> Z) (s : NumpyVectorStore)
    (u : update) : NumpyVectorStore :=
  match u with
  | AddTextsAndEmbeddings texts_arg =>
      snd (add_texts_and_embeddings hash s texts_arg)
  | ClearStore => clear s
  end.

(** A new store after the calls [us], oldest first. *)
Definition after_updates (hash : Embeddable -> Z) (lam : float)
    (us : list update) : NumpyVectorStore :=
  fold_left (apply_update hash) us (new_store lam).

(** Every [add_texts_and_embeddings] among the calls [us], made one after
    the other from the store [s], returns. *)
Fixpoint adds_return (hash : Embeddable -> Z) (s : NumpyVectorStore)
    (us : list update) : Prop :=
  match us with
  | [] => True
  | u :: us' =>
      match u with
      | AddTextsAndEmbeddings texts_arg =>
          fst (add_texts_and_embeddings hash s texts_arg) = Ok tt
      | ClearStore => True
      end /\ adds_return hash (apply_update hash s u) us'
  end.

(** Every batch among the calls [us] is a sequence. *)
Definition batches_are_sequences (us : list update) : Prop :=
  Forall (fun u => match u with
                   | AddTextsAndEmbeddings (iterator _) => False
                   | _ => True
                   end) us.

(** The texts that the calls [us] leave in a store: those that a second
    iteration over the batches since the last [clear] yields. *)
Definition kept_texts (us : list update) : list Embeddable :=
  fold_left (fun acc u => match u with
                          | AddTextsAndEmbeddings texts_arg =>
                              acc ++ second_pass texts_arg
                          | ClearStore => []
                          end) us [].

(** What every update keeps. *)
Definition kept_by_updates (hash : Embeddable -> Z) (lam : float)
    (s : NumpyVectorStore) : Prop :=
  mmr_lambda s = lam /\
  _texts_filter s = None /\
  (forall t, In t (texts s) -> hash t ∈ texts_hashes s) /\
  (forall m, _embeddings_matrix s = Some m ->
             exists more, map embedding (texts s) = m ++ more).

(** A store in order, or one without texts and without a matrix. *)
Definition in_order (s : NumpyVectorStore) : Prop :=
  (exists d, store_ok d s) \/ (_embeddings_matrix s = None /\ texts s = []).

(** What a store holds, its filter apart. *)
Definition corpus (s : NumpyVectorStore)
  : float * gset Z * list Embeddable * option matrix :=
  (mmr_lambda s, texts_hashes s, texts s, _embeddings_matrix s).

(** A score as a search returns them: not NaN and not plus infinity. *)
Definition proper_score (x : float) : Prop :=
  is_nan x = false /\ x <> pos_inf.

(** ** Concrete stores and embedding models

    Two-dimensional embeddings and the query embedding (1, 0), so that every
    cosine below is an exact binary64 number: 1 for (1, 0) and (2, 0), 0 for
    (0, 1), -1 for (-1, 0), and 0/0 = NaN for the zero vector. *)
Module Examples.

Definition item (name : string) (x y : float) : Embeddable :=
  {| text := name; embedding := [x; y] |}.

Definition east : Embeddable := item "east" 1 0.
Definition east2 : Embeddable := item "east2" 2 0.
Definition north : Embeddable := item "north" 0 1.
Definition west : Embeddable := item "west" (-1) 0.
Definition zero1 : Embeddable := item "zero1" 0 0.
Definition zero2 : Embeddable := item "zero2" 0 0.

(** A model that embeds every text as the vector [v]. *)
Definition constant_model (v : vector) : EmbeddingModel :=
  {| mode := DOCUMENT; calls := [];
     respond := fun _ _ docs => Ok (map (fun _ => v) docs) |}.


(** A model that embeds the first batch it is given as [v] and raises on
    every later call (at the first call its record holds one call, the
    [set_mode] before it). *)
Definition fails_on_second_call (v : vector) : EmbeddingModel :=
  {| mode := DOCUMENT; calls := [];
     respond := fun history _ docs =>
                  if (length history <? 2)%nat
                  then Ok (map (fun _ => v) docs)
                  else Raise EmbeddingError |}.

(** A stand-in for Python's [hash] on a text: a polynomial hash of its name. *)
Definition name_hash (t : Embeddable) : Z :=
  fold_left (fun h c => (31 * h + Z.of_nat (Ascii.nat_of_ascii c)) mod 2 ^ 61)
            (list_ascii_of_string (text t)) 7.

(** A store holding [ts]: a new store to which the list [ts] was added as
    one batch. *)
Definition store_of (lam : float) (ts : list Embeddable) : NumpyVectorStore :=
  snd (add_texts_and_embeddings name_hash (new_store lam) (sequence ts)).

Definition world_of (lam : float) (ts : list Embeddable) : World :=
  {| self := store_of lam ts; embedding_model := constant_model [1; 0]%float |}.

(** Partition A holds three items and partition B one; the keys are 1 for A
    and 2 for B. *)
Definition A0 : Embeddable := item "A0" 1 0.
Definition A1 : Embeddable := item "A1" 0 1.
Definition A2 : Embeddable := item "A2" (-1) 0.
Definition B0 : Embeddable := item "B0" 2 0.

Definition by_letter (t : Embeddable) : Z :=
  if String.prefix "A" (text t) then 1 else 2.

(** A text whose embedding has three dimensions. *)
Definition deep : Embeddable :=
  {| text := "deep"; embedding := [1; 0; 0]%float |}.



End Examples.

(** ** Concrete Qdrant clients and stores *)
Module QdrantExamples.
Import Qdrant.

(** A client that finds its collection or not, as [present] says, accepts
    every command and answers every query with [points]. *)
Definition client_with (present : bool) (points : list ScoredPoint)
  : QdrantClient :=
  {| requests := [];
     collection_exists_answer := fun _ _ => Done present;
     command_answer := fun _ _ => Done tt;
     query_points_answer := fun _ _ => Done points |}.

(** A client with no collection whose [upload_collection] raises. *)
Definition upload_fails : QdrantClient :=
  {| requests := [];
     collection_exists_answer := fun _ _ => Done false;
     command_answer := fun _ r => match r with
                                  | UploadCollection _ _ _ _ => Failed ClientError
                                  | _ => Done tt
                                  end;
     query_points_answer := fun _ _ => Done [] |}.

Definition qdrant_store (c : QdrantClient) (vector_name : option string)
  : QdrantVectorStore :=
  {| mmr_lambda := 1; texts_hashes := ∅; client := c;
     collection_name := "paper-qa"; vector_name := vector_name;
     _point_ids := None |}.

Definition qdrant_world (c : QdrantClient) (vector_name : option string)
  : World :=
  {| self := qdrant_store c vector_name;
     embedding_model := Examples.constant_model [1; 0]%float |}.

(** A stand-in for [uuid5] of the text of an embedding: one character for
    the sign of every coordinate. *)
Definition sign_id (v : vector) : string :=
  String.concat ""
    (map (fun x => if PrimFloat.ltb 0 x then "+"
                   else if PrimFloat.ltb x 0 then "-"
                   else "0")%string v).

End QdrantExamples.

(** * Properties *)

(** ** The order of binary64 floats, from the kernel's specification *)

Ltac cmp_cases :=
  repeat match goal with
  | H : context [Pos.compare_cont Eq ?x ?y] |- _ =>
      change (Pos.compare_cont Eq x y) with (Pos.compare x y) in H
  | |- context [Pos.compare_cont Eq ?x ?y] =>
      change (Pos.compare_cont Eq x y) with (Pos.compare x y)
  end;
  repeat match goal with
  | H : context [Z.compare ?x ?y] |- _ => destruct (Z.compare_spec x y)
  | |- context [Z.compare ?x ?y] => destruct (Z.compare_spec x y)
  | H : context [Pos.compare ?x ?y] |- _ => destruct (Pos.compare_spec x y)
  | |- context [Pos.compare ?x ?y] => destruct (Pos.compare_spec x y)
  end;
  subst; simpl in *; try reflexivity; try discriminate; try lia.

Ltac float_shapes a := destruct a as [ | [] | | [] ? ?].

Lemma SFleb_trans (a b c : spec_float) :
  SFleb a b = true -> SFleb b c = true -> SFleb a c = true.
Proof.
  unfold SFleb. float_shapes a; float_shapes b; float_shapes c;
    simpl; try reflexivity; try discriminate; intros H1 H2; cmp_cases.
Qed.

Lemma SFleb_total (a b : spec_float) :
  a <> S754_nan -> b <> S754_nan -> SFleb a b = false -> SFltb b a = true.
Proof.
  unfold SFleb, SFltb. float_shapes a; float_shapes b;
    simpl; try reflexivity; try discriminate; try congruence;
    intros _ _ H; cmp_cases.
Qed.

Lemma SFltb_leb (a b : spec_float) : SFltb a b = true -> SFleb a b = true.
Proof.
  unfold SFleb, SFltb. destruct (SFcompare a b) as [[]|]; congruence.
Qed.

Lemma SFltb_not_leb (a b : spec_float) :
  SFltb a b = true -> SFleb b a = false.
Proof.
  unfold SFleb, SFltb. float_shapes a; float_shapes b;
    simpl; try reflexivity; try discriminate; intros H; cmp_cases.
Qed.

Lemma SFleb_opp (a b : spec_float) : SFleb (SFopp a) (SFopp b) = SFleb b a.
Proof.
  unfold SFleb. float_shapes a; float_shapes b;
    simpl; try reflexivity; cmp_cases.
Qed.

Lemma SFeqb_refl_iff (a : spec_float) : SFeqb a a = true <-> a <> S754_nan.
Proof.
  unfold SFeqb. float_shapes a; simpl; split; try congruence;
    try reflexivity; intros; cmp_cases.
Qed.

Lemma is_nan_spec (x : float) : is_nan x = false <-> Prim2SF x <> S754_nan.
Proof.
  unfold is_nan. rewrite FloatAxioms.eqb_spec, negb_false_iff. apply SFeqb_refl_iff.
Qed.

Lemma leb_trans (a b c : float) :
  PrimFloat.leb a b = true -> PrimFloat.leb b c = true ->
  PrimFloat.leb a c = true.
Proof. rewrite !FloatAxioms.leb_spec. apply SFleb_trans. Qed.

Lemma leb_total (a b : float) :
  is_nan a = false -> is_nan b = false ->
  PrimFloat.leb a b = false -> PrimFloat.ltb b a = true.
Proof. rewrite !is_nan_spec, FloatAxioms.leb_spec, FloatAxioms.ltb_spec. apply SFleb_total. Qed.

Lemma ltb_leb (a b : float) :
  PrimFloat.ltb a b = true -> PrimFloat.leb a b = true.
Proof. rewrite FloatAxioms.leb_spec, FloatAxioms.ltb_spec. apply SFltb_leb. Qed.

Lemma ltb_not_leb (a b : float) :
  PrimFloat.ltb a b = true -> PrimFloat.leb b a = false.
Proof. rewrite FloatAxioms.leb_spec, FloatAxioms.ltb_spec. apply SFltb_not_leb. Qed.

Lemma leb_opp (a b : float) :
  PrimFloat.leb (PrimFloat.opp a) (PrimFloat.opp b) = PrimFloat.leb b a.
Proof. rewrite !FloatAxioms.leb_spec, !FloatAxioms.opp_spec. apply SFleb_opp. Qed.

Lemma is_nan_opp (a : float) : is_nan (PrimFloat.opp a) = is_nan a.
Proof.
  destruct (is_nan a) eqn:E.
  - apply not_false_iff_true. intros H. apply is_nan_spec in H.
    apply not_false_iff_true in E. apply E, is_nan_spec.
    intros N. apply H. rewrite FloatAxioms.opp_spec, N. reflexivity.
  - apply is_nan_spec. apply is_nan_spec in E. rewrite FloatAxioms.opp_spec.
    destruct (Prim2SF a); simpl; congruence.
Qed.

Lemma leb_not_nan (a b : float) :
  PrimFloat.leb a b = true -> is_nan a = false /\ is_nan b = false.
Proof.
  rewrite FloatAxioms.leb_spec. unfold SFleb. intros H.
  split; apply is_nan_spec; intros N; rewrite N in H;
    try discriminate H.
  destruct (Prim2SF a); discriminate H.
Qed.

Lemma leb_refl (a : float) : is_nan a = false -> PrimFloat.leb a a = true.
Proof.
  intros H. destruct (PrimFloat.leb a a) eqn:E; [reflexivity|].
  pose proof (ltb_leb _ _ (leb_total _ _ H H E)) as L. congruence.
Qed.

Lemma nan_to_num_not_nan (x : float) : is_nan (nan_to_num x) = false.
Proof.
  unfold nan_to_num. destruct (is_nan x) eqn:E; [reflexivity|].
  destruct (PrimFloat.eqb x pos_inf); [reflexivity|].
  destruct (PrimFloat.eqb x neg_inf); [reflexivity|]. exact E.
Qed.

Lemma SFleb_ltb_trans (a b c : spec_float) :
  SFleb a b = true -> SFltb b c = true -> SFltb a c = true.
Proof.
  unfold SFleb, SFltb. float_shapes a; float_shapes b; float_shapes c;
    simpl; try reflexivity; try discriminate; intros H1 H2; cmp_cases.
Qed.

Lemma SFltb_leb_trans (a b c : spec_float) :
  SFltb a b = true -> SFleb b c = true -> SFltb a c = true.
Proof.
  unfold SFleb, SFltb. float_shapes a; float_shapes b; float_shapes c;
    simpl; try reflexivity; try discriminate; intros H1 H2; cmp_cases.
Qed.

Lemma leb_ltb_trans (a b c : float) :
  PrimFloat.leb a b = true -> PrimFloat.ltb b c = true ->
  PrimFloat.ltb a c = true.
Proof. rewrite FloatAxioms.leb_spec, !FloatAxioms.ltb_spec. apply SFleb_ltb_trans. Qed.

Lemma ltb_leb_trans (a b c : float) :
  PrimFloat.ltb a b = true -> PrimFloat.leb b c = true ->
  PrimFloat.ltb a c = true.
Proof. rewrite FloatAxioms.leb_spec, !FloatAxioms.ltb_spec. apply SFltb_leb_trans. Qed.

Lemma ltb_irrefl (a : float) : PrimFloat.ltb a a = false.
Proof.
  destruct (PrimFloat.ltb a a) eqn:E; [|reflexivity].
  pose proof (ltb_not_leb _ _ E). pose proof (ltb_leb _ _ E). congruence.
Qed.

(** ** Sequences and index arrays *)

Section Sequences.
Local Open Scope nat_scope.
Context {A B : Type}.

Lemma rmap_ok (f : A -> result B) (g : A -> B) (l : list A) :
  Forall (fun a => f a = Ok (g a)) l -> rmap f l = Ok (map g l).
Proof.
  induction 1 as [|a l Ha _ IH]; simpl; [reflexivity|].
  rewrite Ha. simpl. rewrite IH. reflexivity.
Qed.

Lemma pick_cons (l : list A) (i : nat) (idx : list nat) (a : A) :
  nth_error l i = Some a -> pick l (i :: idx) = a :: pick l idx.
Proof. intros H. unfold pick. simpl. rewrite H. reflexivity. Qed.

Lemma take_indices_ok (l : list A) (idx : list nat) :
  Forall (fun i => i < length l) idx -> take_indices l idx = Ok (pick l idx).
Proof.
  induction 1 as [|i idx Hi _ IH]; [reflexivity|].
  destruct (nth_error l i) as [a|] eqn:E.
  - rewrite (pick_cons _ _ _ _ E). unfold take_indices in *.
    cbn [rmap]. unfold getitem at 1. rewrite E. cbn [rbind].
    rewrite IH. reflexivity.
  - apply nth_error_None in E. lia.
Qed.

Lemma pick_length (l : list A) (idx : list nat) :
  Forall (fun i => i < length l) idx -> length (pick l idx) = length idx.
Proof.
  induction 1 as [|i idx Hi _ IH]; [reflexivity|].
  destruct (nth_error l i) as [a|] eqn:E.
  - rewrite (pick_cons _ _ _ _ E). simpl. congruence.
  - apply nth_error_None in E. lia.
Qed.

Lemma pick_firstn (l : list A) (idx : list nat) (n : nat) :
  Forall (fun i => i < length l) idx ->
  pick l (firstn n idx) = firstn n (pick l idx).
Proof.
  intros H. revert n. induction H as [|i idx Hi _ IH]; intros n.
  - rewrite !firstn_nil. reflexivity.
  - destruct (nth_error l i) as [a|] eqn:E.
    + destruct n; [reflexivity|]. simpl firstn at 1.
      rewrite !(pick_cons _ _ _ _ E). simpl. rewrite IH. reflexivity.
    + apply nth_error_None in E. lia.
Qed.

Lemma pick_map (f : A -> B) (l : list A) (idx : list nat) :
  pick (map f l) idx = map f (pick l idx).
Proof.
  induction idx as [|i idx IH]; [reflexivity|].
  unfold pick in *. simpl. rewrite map_app, IH, nth_error_map.
  destruct (nth_error l i); reflexivity.
Qed.

Lemma pick_nth (d : A) (l : list A) (idx : list nat) :
  Forall (fun i => i < length l) idx ->
  pick l idx = map (fun i => nth i l d) idx.
Proof.
  induction 1 as [|i idx Hi _ IH]; [reflexivity|].
  rewrite (pick_cons _ _ _ (nth i l d)).
  - simpl. congruence.
  - apply nth_error_nth'. exact Hi.
Qed.

Lemma pick_in (l : list A) (idx : list nat) (a : A) :
  In a (pick l idx) -> In a l.
Proof.
  unfold pick. rewrite in_flat_map. intros (i & _ & H).
  destruct (nth_error l i) as [b|] eqn:E; [|contradiction].
  destruct H as [<-|[]]. eapply nth_error_In, E.
Qed.

Lemma select_rows_map (f : A -> B) (l : list A) (mask : list bool) :
  select_rows (map f l) mask = map f (select_rows l mask).
Proof.
  revert mask. induction l as [|a l IH]; intros [|b mask]; simpl;
    try reflexivity.
  destruct b; simpl; rewrite IH; reflexivity.
Qed.

Lemma select_rows_in (l : list A) (mask : list bool) (a : A) :
  In a (select_rows l mask) -> In a l.
Proof.
  revert mask. induction l as [|x l IH]; intros [|b mask]; simpl; try tauto.
  destruct b; simpl; intros H; [destruct H|]; eauto.
Qed.

Lemma where_from_nth (mask : list bool) (l : list A) (o j : nat) :
  length l = length mask -> j < length (select_rows l mask) ->
  exists p, nth_error (where_from o mask) j = Some (o + p) /\
            p < length l /\
            nth_error l p = nth_error (select_rows l mask) j.
Proof.
  revert l o j. induction mask as [|b mask IH]; intros [|a l] o j;
    simpl; try discriminate; try lia.
  intros Hl Hj. injection Hl as Hl. destruct b.
  - destruct j as [|j].
    + exists 0. simpl. split; [f_equal; lia|]. split; [lia|reflexivity].
    + simpl in Hj. destruct (IH l (S o) j Hl) as (p & H1 & H2 & H3); [lia|].
      exists (S p). simpl. rewrite H1. split; [f_equal; lia|].
      split; [lia|exact H3].
  - destruct (IH l (S o) j Hl Hj) as (p & H1 & H2 & H3).
    exists (S p). simpl. rewrite H1. split; [f_equal; lia|].
    split; [lia|exact H3].
Qed.

Lemma where_length (mask : list bool) (l : list A) (o : nat) :
  length l = length mask ->
  length (where_from o mask) = length (select_rows l mask).
Proof.
  revert l o. induction mask as [|b mask IH]; intros [|a l] o;
    simpl; try discriminate; try reflexivity.
  intros H. injection H as H. destruct b; simpl; auto.
Qed.

End Sequences.

Lemma pick_where {A} (l : list A) (mask : list bool) (idx : list nat) :
  length l = length mask ->
  Forall (fun j => (j < length (select_rows l mask))%nat) idx ->
  Forall (fun p => (p < length l)%nat) (pick (np_where mask) idx) /\
  pick l (pick (np_where mask) idx) = pick (select_rows l mask) idx.
Proof.
  intros Hl. induction 1 as [|j idx Hj _ [IH1 IH2]]; [split; [constructor|reflexivity]|].
  destruct (where_from_nth mask l 0%nat j Hl Hj) as (p & H1 & H2 & H3).
  unfold np_where in *. simpl in H1. rewrite (pick_cons _ _ _ _ H1). split.
  - constructor; assumption.
  - destruct (nth_error (select_rows l mask) j) as [a|] eqn:E.
    + rewrite (pick_cons _ _ _ _ E).
      rewrite (pick_cons l p _ a) by congruence.
      f_equal. exact IH2.
    + apply nth_error_None in E. lia.
Qed.

Lemma pick_seq (n : nat) (idx : list nat) :
  Forall (fun i => (i < n)%nat) idx -> pick (seq 0 n) idx = idx.
Proof.
  induction 1 as [|i idx Hi _ IH]; [reflexivity|].
  rewrite (pick_cons _ _ _ i); [congruence|].
  rewrite nth_error_nth' with (d := 0%nat) by (rewrite length_seq; exact Hi).
  rewrite seq_nth by exact Hi. reflexivity.
Qed.

(** ** [cosine_similarity] of one query row *)

Lemma combine_map_map {A} (op : float -> float -> float) (f g : A -> float)
    (l : list A) :
  map (fun p => op (fst p) (snd p)) (combine (map f l) (map g l))
  = map (fun x => op (f x) (g x)) l.
Proof. induction l as [|a l IH]; simpl; congruence. Qed.

Lemma matmul_T_query (q : vector) (b : matrix) :
  Forall (fun r => length r = length q) b ->
  matmul_T [q] b = Ok [map (dot q) b].
Proof.
  intros Hd. unfold matmul_T. cbn [forallb map]. rewrite andb_true_r.
  assert (Hf : forallb (fun rb => Nat.eqb (length q) (length rb)) b = true).
  { apply forallb_forall. intros x Hx. rewrite Forall_forall in Hd.
    apply Nat.eqb_eq. symmetry. apply Hd. apply list_elem_of_In. exact Hx. }
  rewrite Hf. reflexivity.
Qed.

Lemma cosine_similarity_query (q : vector) (b : matrix) :
  b <> [] -> Forall (fun r => length r = length q) b ->
  cosine_similarity [q] b = Ok [map (cosine q) b].
Proof.
  intros Hb Hd. unfold cosine_similarity. simpl linalg_norm_axis1.
  pose proof (matmul_T_query q b Hd) as Hm.
  destruct b as [|r b]; [congruence|]. cbn [linalg_norm_axis1 rbind].
  assert (Hn : broadcast2 PrimFloat.mul [norm q] (map norm (r :: b))
               = Ok (map (fun x => PrimFloat.mul (norm q) (norm x)) (r :: b))).
  { unfold broadcast2. destruct b as [|r' b]; [reflexivity|].
    simpl. rewrite map_map. reflexivity. }
  rewrite Hn. cbn [rbind].
  rewrite Hm. cbn [rbind]. unfold broadcast_div_rows. cbn [rmap].
  unfold broadcast2 at 1. rewrite !length_map, Nat.eqb_refl. cbn [rbind].
  rewrite (combine_map_map PrimFloat.div). reflexivity.
Qed.

(** ** Slices *)

Lemma Forall_slice_to {A} (P : A -> Prop) (k : Z) (l : list A) :
  Forall P l -> Forall P (slice_to k l).
Proof.
  intros H. unfold slice_to. destruct (0 <=? k); apply Forall_take; exact H.
Qed.

Lemma slice_to_pick {A} (l : list A) (k : Z) (idx : list nat) :
  Forall (fun i => (i < length l)%nat) idx ->
  slice_to k (pick l idx) = pick l (slice_to k idx).
Proof.
  intros H. unfold slice_to. rewrite (pick_length _ _ H).
  destruct (0 <=? k); symmetry; apply pick_firstn; exact H.
Qed.

(** ** What the contract of [argsort] gives *)

Lemma argsort_in_range (argsort : list float -> list nat) (keys : list float) :
  argsort_contract argsort -> no_nan keys ->
  Forall (fun i => (i < length keys)%nat) (argsort keys).
Proof.
  intros Hc Hk. destruct (Hc keys Hk) as [Hp _].
  apply List.Forall_forall. intros i Hi.
  apply (Permutation_in _ Hp), in_seq in Hi. lia.
Qed.


Lemma no_nan_neg_scores (q : vector) (ts : list Embeddable) :
  no_nan (map PrimFloat.opp (map (score q) ts)).
Proof.
  unfold no_nan. rewrite map_map. apply List.Forall_forall.
  intros x Hx. apply in_map_iff in Hx. destruct Hx as (t & <- & _).
  rewrite is_nan_opp. apply nan_to_num_not_nan.
Qed.

(** ** [similarity_search] on a store in order *)

Lemma select_rows_nonempty {A} (l : list A) (mask : list bool) :
  length mask = length l -> In true mask -> select_rows l mask <> [].
Proof.
  revert l. induction mask as [|b mask IH]; intros [|a l] Hl Hin;
    simpl in *; try discriminate; try contradiction.
  destruct b; [discriminate|]. destruct Hin as [?|Hin]; [discriminate|].
  apply IH; [congruence|exact Hin].
Qed.

Lemma active_texts_nonempty (d : nat) (s : NumpyVectorStore) :
  store_ok d s -> texts s <> [] -> active_texts s <> [].
Proof.
  intros Hs Hn. unfold active_texts.
  destruct (_texts_filter s) as [mask|] eqn:E; [|exact Hn].
  destruct (ok_filter d s Hs mask E). apply select_rows_nonempty; assumption.
Qed.

Lemma active_texts_dim (d : nat) (s : NumpyVectorStore) :
  store_ok d s -> Forall (fun t => length (embedding t) = d) (active_texts s).
Proof.
  intros Hs. pose proof (ok_dim d s Hs) as Hd. unfold active_texts.
  destruct (_texts_filter s) as [mask|]; [|exact Hd].
  apply List.Forall_forall. intros t Ht. apply select_rows_in in Ht.
  rewrite List.Forall_forall in Hd. apply Hd, Ht.
Qed.

Section SearchRows.
Variable argsort : list float -> list nat.
Hypothesis argsort_ok : argsort_contract argsort.

Lemma ranking_in_range (s : NumpyVectorStore) (q : vector) :
  Forall (fun i => (i < length (active_texts s))%nat) (ranking argsort s q).
Proof.
  unfold ranking.
  pose proof (argsort_in_range argsort _ argsort_ok
                (no_nan_neg_scores q (active_texts s))) as H.
  rewrite !length_map in H. exact H.
Qed.

Lemma search_rows_ok (d : nat) (s : NumpyVectorStore) (q : vector) (k : Z) :
  store_ok d s -> length q = d -> texts s <> [] ->
  search_rows argsort s q k
  = Ok (pick (active_texts s) (slice_to k (ranking argsort s q)),
        pick (map (score q) (active_texts s)) (slice_to k (ranking argsort s q))).
Proof.
  intros Hs Hq Hne.
  pose proof (active_texts_nonempty d s Hs Hne) as Hane.
  pose proof (active_texts_dim d s Hs) as Hadim.
  pose proof (ranking_in_range s q) as Hr.
  unfold search_rows. rewrite (ok_matrix d s Hs).
  assert (Hcos : cosine_similarity [q] (map embedding (active_texts s))
                 = Ok [map (cosine q) (map embedding (active_texts s))]).
  { apply cosine_similarity_query.
    - destruct (active_texts s); [congruence|discriminate].
    - apply List.Forall_forall. intros r Hin. apply in_map_iff in Hin.
      destruct Hin as (t & <- & Ht). rewrite List.Forall_forall in Hadim.
      rewrite (Hadim t Ht). congruence. }
  assert (Hsc : map nan_to_num (map (cosine q) (map embedding (active_texts s)))
                = map (score q) (active_texts s)).
  { rewrite !map_map. reflexivity. }
  unfold active_texts in *.
  destruct (_texts_filter s) as [mask|] eqn:E.
  - destruct (ok_filter d s Hs mask E) as [Hlen _].
    cbn [rbind]. unfold bool_index. rewrite length_map.
    rewrite (proj2 (Nat.eqb_eq _ _)) by congruence.
    cbn [rbind fst snd]. rewrite select_rows_map, Hcos.
    cbn [rbind getitem nth_error]. rewrite Hsc.
    fold (active_texts s) in *. unfold ranking in Hr. unfold active_texts in Hr.
    rewrite E in Hr.
    set (sorted := argsort _) in *.
    destruct (pick_where (texts s) mask sorted (eq_sym Hlen) Hr) as [_ Hw].
    assert (Hr' : Forall (fun j => (j < length (np_where mask))%nat) sorted).
    { unfold np_where. rewrite (where_length mask (texts s) 0%nat (eq_sym Hlen)).
      exact Hr. }
    rewrite (take_indices_ok _ _ Hr'). cbn [rbind].
    rewrite (slice_to_pick _ _ _ Hr').
    pose proof (Forall_slice_to _ k _ Hr) as Hrk.
    destruct (pick_where (texts s) mask (slice_to k sorted) (eq_sym Hlen) Hrk)
      as [Hin Heq].
    rewrite (take_indices_ok _ _ Hin). cbn [rbind]. rewrite Heq.
    rewrite take_indices_ok by (rewrite length_map; exact Hrk).
    cbn [rbind]. unfold ranking, active_texts. rewrite E. reflexivity.
  - cbn [rbind fst snd]. rewrite Hcos. cbn [rbind getitem nth_error].
    rewrite Hsc. unfold ranking in Hr. unfold active_texts in Hr.
    rewrite E in Hr. set (sorted := argsort _) in *.
    rewrite take_indices_ok by (rewrite length_seq; exact Hr).
    cbn [rbind]. rewrite (pick_seq _ _ Hr).
    pose proof (Forall_slice_to _ k _ Hr) as Hrk.
    rewrite (take_indices_ok _ _ Hrk). cbn [rbind].
    rewrite take_indices_ok by (rewrite length_map; exact Hrk).
    cbn [rbind]. unfold ranking, active_texts. rewrite E. reflexivity.
Qed.

End SearchRows.

(** ** One run of [similarity_search] *)

Lemma after_queries_0 (query : string) (w : World) :
  after_queries 0 query w = w.
Proof.
  destruct w as [s [m c r]]. unfold after_queries. simpl.
  rewrite app_nil_r. reflexivity.
Qed.

Lemma similarity_search_run (argsort : list float -> list nat)
    (query : string) (k : Z) (w : World) (q : vector) :
  answers (embedding_model w) query q ->
  similarity_search argsort query k w
  = if Z.min k (Z.of_nat (length (texts (self w)))) =? 0
    then (Ok ([], []), w)
    else (search_rows argsort (self w) q
            (Z.min k (Z.of_nat (length (texts (self w))))),
          after_queries 1 query w).
Proof.
  intros Ha. unfold similarity_search, bind, get_self.
  destruct (Z.min k _ =? 0); [reflexivity|].
  unfold set_mode at 1. cbn [self embedding_model mode calls respond].
  unfold embed_documents. cbn [self embedding_model mode calls respond].
  destruct (Ha (calls (embedding_model w) ++ [SetMode QUERY]) QUERY)
    as [more Hr].
  rewrite Hr. unfold lift at 1. cbn [getitem nth_error].
  unfold set_mode, lift. cbn [self embedding_model mode calls respond].
  f_equal. unfold after_queries, query_calls.
  cbn [repeat concat self embedding_model mode calls respond].
  rewrite app_nil_r, <- !app_assoc. reflexivity.
Qed.

Lemma after_queries_add (n m : nat) (query : string) (w : World) :
  after_queries m query (after_queries n query w)
  = after_queries (n + m) query w.
Proof.
  unfold after_queries. cbn [self embedding_model mode calls respond].
  rewrite repeat_app, concat_app, <- app_assoc.
  destruct n, m; reflexivity.
Qed.

Section SearchRuns.
Variable argsort : list float -> list nat.
Hypothesis argsort_ok : argsort_contract argsort.
Variables (d : nat) (query : string) (q : vector) (k : Z).
Hypothesis q_dim : length q = d.

Lemma similarity_search_ok (w : World) :
  store_ok d (self w) -> answers (embedding_model w) query q ->
  texts (self w) <> [] \/ 0 <= k ->
  similarity_search argsort query k w
  = (Ok (top_k argsort (self w) q k),
     after_queries (embeddings_made (self w) k 1) query w).
Proof.
  intros Hs Ha Hk. rewrite (similarity_search_run _ _ _ _ _ Ha).
  unfold embeddings_made, top_k.
  destruct (Z.min k _ =? 0) eqn:E.
  - rewrite after_queries_0. apply Z.eqb_eq in E. rewrite E.
    reflexivity.
  - assert (Hne : texts (self w) <> []).
    { destruct Hk as [?|Hk]; [assumption|]. intros Hn. rewrite Hn in E.
      simpl in E. apply Z.eqb_neq in E. lia. }
    rewrite (search_rows_ok argsort argsort_ok d _ _ _ Hs q_dim Hne).
    reflexivity.
Qed.

End SearchRuns.

(** ** [np.unique]: distinct values, ascending *)

Lemma insert_unique_in (x y : Z) (l : list Z) :
  In y (insert_unique x l) <-> y = x \/ In y l.
Proof.
  induction l as [|z l IH]; simpl; [intuition congruence|].
  destruct (x <? z) eqn:E1; [simpl; intuition congruence|].
  destruct (x =? z) eqn:E2.
  - apply Z.eqb_eq in E2. subst. simpl. intuition congruence.
  - simpl. rewrite IH. intuition congruence.
Qed.

Lemma np_unique_in (y : Z) (l : list Z) : In y (np_unique l) <-> In y l.
Proof.
  induction l as [|x l IH]; simpl; [tauto|].
  rewrite insert_unique_in, IH. intuition congruence.
Qed.

Lemma insert_unique_sorted (x : Z) (l : list Z) :
  Sorted Z.lt l -> Sorted Z.lt (insert_unique x l).
Proof.
  induction 1 as [|z l Hs IH Hd]; simpl; [repeat constructor|].
  destruct (x <? z) eqn:E1.
  - apply Z.ltb_lt in E1. repeat constructor; assumption.
  - destruct (x =? z) eqn:E2; [constructor; assumption|].
    apply Z.ltb_ge in E1. apply Z.eqb_neq in E2.
    constructor; [exact IH|].
    destruct l as [|z' l]; simpl.
    + constructor. lia.
    + inversion Hd; subst.
      destruct (x <? z'); [constructor; lia|].
      destruct (x =? z'); constructor; lia.
Qed.

Lemma np_unique_sorted (l : list Z) : StronglySorted Z.lt (np_unique l).
Proof.
  apply Sorted_StronglySorted; [intros a b c; apply Z.lt_trans|].
  induction l as [|x l IH]; simpl; [constructor|].
  apply insert_unique_sorted, IH.
Qed.

(** ** [zip_longest], [chain] and the [None] filter interleave round-robin *)

Lemma chain_not_none_cons {A} (t : list (option A)) (ts : list (list (option A))) :
  chain_not_none (t :: ts) = chain_not_none [t] ++ chain_not_none ts.
Proof.
  unfold chain_not_none. simpl. rewrite app_nil_r. apply flat_map_app.
Qed.

Lemma chain_not_none_heads {A} (ls : list (list A)) :
  chain_not_none [map (fun l => nth_error l 0) ls] = heads ls.
Proof.
  unfold chain_not_none, heads. simpl. rewrite app_nil_r.
  induction ls as [|l ls IH]; [reflexivity|].
  simpl. rewrite IH. destruct l; reflexivity.
Qed.

Lemma zip_rounds {A} (rounds : nat) (ls : list (list A)) :
  chain_not_none
    (map (fun i => map (fun l => nth_error l i) ls) (seq 0 rounds))
  = round_robin_rounds rounds ls.
Proof.
  revert ls. induction rounds as [|r IH]; intros ls; [reflexivity|].
  cbn [seq map round_robin_rounds].
  rewrite chain_not_none_cons, chain_not_none_heads. f_equal.
  rewrite <- IH, <- seq_shift, map_map. f_equal.
  apply map_ext. intros i. rewrite map_map. apply map_ext.
  intros l. destruct l; [destruct i|]; reflexivity.
Qed.

Lemma chain_zip_longest {A} (ls : list (list A)) :
  chain_not_none (zip_longest ls) = round_robin ls.
Proof. apply zip_rounds. Qed.

(** ** Insertion sorts keep the contract of [argsort] *)

Section InsertionSort.
Variable before : float -> float -> bool.
Hypothesis before_le :
  forall a b, before a b = true -> PrimFloat.leb a b = true.
Hypothesis before_total :
  forall a b, is_nan a = false -> is_nan b = false ->
              before a b = false -> PrimFloat.leb b a = true.
Variable keys : list float.
Hypothesis keys_no_nan : no_nan keys.

Lemma key_not_nan (i : nat) :
  (i < length keys)%nat -> is_nan (nth i keys 0%float) = false.
Proof.
  intros Hi. unfold no_nan in keys_no_nan.
  rewrite List.Forall_forall in keys_no_nan.
  apply keys_no_nan, nth_In, Hi.
Qed.

Lemma insert_index_perm (i : nat) (l : list nat) :
  Permutation (insert_index before keys i l) (i :: l).
Proof.
  induction l as [|j l IH]; simpl; [reflexivity|].
  destruct (before _ _); [reflexivity|].
  rewrite IH. apply perm_swap.
Qed.

Lemma insert_index_sorted (i : nat) (l : list nat) :
  (i < length keys)%nat -> Forall (fun j => (j < length keys)%nat) l ->
  StronglySorted (key_le keys) l ->
  StronglySorted (key_le keys) (insert_index before keys i l).
Proof.
  intros Hi Hl Hs. induction Hs as [|j l Hs IH Hj]; simpl.
  - repeat constructor.
  - inversion Hl as [|? ? Hjr Hlr]; subst.
    destruct (before _ _) eqn:E.
    + apply before_le in E. constructor; [constructor; assumption|].
      constructor; [exact E|].
      rewrite List.Forall_forall in Hj |- *. intros x Hx.
      unfold key_le in *. eapply leb_trans; [exact E|apply Hj, Hx].
    + apply before_total in E; try (apply key_not_nan; assumption).
      constructor; [apply IH, Hlr|].
      rewrite List.Forall_forall in Hj |- *. intros x Hx.
      apply (Permutation_in _ (insert_index_perm i l)) in Hx.
      destruct Hx as [<-|Hx]; [exact E|apply Hj, Hx].
Qed.

Lemma insert_all (idx acc : list nat) :
  Forall (fun j => (j < length keys)%nat) idx ->
  Forall (fun j => (j < length keys)%nat) acc ->
  StronglySorted (key_le keys) acc ->
  let out := fold_left (fun sorted i => insert_index before keys i sorted)
                       idx acc in
  Permutation out (acc ++ idx) /\ StronglySorted (key_le keys) out.
Proof.
  intros Hidx. revert acc. induction Hidx as [|i idx Hi _ IH]; intros acc Ha Hs.
  - simpl. rewrite app_nil_r. split; [reflexivity|exact Hs].
  - cbn [fold_left].
    destruct (IH (insert_index before keys i acc)) as [Hp Hs'].
    + apply List.Forall_forall. intros x Hx.
      apply (Permutation_in _ (insert_index_perm i acc)) in Hx.
      rewrite List.Forall_forall in Ha. destruct Hx as [<-|Hx]; auto.
    + apply insert_index_sorted; assumption.
    + split; [|exact Hs'].
      rewrite Hp, insert_index_perm. apply Permutation_middle.
Qed.

Lemma insertion_argsort_keys :
  Permutation (insertion_argsort before keys) (seq 0 (length keys)) /\
  StronglySorted (key_le keys) (insertion_argsort before keys).
Proof.
  apply (insert_all (seq 0 (length keys)) []).
  - apply List.Forall_forall. intros x Hx. apply in_seq in Hx. lia.
  - constructor.
  - constructor.
Qed.

End InsertionSort.

Lemma stable_argsort_contract : argsort_contract stable_argsort.
Proof.
  intros keys Hk. apply insertion_argsort_keys; [| |exact Hk].
  - apply ltb_leb.
  - intros a b Ha Hb H. destruct (PrimFloat.leb b a) eqn:E; [reflexivity|].
    pose proof (leb_total _ _ Hb Ha E). congruence.
Qed.

(** ** The partition loop *)

Lemma store_ok_scoped (d : nat) (pfn : Embeddable -> Z) (s : NumpyVectorStore)
    (p : Z) :
  store_ok d s -> In p (map pfn (texts s)) ->
  store_ok d (with_filter s (Some (partition_mask pfn s p))).
Proof.
  intros Hs Hp. constructor; cbn [with_filter _embeddings_matrix texts _texts_filter].
  - apply (ok_matrix d s Hs).
  - apply (ok_dim d s Hs).
  - intros mask [= <-]. unfold partition_mask. rewrite !length_map.
    split; [reflexivity|]. apply in_map_iff. exists p.
    split; [apply Z.eqb_refl|exact Hp].
Qed.

Lemma partition_loop_cons (argsort : list float -> list nat) (p : Z)
    (rest tp : list Z) (query : string) (k : Z) (pfn : Embeddable -> Z)
    (w : World) :
  tp = map pfn (texts (self w)) ->
  partition_loop argsort (p :: rest) tp query k w
  = match similarity_search argsort query k (scoped_world pfn w p) with
    | (Ok r, w') =>
        match partition_loop argsort rest tp query k w' with
        | (Ok rs, w'') => (Ok (fst r :: fst rs, snd r :: snd rs), w'')
        | (Raise e, w'') => (Raise e, w'')
        end
    | (Raise e, w') => (Raise e, w')
    end.
Proof. intros ->. reflexivity. Qed.

Section PartitionLoop.
Variable argsort : list float -> list nat.
Hypothesis argsort_ok : argsort_contract argsort.
Variables (d : nat) (query : string) (q : vector) (k : Z).
Hypothesis q_dim : length q = d.
Variable pfn : Embeddable -> Z.

Lemma partition_loop_run (parts : list Z) : forall (w : World) (tp : list Z),
  tp = map pfn (texts (self w)) ->
  store_ok d (self w) -> answers (embedding_model w) query q ->
  (forall p, In p parts -> In p tp) ->
  exists f,
    partition_loop argsort parts tp query k w
    = (Ok (map (fun p => fst (scoped_search argsort pfn (self w) q k p)) parts,
           map (fun p => snd (scoped_search argsort pfn (self w) q k p)) parts),
       after_queries (embeddings_made (self w) k (length parts)) query
         {| self := with_filter (self w) f;
            embedding_model := embedding_model w |}).
Proof.
  induction parts as [|p rest IH]; intros w tp Htp Hs Ha Hin.
  - exists (_texts_filter (self w)). cbn [partition_loop map length].
    unfold embeddings_made. rewrite Tauto.if_same, after_queries_0.
    destruct w as [[] ?]. reflexivity.
  - assert (Hp : In p (map pfn (texts (self w)))).
    { rewrite <- Htp. apply Hin. left. reflexivity. }
    pose proof (store_ok_scoped d pfn _ p Hs Hp) as Hs1.
    assert (Hne : texts (self (scoped_world pfn w p)) <> []).
    { cbn. intros Hn. rewrite Hn in Hp. exact Hp. }
    pose proof (similarity_search_ok argsort argsort_ok d query q k q_dim
                  (scoped_world pfn w p) Hs1 Ha (or_introl Hne)) as Hrun.
    destruct (IH (after_queries (embeddings_made (self (scoped_world pfn w p)) k 1)
                    query (scoped_world pfn w p)) tp)
      as [f Hrest].
    + exact Htp.
    + exact Hs1.
    + exact Ha.
    + intros p' Hp'. apply Hin. right. exact Hp'.
    + exists f. rewrite (partition_loop_cons _ _ _ _ _ _ pfn _ Htp). cbv zeta. rewrite Hrun, Hrest.
      change (after_queries _ query {| self := with_filter (self (after_queries _ _ _)) f; embedding_model := _ |})
        with (after_queries (embeddings_made (self w) k (length rest)) query
                (after_queries (embeddings_made (self w) k 1) query
                   {| self := with_filter (self w) f;
                      embedding_model := embedding_model w |})).
      rewrite after_queries_add. f_equal.
      unfold embeddings_made. cbn [length].
      destruct (Z.min k _ =? 0); reflexivity.
Qed.
End PartitionLoop.

(** A partitioning function into [Z] returns a key for every text. *)
Lemma rmap_call_key (pfn : Embeddable -> Z) (l : list Embeddable) :
  rmap (fun t => call_key (pfn t)) l = Ok (map pfn l).
Proof. apply rmap_ok, List.Forall_forall. intros t _. reflexivity. Qed.

Section PartitionedRun.
Variable argsort : list float -> list nat.
Hypothesis argsort_ok : argsort_contract argsort.
Variables (d : nat) (query : string) (q : vector) (k : Z).
Hypothesis q_dim : length q = d.
Variable pfn : Embeddable -> Z.

Lemma partitioned_similarity_search_run (w : World) :
  store_ok d (self w) -> answers (embedding_model w) query q ->
  let partitions := np_unique (map pfn (texts (self w))) in
  let found := map (scoped_search argsort pfn (self w) q k) partitions in
  partitioned_similarity_search argsort query k pfn w
  = (Ok (slice_to k (round_robin (map fst found)),
         slice_to k (round_robin (map snd found))),
     after_queries (embeddings_made (self w) k (length partitions)) query
       {| self := with_filter (self w) None;
          embedding_model := embedding_model w |}).
Proof.
  intros Hs Ha partitions found.
  destruct (partition_loop_run argsort argsort_ok d query q k q_dim pfn
              partitions w (map pfn (texts (self w))) eq_refl Hs Ha)
    as [f Hloop].
  { intros p Hp. exact (proj1 (np_unique_in p _) Hp). }
  unfold partitioned_similarity_search, bind at 1, get_self.
  unfold bind at 1, lift at 1. rewrite rmap_call_key.
  unfold bind at 1. fold partitions. rewrite Hloop.
  unfold bind, set_texts_filter, ret. cbn [fst snd].
  rewrite !chain_zip_longest. unfold found. rewrite !map_map.
  reflexivity.
Qed.

End PartitionedRun.

(** ** The concrete stores are in order *)

(** [np.array] takes rows of one length as they are, and nothing else. *)
Lemma np_array_uniform (d : nat) (rows : list vector) :
  Forall (fun r => length r = d) rows -> np_array rows = Ok rows.
Proof.
  intros H. destruct rows as [|r rest]; [reflexivity|].
  inversion H as [|? ? Hr Hrest]; subst. cbn [np_array].
  rewrite (proj2 (forallb_forall _ rest)); [reflexivity|].
  intros r' Hin. apply Nat.eqb_eq.
  exact (proj1 (List.Forall_forall _ _) Hrest r' Hin).
Qed.

Lemma np_array_ok (rows m : list vector) :
  np_array rows = Ok m ->
  m = rows /\ exists d, Forall (fun r => length r = d) rows.
Proof.
  destruct rows as [|r rest]; cbn [np_array].
  - intros [= <-]. split; [reflexivity|]. exists 0%nat. constructor.
  - destruct (forallb (fun r' => Nat.eqb (length r') (length r)) rest) eqn:E;
      [|discriminate].
    intros [= <-].
    split; [reflexivity|]. exists (length r). constructor; [reflexivity|].
    apply List.Forall_forall. intros r' Hin. apply Nat.eqb_eq.
    exact (proj1 (forallb_forall _ rest) E r' Hin).
Qed.

Lemma add_sequence_uniform (hash : Embeddable -> Z) (d : nat)
    (s : NumpyVectorStore) (texts_arg : Iterable Embeddable) :
  Forall (fun t => length (embedding t) = d)
         (texts s ++ second_pass texts_arg) ->
  add_texts_and_embeddings hash s texts_arg
  = (Ok tt,
     {| mmr_lambda := mmr_lambda s;
        texts_hashes :=
          texts_hashes s ∪ list_to_set (map hash (first_pass texts_arg));
        texts := texts s ++ second_pass texts_arg;
        _embeddings_matrix :=
          Some (map embedding (texts s ++ second_pass texts_arg));
        _texts_filter := _texts_filter s |}).
Proof.
  intros H. unfold add_texts_and_embeddings.
  rewrite (np_array_uniform d); [reflexivity|].
  apply Forall_map. exact H.
Qed.

Lemma store_of_ok (d : nat) (lam : float) (ts : list Embeddable) :
  Forall (fun t => length (embedding t) = d) ts ->
  store_ok d (Examples.store_of lam ts).
Proof.
  intros H. unfold Examples.store_of.
  rewrite (add_sequence_uniform _ d) by exact H.
  constructor; [reflexivity|exact H|discriminate].
Qed.

Lemma constant_model_answers (v : vector) (query : string) :
  answers (Examples.constant_model v) query v.
Proof. intros history m. exists []. reflexivity. Qed.

(** ** Searches only read the store *)

Lemma similarity_search_self (argsort : list float -> list nat)
    (query : string) (k : Z) (w : World) :
  self (snd (similarity_search argsort query k w)) = self w.
Proof.
  unfold similarity_search, bind, get_self.
  destruct (Z.min k _ =? 0); [reflexivity|].
  unfold set_mode at 1, embed_documents.
  cbn [self embedding_model mode calls respond].
  destruct (respond _ _ _ _) as [vecs|e]; [|reflexivity].
  unfold lift at 1. destruct (getitem vecs 0); reflexivity.
Qed.

(** ** Sorted index lists *)

Lemma StronglySorted_firstn {A} (R : A -> A -> Prop) (n : nat) (l : list A) :
  StronglySorted R l -> StronglySorted R (firstn n l).
Proof.
  intros H. revert n. induction H as [|a l Hs IH Ha]; intros [|n]; simpl;
    try constructor.
  - apply IH.
  - apply Forall_take. exact Ha.
Qed.

Lemma StronglySorted_slice_to {A} (R : A -> A -> Prop) (k : Z) (l : list A) :
  StronglySorted R l -> StronglySorted R (slice_to k l).
Proof.
  intros H. unfold slice_to. destruct (0 <=? k);
    apply StronglySorted_firstn, H.
Qed.

Lemma StronglySorted_map_in {A B} (R : A -> A -> Prop) (R' : B -> B -> Prop)
    (f : A -> B) (l : list A) :
  (forall x y, In x l -> In y l -> R x y -> R' (f x) (f y)) ->
  StronglySorted R l -> StronglySorted R' (map f l).
Proof.
  intros Hf H. induction H as [|a l Hs IH Ha]; simpl; constructor.
  - apply IH. intros x y Hx Hy. apply Hf; right; assumption.
  - rewrite List.Forall_forall in Ha |- *. intros b Hb.
    apply in_map_iff in Hb. destruct Hb as (y & <- & Hy).
    apply Hf; [left; reflexivity|right; exact Hy|apply Ha, Hy].
Qed.

Lemma ranking_descending (argsort : list float -> list nat)
    (s : NumpyVectorStore) (q : vector) (k : Z) :
  argsort_contract argsort ->
  descending (pick (map (score q) (active_texts s))
                   (slice_to k (ranking argsort s q))).
Proof.
  intros Hc. set (scores := map (score q) (active_texts s)).
  pose proof (no_nan_neg_scores q (active_texts s)) as Hn. fold scores in Hn.
  destruct (Hc _ Hn) as [_ Hs].
  pose proof (argsort_in_range argsort _ Hc Hn) as Hr.
  rewrite length_map in Hr.
  change (argsort (map PrimFloat.opp scores)) with (ranking argsort s q) in *.
  rewrite (pick_nth 0%float) by (apply Forall_slice_to, Hr).
  unfold descending.
  apply (StronglySorted_map_in (key_le (map PrimFloat.opp scores)));
    [|apply StronglySorted_slice_to, Hs].
  pose proof (Forall_slice_to _ k _ Hr) as Hk.
  rewrite List.Forall_forall in Hk.
  intros i j Hi Hj. apply Hk in Hi, Hj. unfold key_le.
  rewrite !(nth_indep _ 0%float (PrimFloat.opp 0%float))
    by (rewrite length_map; assumption).
  rewrite !map_nth, leb_opp. auto.
Qed.

(** ** A partition's mask keeps the partition's texts *)

Lemma select_rows_partition (pfn : Embeddable -> Z) (p : Z)
    (l : list Embeddable) (t : Embeddable) :
  In t (select_rows l (map (Z.eqb p) (map pfn l))) -> pfn t = p.
Proof.
  induction l as [|x l IH]; simpl; [tauto|].
  destruct (Z.eqb p (pfn x)) eqn:E; [|exact IH].
  intros [<-|H]; [symmetry; apply Z.eqb_eq, E|apply IH, H].
Qed.

Lemma scoped_search_members (argsort : list float -> list nat)
    (pfn : Embeddable -> Z) (s : NumpyVectorStore) (q : vector) (k p : Z) :
  Forall (fun t => In t (texts s) /\ pfn t = p)
         (fst (scoped_search argsort pfn s q k p)).
Proof.
  apply List.Forall_forall. intros t Ht. unfold scoped_search, top_k in Ht.
  cbn [fst] in Ht. apply pick_in in Ht.
  unfold active_texts, with_filter, partition_mask in Ht.
  cbn [_texts_filter texts] in Ht. split.
  - eapply select_rows_in, Ht.
  - eapply select_rows_partition, Ht.
Qed.

(** ** The filter during a partitioned search *)

(** The filter while and after the partition loop runs: an exception leaves
    the mask of the partition that was being searched. *)
Lemma partition_loop_filter (argsort : list float -> list nat)
    (query : string) (k : Z) (pfn : Embeddable -> Z) (parts : list Z) :
  forall (w : World) (tp : list Z),
    tp = map pfn (texts (self w)) ->
    let out := partition_loop argsort parts tp query k w in
    texts (self (snd out)) = texts (self w) /\
    match fst out with
    | Ok _ => True
    | Raise _ => exists p, In p parts /\
                           _texts_filter (self (snd out)) = Some (map (Z.eqb p) tp)
    end.
Proof.
  induction parts as [|p rest IH]; intros w tp Htp; [split; exact I || reflexivity|].
  cbv zeta. rewrite (partition_loop_cons _ _ _ _ _ _ pfn _ Htp).
  pose proof (similarity_search_self argsort query k (scoped_world pfn w p))
    as Hself.
  destruct (similarity_search argsort query k (scoped_world pfn w p))
    as [[r|e] w1]; cbn [snd] in Hself.
  - assert (Htp1 : tp = map pfn (texts (self w1))).
    { rewrite Hself. exact Htp. }
    specialize (IH w1 tp Htp1). cbv zeta in IH. destruct IH as [IH1 IH2].
    destruct (partition_loop argsort rest tp query k w1) as [[rs|e] w2];
      cbn [fst snd] in *.
    + split; [rewrite IH1, Hself; reflexivity|exact I].
    + split; [rewrite IH1, Hself; reflexivity|].
      destruct IH2 as (p' & Hp' & Hf). exists p'. split; [right|]; assumption.
  - cbn [fst snd]. rewrite Hself. split; [reflexivity|].
    exists p. split; [left; reflexivity|]. subst tp. reflexivity.
Qed.

(** The method, for any callable: the keys are taken before the loop. *)
Lemma partitioned_similarity_search_any {R : Type} `{Callable R}
    (argsort : list float -> list nat) (query : string) (k : Z)
    (pfn : Embeddable -> R) (w : World) :
  partitioned_similarity_search argsort query k pfn w
  = match rmap (fun t => call_key (pfn t)) (texts (self w)) with
    | Ok keys =>
        match partition_loop argsort (np_unique keys) keys query k w with
        | (Ok rs, w1) =>
            (Ok (slice_to k (chain_not_none (zip_longest (fst rs))),
                 slice_to k (chain_not_none (zip_longest (snd rs)))),
             {| self := with_filter (self w1) None;
                embedding_model := embedding_model w1 |})
        | (Raise e, w1) => (Raise e, w1)
        end
    | Raise e => (Raise e, w)
    end.
Proof.
  unfold partitioned_similarity_search, bind at 1, get_self.
  unfold bind at 1, lift at 1.
  destruct (rmap _ (texts (self w))) as [keys|e]; [|reflexivity].
  unfold bind.
  destruct (partition_loop _ _ _ _ _ _) as [[rs|e] w1]; reflexivity.
Qed.

Lemma partitioned_similarity_search_unfold (argsort : list float -> list nat)
    (query : string) (k : Z) (pfn : Embeddable -> Z) (w : World) :
  partitioned_similarity_search argsort query k pfn w
  = match partition_loop argsort (np_unique (map pfn (texts (self w))))
            (map pfn (texts (self w))) query k w with
    | (Ok rs, w1) =>
        (Ok (slice_to k (chain_not_none (zip_longest (fst rs))),
             slice_to k (chain_not_none (zip_longest (snd rs)))),
         {| self := with_filter (self w1) None;
            embedding_model := embedding_model w1 |})
    | (Raise e, w1) => (Raise e, w1)
    end.
Proof.
  rewrite partitioned_similarity_search_any, rmap_call_key. reflexivity.
Qed.

(** ** Negative and large [k] *)


Lemma slice_to_all {A} (l : list A) (n : nat) :
  (length l <= n)%nat -> slice_to (Z.of_nat n) l = l.
Proof.
  intros H. unfold slice_to. destruct (0 <=? Z.of_nat n) eqn:E.
  - rewrite Nat2Z.id. apply firstn_all2, H.
  - apply Z.leb_gt in E. lia.
Qed.

Lemma active_texts_length (d : nat) (s : NumpyVectorStore) :
  store_ok d s -> (length (active_texts s) <= length (texts s))%nat.
Proof.
  intros Hs. unfold active_texts.
  destruct (_texts_filter s) as [mask|] eqn:E; [|lia].
  destruct (ok_filter d s Hs mask E) as [Hl _]. clear E Hs.
  revert mask Hl. induction (texts s) as [|t ts IH]; intros [|b mask] Hl;
    simpl in *; try lia.
  specialize (IH mask). destruct b; simpl; lia.
Qed.

Lemma top_k_shape (argsort : list float -> list nat) (d : nat)
    (s : NumpyVectorStore) (q : vector) (k : Z) :
  argsort_contract argsort -> store_ok d s ->
  Forall (fun t => length (embedding t) = d) (fst (top_k argsort s q k)) /\
  length (snd (top_k argsort s q k)) = length (fst (top_k argsort s q k)).
Proof.
  intros Hc Hs. unfold top_k. cbn [fst snd]. split.
  - apply List.Forall_forall. intros t Ht. apply pick_in in Ht.
    pose proof (active_texts_dim d s Hs) as Hd.
    rewrite List.Forall_forall in Hd. apply Hd, Ht.
  - pose proof (Forall_slice_to _ (Z.min k (Z.of_nat (length (texts s)))) _
                  (ranking_in_range argsort Hc s q)) as Hr.
    rewrite (pick_length _ _ Hr).
    apply pick_length. rewrite length_map. exact Hr.
Qed.

(** ** Rankings list every active text once *)

Section Permutations.
Local Open Scope nat_scope.

Lemma list_as_map_seq {A} (d : A) (l : list A) :
  l = map (fun i => nth i l d) (seq 0 (length l)).
Proof.
  apply nth_ext with (d := d) (d' := d).
  - rewrite length_map, length_seq. reflexivity.
  - intros i Hi.
    transitivity (nth i (map (fun i => nth i l d) (seq 0 (length l)))
                      ((fun i => nth i l d) 0)).
    + pose proof (map_nth (fun i => nth i l d) (seq 0 (length l)) 0%nat i)
        as Hm.
      cbv beta in Hm. rewrite Hm, seq_nth by exact Hi. reflexivity.
    + apply nth_indep. rewrite length_map, length_seq. exact Hi.
Qed.

Lemma pick_permutation {A} (l : list A) (idx : list nat) :
  Permutation idx (seq 0 (length l)) -> Permutation (pick l idx) l.
Proof.
  intros Hp. destruct l as [|d l'] eqn:E.
  - apply Permutation_sym, Permutation_nil in Hp. subst idx. constructor.
  - rewrite <- E in *.
    assert (Hr : Forall (fun i => (i < length l)%nat) idx).
    { apply List.Forall_forall. intros i Hi.
      apply (Permutation_in _ Hp), in_seq in Hi. lia. }
    rewrite (pick_nth d _ _ Hr).
    eapply Permutation_trans; [apply Permutation_map, Hp|].
    rewrite <- list_as_map_seq. reflexivity.
Qed.

End Permutations.

(** ** The world after a diversified search *)

(** After its search, [max_marginal_relevance_search] touches neither the
    store nor the embedding model. *)
Lemma mmr_world (argsort : list float -> list nat) (query : string)
    (k fetch_k : Z) (partitioning_fn : option (Embeddable -> Z)) (w : World) :
  k <= fetch_k ->
  snd (max_marginal_relevance_search argsort query k fetch_k partitioning_fn w)
  = snd (match partitioning_fn with
         | None => similarity_search argsort query fetch_k
         | Some f => partitioned_similarity_search argsort query fetch_k f
         end w).
Proof.
  intros Hk. unfold max_marginal_relevance_search.
  destruct (fetch_k <? k) eqn:E; [apply Z.ltb_lt in E; lia|].
  unfold bind, get_self.
  destruct partitioning_fn as [f|].
  - destruct (partitioned_similarity_search argsort query fetch_k f w)
      as [[r|e] w1]; [|reflexivity].
    destruct (_ || _); reflexivity.
  - destruct (similarity_search argsort query fetch_k w)
      as [[r|e] w1]; [|reflexivity].
    destruct (_ || _); reflexivity.
Qed.

(** ** The hash set *)

Lemma size_list_to_set_le (l : list Z) :
  (size (list_to_set l : gset Z) <= length l)%nat.
Proof.
  induction l as [|x l IH].
  - rewrite list_to_set_nil, size_empty. reflexivity.
  - rewrite list_to_set_cons, size_union_alt, size_singleton. cbn [length].
    assert (Hsub : list_to_set l ∖ {[x]} ⊆ (list_to_set l : gset Z))
      by set_solver.
    apply subseteq_size in Hsub. lia.
Qed.

(** ** [cosine_similarity] of matrices with equally many rows *)

Lemma matmul_T_ok (d : nat) (a b : matrix) :
  Forall (fun r => length r = d) a -> Forall (fun r => length r = d) b ->
  matmul_T a b = Ok (map (fun ra => map (dot ra) b) a).
Proof.
  intros Ha Hb. unfold matmul_T.
  rewrite (proj2 (forallb_forall _ _)); [reflexivity|].
  intros ra Hra. apply forallb_forall. intros rb Hrb.
  rewrite List.Forall_forall in Ha, Hb. apply Nat.eqb_eq.
  rewrite (Ha ra Hra), (Hb rb Hrb). reflexivity.
Qed.

Lemma cosine_similarity_square (d : nat) (a b : matrix) :
  a <> [] -> length a = length b ->
  Forall (fun r => length r = d) a -> Forall (fun r => length r = d) b ->
  cosine_similarity a b = Ok (pairwise_similarity a b).
Proof.
  intros Hne Hlen Ha Hb. unfold cosine_similarity.
  assert (Hbne : b <> []) by (destruct a, b; try discriminate; congruence).
  destruct a as [|ra a'] eqn:Ea; [congruence|]. rewrite <- Ea in *.
  destruct b as [|rb b'] eqn:Eb; [congruence|]. rewrite <- Eb in *.
  assert (Hna : linalg_norm_axis1 a = Ok (map norm a)) by (subst a; reflexivity).
  assert (Hnb : linalg_norm_axis1 b = Ok (map norm b)) by (subst b; reflexivity).
  rewrite Hna, Hnb. cbn [rbind]. unfold broadcast2 at 1.
  rewrite !length_map, Hlen, Nat.eqb_refl. cbn [rbind].
  rewrite (matmul_T_ok d a b Ha Hb). cbn [rbind].
  unfold broadcast_div_rows, pairwise_similarity.
  rewrite (rmap_ok _ (fun row =>
             map (fun p => PrimFloat.div (fst p) (snd p))
                 (combine row (map (fun p => PrimFloat.mul (fst p) (snd p))
                                   (combine (map norm a) (map norm b)))))).
  - f_equal. rewrite map_map. apply map_ext. intros r.
    clear. revert b. induction a as [|x a IH]; intros [|y b]; simpl;
      try reflexivity.
    f_equal. apply IH.
  - apply List.Forall_forall. intros row Hrow. apply in_map_iff in Hrow.
    destruct Hrow as (r & <- & _). unfold broadcast2.
    rewrite !length_map, length_combine, !length_map, Hlen, Nat.min_id,
      Nat.eqb_refl.
    reflexivity.
Qed.

Lemma pairwise_similarity_shape (a : matrix) :
  length (pairwise_similarity a a) = length a /\
  Forall (fun row => length row = length a) (pairwise_similarity a a).
Proof.
  unfold pairwise_similarity. split; [apply length_map|].
  apply List.Forall_forall. intros row Hrow. apply in_map_iff in Hrow.
  destruct Hrow as (r & <- & _).
  rewrite length_map, length_combine. apply Nat.min_id.
Qed.

(** ** [argmax] finds the first maximum of an array without NaN *)

Section Argmax.
Local Open Scope nat_scope.

Lemma argmax_from_spec (l : list float) : forall (pre : list float) (besti : nat),
  no_nan (pre ++ l) -> first_maximum pre besti ->
  first_maximum (pre ++ l)
    (argmax_from (nth besti pre 0%float) besti (length pre) l).
Proof.
  induction l as [|x l IH]; intros pre besti Hn (Hb & Hle & Hlt).
  - rewrite app_nil_r. simpl. repeat split; assumption.
  - assert (Hbn : is_nan (nth besti pre 0%float) = false).
    { unfold no_nan in Hn. rewrite List.Forall_forall in Hn. apply Hn.
      apply in_or_app. left. apply nth_In, Hb. }
    assert (Hxn : is_nan x = false).
    { unfold no_nan in Hn. rewrite List.Forall_forall in Hn. apply Hn.
      apply in_or_app. right. left. reflexivity. }
    cbn [argmax_from]. rewrite Hbn.
    replace (pre ++ x :: l) with ((pre ++ [x]) ++ l) in *
      by (rewrite <- app_assoc; reflexivity).
    replace (S (length pre)) with (length (pre ++ [x]))
      by (rewrite length_app; simpl; lia).
    destruct (PrimFloat.leb x (nth besti pre 0%float)) eqn:E.
    + replace (nth besti pre 0%float) with (nth besti (pre ++ [x]) 0%float)
        by (apply app_nth1, Hb).
      apply IH; [exact Hn|]. split; [rewrite length_app; simpl; lia|].
      rewrite (app_nth1 _ _ _ Hb). split.
      * intros j Hj. rewrite length_app in Hj. simpl in Hj.
        destruct (Nat.eq_dec j (length pre)) as [->|Hne].
        -- rewrite nth_middle. exact E.
        -- rewrite app_nth1 by lia. apply Hle. lia.
      * intros j Hj. rewrite app_nth1 by lia. apply Hlt, Hj.
    + pose proof (leb_total _ _ Hxn Hbn E) as Hlx.
      pose proof (IH (pre ++ [x]) (length pre) Hn) as IH'.
      rewrite nth_middle in IH'. apply IH'.
      split; [rewrite length_app; simpl; lia|].
      rewrite nth_middle. split.
      * intros j Hj. rewrite length_app in Hj. simpl in Hj.
        destruct (Nat.eq_dec j (length pre)) as [->|Hne].
        -- rewrite nth_middle. apply leb_refl, Hxn.
        -- rewrite app_nth1 by lia. apply ltb_leb.
           eapply leb_ltb_trans; [apply Hle; lia|exact Hlx].
      * intros j Hj. rewrite app_nth1 by lia.
        eapply leb_ltb_trans; [apply Hle; lia|exact Hlx].
Qed.

Lemma argmax_spec (l : list float) :
  l <> [] -> no_nan l -> exists r, argmax l = Ok r /\ first_maximum l r.
Proof.
  intros Hl Hn. destruct l as [|x l]; [congruence|].
  exists (argmax_from x 0 1 l). split; [reflexivity|].
  apply (argmax_from_spec l [x] 0 Hn). repeat split.
  - simpl. lia.
  - intros j Hj. simpl in Hj. replace j with 0 by lia. simpl.
    apply leb_refl. inversion Hn; assumption.
  - lia.
Qed.

End Argmax.

(** ** One pass of the MMR loop, and the loop *)

Section Loop.
Local Open Scope nat_scope.

Lemma broadcast_as_seq {A B} (op : float -> float -> float)
    (f : A -> float) (g : B -> float) (d1 : A) (d2 : B)
    (l1 : list A) (l2 : list B) :
  length l1 = length l2 ->
  map (fun p => op (fst p) (snd p)) (combine (map f l1) (map g l2))
  = map (fun i => op (f (nth i l1 d1)) (g (nth i l2 d2))) (seq 0 (length l1)).
Proof.
  revert l2. induction l1 as [|a l1 IH]; intros [|b l2] H;
    try discriminate; [reflexivity|].
  injection H as H. cbn [map combine length seq fst snd nth].
  f_equal. rewrite <- seq_shift, map_map. apply IH, H.
Qed.

Lemma put_from_map_seq (f : nat -> float) (idx : list nat) (v : float)
    (n o : nat) :
  put_from o idx v (map f (seq o n))
  = map (fun i => if existsb (Nat.eqb i) idx then v else f i) (seq o n).
Proof.
  revert o. induction n as [|n IH]; intros o; [reflexivity|].
  simpl. rewrite IH. reflexivity.
Qed.

Lemma existsb_eqb_in (i : nat) (l : list nat) :
  existsb (Nat.eqb i) l = true <-> In i l.
Proof.
  rewrite existsb_exists. split.
  - intros (x & Hx & E). apply Nat.eqb_eq in E. subst. exact Hx.
  - intros H. exists i. split; [exact H|apply Nat.eqb_refl].
Qed.

Lemma list_remove_spec (x : nat) (l : list nat) :
  In x l -> List.NoDup l ->
  exists l', list_remove x l = Ok l' /\ List.NoDup l' /\
             S (length l') = length l /\
             (forall y, In y l' <-> In y l /\ y <> x).
Proof.
  induction l as [|y l IH]; intros Hin Hnd; [destruct Hin|].
  apply List.NoDup_cons_iff in Hnd. destruct Hnd as [Hy Hnd].
  cbn [list_remove]. destruct (Nat.eqb x y) eqn:E.
  - apply Nat.eqb_eq in E. subst y. exists l.
    split; [reflexivity|]. split; [exact Hnd|]. split; [reflexivity|].
    intros z. simpl. split.
    + intros Hz. split; [right; exact Hz|]. intros ->. contradiction.
    + intros [[->|Hz] Hne]; [congruence|exact Hz].
  - apply Nat.eqb_neq in E. destruct Hin as [->|Hin]; [congruence|].
    destruct (IH Hin Hnd) as (l' & H1 & H2 & H3 & H4).
    exists (y :: l'). rewrite H1. cbn [rbind].
    split; [reflexivity|]. split.
    { apply List.NoDup_cons_iff. split; [|exact H2].
      intros Hy'. apply H4 in Hy'. tauto. }
    split; [simpl; lia|].
    intros z. simpl. rewrite H4. split.
    + intros [->|[Hz Hne]]; [split; [left; reflexivity|congruence]|].
      split; [right; exact Hz|exact Hne].
    + intros [[->|Hz] Hne]; [left; reflexivity|right; split; assumption].
Qed.

Variables (n : nat) (lam : float) (scores : vector) (sim : matrix).
Hypothesis scores_length : length scores = n.
Hypothesis sim_length : length sim = n.
Hypothesis sim_rows : Forall (fun row => length row = n) sim.
Hypothesis usable : scores_usable n lam scores sim.

Lemma mmr_pass_scores (selected : list nat) :
  selected <> [] -> Forall (fun s => s < n) selected ->
  (selected_similarities <-
     rmap (fun row => take_indices row selected) sim ;;
   max_sim_to_selected <- rmap row_max selected_similarities ;;
   mmr_scores <-
     broadcast2 PrimFloat.sub
       (map (PrimFloat.mul lam) scores)
       (map (PrimFloat.mul (PrimFloat.sub 1 lam)) max_sim_to_selected) ;;
   Ok (put selected neg_inf mmr_scores))
  = Ok (map (fun i => if existsb (Nat.eqb i) selected then neg_inf
                      else mmr_score lam scores sim selected i)
            (seq 0 n)).
Proof.
  intros Hne Hsel.
  rewrite (rmap_ok _ (fun row => pick row selected)).
  2:{ rewrite List.Forall_forall in sim_rows |- *. intros row Hrow.
      apply take_indices_ok. rewrite (sim_rows row Hrow). exact Hsel. }
  cbn [rbind].
  rewrite (rmap_ok _ (fun l => match l with [] => 0%float
                               | x :: rest => fold_left np_maximum rest x end)).
  2:{ apply List.Forall_forall. intros l Hl. apply in_map_iff in Hl.
      destruct Hl as (row & <- & Hrow).
      rewrite List.Forall_forall in sim_rows.
      assert (Hlen : length (pick row selected) = length selected).
      { apply pick_length. rewrite (sim_rows row Hrow). exact Hsel. }
      destruct (pick row selected); [|reflexivity].
      destruct selected; [congruence|discriminate]. }
  cbn [rbind]. unfold broadcast2. rewrite !length_map.
  rewrite (proj2 (Nat.eqb_eq _ _))
    by (rewrite scores_length; exact (eq_sym sim_length)).
  cbn [rbind].
  f_equal. unfold put. rewrite !map_map.
  rewrite (broadcast_as_seq PrimFloat.sub _ _ 0%float [])
    by (rewrite scores_length; exact (eq_sym sim_length)).
  rewrite scores_length. apply put_from_map_seq.
Qed.

Lemma mmr_loop_S (todo : nat) (selected remaining : list nat) :
  mmr_loop (S todo) lam scores sim selected remaining
  = (mmr_scores <-
       (selected_similarities <-
          rmap (fun row => take_indices row selected) sim ;;
        max_sim_to_selected <- rmap row_max selected_similarities ;;
        mmr_scores <-
          broadcast2 PrimFloat.sub
            (map (PrimFloat.mul lam) scores)
            (map (PrimFloat.mul (PrimFloat.sub 1 lam)) max_sim_to_selected) ;;
        Ok (put selected neg_inf mmr_scores)) ;;
     max_mmr_index <- argmax mmr_scores ;;
     remaining' <- list_remove max_mmr_index remaining ;;
     mmr_loop todo lam scores sim (selected ++ [max_mmr_index]) remaining').
Proof.
  cbn [mmr_loop].
  destruct (rmap (fun row => take_indices row selected) sim) as [ss|e];
    [|reflexivity].
  cbn [rbind].
  destruct (rmap row_max ss) as [ms|e]; [|reflexivity]. cbn [rbind].
  destruct (broadcast2 _ _ _) as [sc|e]; reflexivity.
Qed.

Lemma masked_scores_nth (selected : list nat) (j : nat) :
  j < n ->
  nth j (map (masked_score lam scores sim selected) (seq 0 n)) 0%float
  = masked_score lam scores sim selected j.
Proof.
  intros Hj.
  transitivity (nth j (map (masked_score lam scores sim selected) (seq 0 n))
                    (masked_score lam scores sim selected 0)).
  - apply nth_indep. rewrite length_map, length_seq. exact Hj.
  - rewrite map_nth, seq_nth by exact Hj. reflexivity.
Qed.

Lemma masked_scores_no_nan (selected : list nat) :
  selected <> [] -> Forall (fun s => s < n) selected ->
  no_nan (map (masked_score lam scores sim selected) (seq 0 n)).
Proof.
  intros Hne Hsel. apply List.Forall_forall. intros x Hx.
  apply in_map_iff in Hx. destruct Hx as (i & <- & Hi).
  apply in_seq in Hi. unfold masked_score.
  destruct (existsb (Nat.eqb i) selected) eqn:E; [reflexivity|].
  assert (Hni : ~ In i selected).
  { intros H. apply existsb_eqb_in in H. congruence. }
  pose proof (usable selected i Hne Hsel ltac:(lia) Hni) as Hu.
  apply ltb_leb, leb_not_nan in Hu. apply Hu.
Qed.

Lemma mmr_loop_greedy (todo : nat) : forall selected remaining,
  selected <> [] -> Forall (fun s => s < n) selected ->
  List.NoDup remaining ->
  (forall j, In j remaining <-> j < n /\ ~ In j selected) ->
  todo <= length remaining ->
  exists picks,
    mmr_loop todo lam scores sim selected remaining = Ok (selected ++ picks) /\
    length picks = todo /\
    greedy_selection n lam scores sim selected picks.
Proof.
  induction todo as [|todo IH]; intros selected remaining Hne Hsel Hnd Hrem Hlen.
  - exists []. rewrite app_nil_r. repeat split.
  - rewrite mmr_loop_S, (mmr_pass_scores selected Hne Hsel). cbn [rbind].
    fold (masked_score lam scores sim selected).
    assert (Hex : exists j0, In j0 remaining).
    { destruct remaining as [|j0 ?]; [simpl in Hlen; lia|].
      exists j0. left. reflexivity. }
    destruct Hex as [j0 Hj0]. apply Hrem in Hj0.
    destruct (argmax_spec (map (masked_score lam scores sim selected) (seq 0 n)))
      as (r & Hr & Hr1 & Hr2 & Hr3).
    { destruct n; [lia|discriminate]. }
    { apply masked_scores_no_nan; assumption. }
    rewrite length_map, length_seq in Hr1, Hr2. rewrite Hr. cbn [rbind].
    assert (Hmask : forall j, ~ In j selected ->
              masked_score lam scores sim selected j = mmr_score lam scores sim selected j).
    { intros j Hj. unfold masked_score.
      destruct (existsb (Nat.eqb j) selected) eqn:E; [|reflexivity].
      apply existsb_eqb_in in E. contradiction. }
    assert (Hrsel : ~ In r selected).
    { intros Hin.
      pose proof (Hr2 j0 (proj1 Hj0)) as Hle.
      rewrite !masked_scores_nth in Hle by (assumption || apply Hj0).
      rewrite (Hmask j0 (proj2 Hj0)) in Hle.
      pose proof (usable selected j0 Hne Hsel (proj1 Hj0) (proj2 Hj0)) as Hu.
      pose proof (ltb_leb_trans _ _ _ Hu Hle) as Hlt.
      unfold masked_score in Hlt.
      rewrite (proj2 (existsb_eqb_in r selected) Hin) in Hlt.
      rewrite ltb_irrefl in Hlt. discriminate. }
    assert (Hchoice : greedy_choice n (mmr_score lam scores sim selected)
                                   selected r).
    { split; [exact Hr1|]. split; [exact Hrsel|]. split.
      - intros j Hj Hjs. pose proof (Hr2 j Hj) as Hle.
        rewrite !masked_scores_nth in Hle by assumption.
        rewrite !Hmask in Hle by assumption. exact Hle.
      - intros j Hj Hjs. pose proof (Hr3 j Hj) as Hlt.
        rewrite !masked_scores_nth in Hlt by lia.
        rewrite !Hmask in Hlt by assumption. exact Hlt. }
    destruct (list_remove_spec r remaining) as (rem' & Hrm & Hnd' & Hl' & Hin').
    { apply Hrem. split; assumption. }
    { exact Hnd. }
    rewrite Hrm. cbn [rbind].
    destruct (IH (selected ++ [r]) rem') as (picks & Hp1 & Hp2 & Hp3).
    + destruct selected; discriminate.
    + apply Forall_app. split; [exact Hsel|]. repeat constructor. exact Hr1.
    + exact Hnd'.
    + intros j. rewrite Hin', Hrem, in_app_iff. simpl.
      intuition congruence.
    + lia.
    + exists (r :: picks). rewrite Hp1, <- app_assoc. simpl.
      split; [reflexivity|]. split; [simpl; lia|].
      split; [exact Hchoice|exact Hp3].
Qed.

End Loop.

Lemma fold_np_maximum_in (rest : list float) : forall x,
  In (fold_left np_maximum rest x) (x :: rest).
Proof.
  induction rest as [|y rest IH]; intros x; [left; reflexivity|].
  cbn [fold_left]. specialize (IH (np_maximum x y)).
  destruct IH as [IH|IH]; [|right; right; exact IH].
  rewrite <- IH. unfold np_maximum.
  destruct (_ || _); [left|right; left]; reflexivity.
Qed.

Lemma scores_usable_check (n : nat) (lam : float) (scores : vector)
    (sim : matrix) :
  length scores = n -> length sim = n ->
  Forall (fun row => length row = n) sim ->
  all_scores_above_neg_inf lam scores sim = true ->
  scores_usable n lam scores sim.
Proof.
  intros Hs Hm Hrows Hall selected i Hne Hsel Hi Hni.
  unfold all_scores_above_neg_inf in Hall.
  rewrite forallb_forall in Hall.
  assert (Hin : In i (seq 0 (length scores))) by (apply in_seq; lia).
  specialize (Hall i Hin). rewrite forallb_forall in Hall.
  unfold mmr_score, max_similarity.
  assert (Hrow : length (nth i sim []) = n).
  { rewrite List.Forall_forall in Hrows. apply Hrows, nth_In.
    rewrite Hm. exact Hi. }
  assert (Hlen : length (pick (nth i sim []) selected) = length selected).
  { apply pick_length. rewrite Hrow. exact Hsel. }
  destruct (pick (nth i sim []) selected) as [|x rest] eqn:E.
  - destruct selected; [congruence|discriminate].
  - apply Hall. apply (pick_in _ selected). rewrite E.
    apply fold_np_maximum_in.
Qed.

Lemma greedy_selection_in_range (n : nat) (lam : float) (scores : vector)
    (sim : matrix) (picks : list nat) : forall selected,
  greedy_selection n lam scores sim selected picks ->
  Forall (fun i => (i < n)%nat) picks.
Proof.
  induction picks as [|i picks IH]; intros selected H; [constructor|].
  destruct H as [(Hi & _) H]. constructor; [exact Hi|]. eapply IH, H.
Qed.

Lemma mmr_select_greedy (d : nat) (lam : float) (k : Z)
    (ts : list Embeddable) (scores : list float) :
  Forall (fun t => length (embedding t) = d) ts ->
  length scores = length ts ->
  1 <= k <= Z.of_nat (length ts) ->
  scores_usable (length ts) lam scores
    (pairwise_similarity (map embedding ts) (map embedding ts)) ->
  exists picks,
    mmr_select lam k ts scores
      = Ok (pick ts (0%nat :: picks), pick scores (0%nat :: picks)) /\
    length picks = Z.to_nat (k - 1) /\
    greedy_selection (length ts) lam scores
      (pairwise_similarity (map embedding ts) (map embedding ts))
      [0%nat] picks.
Proof.
  intros Hd Hs Hk Hu.
  set (sim := pairwise_similarity (map embedding ts) (map embedding ts)) in *.
  destruct (pairwise_similarity_shape (map embedding ts)) as [Hl Hr].
  fold sim in Hl, Hr. rewrite length_map in Hl, Hr.
  assert (Hne : ts <> []) by (intros ->; simpl in Hk; lia).
  assert (Hdm : Forall (fun r => length r = d) (map embedding ts)).
  { apply List.Forall_forall. intros r Hin. apply in_map_iff in Hin.
    destruct Hin as (t & <- & Ht). rewrite List.Forall_forall in Hd.
    apply Hd, Ht. }
  destruct (mmr_loop_greedy (length ts) lam scores sim Hs Hl Hr Hu
              (Z.to_nat (k - 1)) [0%nat] (seq 1 (length ts - 1)))
    as (picks & Hp1 & Hp2 & Hp3).
  - discriminate.
  - repeat constructor. destruct ts; [congruence|simpl; lia].
  - apply seq_NoDup.
  - intros j. rewrite in_seq. simpl. lia.
  - rewrite length_seq. lia.
  - exists picks. split; [|split; assumption].
    unfold mmr_select.
    assert (Hne' : map embedding ts <> [])
      by (destruct ts; [congruence|discriminate]).
    rewrite (cosine_similarity_square d _ _ Hne' eq_refl Hdm Hdm).
    cbn [rbind]. fold sim. rewrite Hp1. cbn [rbind app].
    pose proof (greedy_selection_in_range _ _ _ _ _ _ Hp3) as Hin.
    assert (Hall : Forall (fun i => (i < length ts)%nat) (0%nat :: picks)).
    { constructor; [destruct ts; [congruence|simpl; lia]|exact Hin]. }
    rewrite (take_indices_ok _ _ Hall). cbn [rbind].
    rewrite take_indices_ok by (rewrite Hs; exact Hall). reflexivity.
Qed.

(** ** [str.strip] and [embedding_model_factory] *)

Section StringProperties.
Local Open Scope string_scope.
Local Open Scope nat_scope.


Lemma lstrip_blank s : blank s = true -> lstrip s = "".
Proof.
  induction s as [|c s IH]; [reflexivity|]. simpl.
  intros [Hc Hs]%andb_prop. rewrite Hc. auto.
Qed.

Lemma rstrip_blank s : blank s = true -> rstrip s = "".
Proof.
  induction s as [|c s IH]; [reflexivity|]. simpl.
  intros [Hc Hs]%andb_prop. rewrite (IH Hs), Hc. reflexivity.
Qed.

Lemma rstrip_empty s : rstrip s = "" -> blank s = true.
Proof.
  induction s as [|c s IH]; [reflexivity|]. simpl.
  destruct (rstrip s) eqn:Hr; [|discriminate].
  destruct (isspace c); [|discriminate]. intros _. auto.
Qed.

Lemma lstrip_empty s : lstrip s = "" -> blank s = true.
Proof.
  induction s as [|c s IH]; [reflexivity|]. simpl.
  destruct (isspace c); [auto|discriminate].
Qed.

Lemma strip_empty s : strip s = "" <-> blank s = true.
Proof.
  unfold strip. split.
  - intros H%rstrip_empty. revert H.
    induction s as [|c s IH]; [reflexivity|]. simpl.
    destruct (isspace c) eqn:Hc; [auto|]. simpl. rewrite Hc. discriminate.
  - intros H. rewrite (lstrip_blank s H). reflexivity.
Qed.

Lemma lstrip_app s r :
  lstrip (s ++ r) = if blank s then lstrip r else lstrip s ++ r.
Proof.
  induction s as [|c s IH]; [reflexivity|]. simpl.
  destruct (isspace c); [exact IH|reflexivity].
Qed.

Lemma rstrip_app_blank s r : blank r = true -> rstrip (s ++ r) = rstrip s.
Proof.
  intros Hr. induction s as [|c s IH]; simpl.
  - apply rstrip_blank, Hr.
  - rewrite IH. reflexivity.
Qed.

Lemma strip_pad l s r :
  blank l = true -> blank r = true -> strip (l ++ s ++ r) = strip s.
Proof.
  intros Hl Hr. unfold strip. rewrite lstrip_app, Hl, lstrip_app.
  destruct (blank s) eqn:Hs.
  - rewrite (lstrip_blank r Hr), (lstrip_blank s Hs). reflexivity.
  - apply rstrip_app_blank, Hr.
Qed.

Lemma rstrip_tail c s : rstrip (String c s) = String c s -> rstrip s = s.
Proof.
  simpl. destruct (rstrip s) as [|a r] eqn:Hr.
  - destruct (isspace c); [discriminate|]. intros [= <-]. reflexivity.
  - intros [= <-]. reflexivity.
Qed.

Lemma rstrip_rstrip s : rstrip (rstrip s) = rstrip s.
Proof.
  induction s as [|c s IH]; [reflexivity|]. simpl.
  destruct (rstrip s) as [|a r] eqn:Hr.
  - destruct (isspace c) eqn:Hc; [reflexivity|]. simpl. rewrite Hc. reflexivity.
  - change (rstrip (String c (String a r))) with
      (match rstrip (String a r) with
       | EmptyString => if isspace c then EmptyString else String c EmptyString
       | r0 => String c r0 end).
    rewrite IH. reflexivity.
Qed.

Lemma rstrip_lstrip s : rstrip s = s -> rstrip (lstrip s) = lstrip s.
Proof.
  induction s as [|c s IH]; [reflexivity|]. intros H. simpl.
  destruct (isspace c); [|exact H]. apply IH, (rstrip_tail c), H.
Qed.

Lemma rstrip_slice_from n s : rstrip s = s -> rstrip (slice_from n s) = slice_from n s.
Proof.
  revert s. induction n as [|n IH]; intros s H; [exact H|].
  destruct s as [|c s]; [reflexivity|]. simpl. apply IH, (rstrip_tail c), H.
Qed.

Lemma lstrip_rstrip s : lstrip s = s -> lstrip (rstrip s) = rstrip s.
Proof.
  destruct s as [|c s]; [reflexivity|]. simpl.
  destruct (isspace c) eqn:Hc.
  - intros H. assert (Hl : String.length (lstrip s) <= String.length s).
    { clear. induction s as [|a s IH]; simpl; [lia|]. destruct (isspace a); simpl; lia. }
    rewrite H in Hl. simpl in Hl. lia.
  - intros _. destruct (rstrip s); simpl; rewrite Hc; reflexivity.
Qed.

Lemma lstrip_lstrip s : lstrip (lstrip s) = lstrip s.
Proof.
  induction s as [|c s IH]; [reflexivity|]. simpl.
  destruct (isspace c) eqn:Hc; [exact IH|]. simpl. rewrite Hc. reflexivity.
Qed.

Lemma strip_strip s : strip (strip s) = strip s.
Proof.
  unfold strip. rewrite (lstrip_rstrip (lstrip s)) by apply lstrip_lstrip.
  apply rstrip_rstrip.
Qed.

Lemma rstrip_strip s : rstrip (strip s) = strip s.
Proof. apply rstrip_rstrip. Qed.

(** A string without trailing whitespace that is not empty is not blank. *)
Lemma rstripped_not_blank s : rstrip s = s -> s <> "" -> strip s <> "".
Proof.
  intros H Hne Hs. apply strip_empty, rstrip_blank in Hs. congruence.
Qed.

Lemma length_lstrip s : String.length (lstrip s) <= String.length s.
Proof.
  induction s as [|a s IH]; simpl; [lia|]. destruct (isspace a); simpl; lia.
Qed.

Lemma length_rstrip s : String.length (rstrip s) <= String.length s.
Proof.
  induction s as [|a s IH]; simpl; [lia|].
  destruct (rstrip s); [destruct (isspace a)|]; simpl in *; lia.
Qed.

Lemma length_strip s : String.length (strip s) <= String.length s.
Proof.
  unfold strip. pose proof (length_rstrip (lstrip s)). pose proof (length_lstrip s). lia.
Qed.

Lemma length_slice_from n s :
  String.length (slice_from n s) = String.length s - n.
Proof.
  revert s. induction n as [|n IH]; intros [|c s]; simpl; try lia. apply IH.
Qed.

Lemma startswith_length p s :
  String.prefix p s = true -> String.length p <= String.length s.
Proof.
  revert s. induction p as [|a p IH]; intros s; [simpl; lia|].
  destruct s as [|b s]; simpl; [discriminate|].
  destruct (Ascii.ascii_dec a b); [|discriminate]. intros H%IH. lia.
Qed.

Lemma startswith_app p s : String.prefix p (p ++ s) = true.
Proof.
  induction p as [|a p IH]; simpl; [destruct s; reflexivity|].
  destruct (Ascii.ascii_dec a a); [exact IH|congruence].
Qed.

Lemma slice_from_app p s : slice_from (String.length p) (p ++ s) = s.
Proof. induction p as [|a p IH]; simpl; [reflexivity|exact IH]. Qed.

Section Factory.
Context {K : Type} (kwargs : K).

Lemma factory_calls_eq depth embedding :
  factory_calls depth embedding kwargs =
  let embedding := strip embedding in
  if startswith embedding "hybrid-" then
    let dense_name := slice_from (String.length "hybrid-") embedding in
    if String.eqb dense_name "" then Some (Raise ValueError)
    else
      match depth with
      | O => None
      | S depth' =>
          match factory_calls depth' dense_name kwargs with
          | Some (Ok dense_model) =>
              Some (Ok (HybridEmbeddingModel
                          [dense_model; SparseEmbeddingModel kwargs]))
          | r => r
          end
      end
  else if startswith embedding "st-" then
    let model_name := strip (slice_from (String.length "st-") embedding) in
    if String.eqb model_name "" then Some (Raise ValueError)
    else Some (Ok (SentenceTransformerEmbeddingModel model_name kwargs))
  else if startswith embedding "litellm-" then
    let model_name := strip (slice_from (String.length "litellm-") embedding) in
    if String.eqb model_name "" then Some (Raise ValueError)
    else Some (Ok (LiteLLMEmbeddingModel model_name kwargs))
  else if String.eqb embedding "sparse" then Some (Ok (SparseEmbeddingModel kwargs))
  else Some (Ok (LiteLLMEmbeddingModel embedding kwargs)).
Proof. destruct depth; reflexivity. Qed.

Lemma dense_name_shorter embedding :
  startswith (strip embedding) "hybrid-" = true ->
  String.length (slice_from (String.length "hybrid-") (strip embedding))
  < String.length embedding.
Proof.
  intros H%startswith_length. rewrite length_slice_from.
  pose proof (length_strip embedding). simpl in *. lia.
Qed.

Lemma factory_calls_some depth : forall embedding,
  String.length embedding <= depth ->
  factory_calls depth embedding kwargs <> None.
Proof.
  induction depth as [|depth IH]; intros embedding Hd;
    rewrite factory_calls_eq; cbv zeta;
    destruct (startswith (strip embedding) "hybrid-") eqn:Hh.
  - apply dense_name_shorter in Hh. lia.
  - repeat match goal with |- context [if ?b then _ else _] => destruct b end;
      discriminate.
  - destruct (String.eqb _ ""); [discriminate|].
    apply dense_name_shorter in Hh.
    specialize (IH (slice_from (String.length "hybrid-") (strip embedding))
                  ltac:(lia)).
    destruct (factory_calls depth _ kwargs) as [[m|e]|]; congruence.
  - repeat match goal with |- context [if ?b then _ else _] => destruct b end;
      discriminate.
Qed.

Lemma factory_calls_S depth : forall embedding r,
  factory_calls depth embedding kwargs = Some r ->
  factory_calls (S depth) embedding kwargs = Some r.
Proof.
  induction depth as [|depth IH]; intros embedding r;
    rewrite (factory_calls_eq (S _)), (factory_calls_eq _ embedding); cbv zeta;
    destruct (startswith (strip embedding) "hybrid-"); try (intros H; exact H);
    destruct (String.eqb _ ""); try (intros H; exact H); [discriminate|].
  destruct (factory_calls depth _ kwargs) as [r'|] eqn:Hr; [|destruct r; discriminate].
  rewrite (IH _ _ Hr). intros H; exact H.
Qed.

Lemma factory_calls_mono depth depth' embedding r :
  depth <= depth' ->
  factory_calls depth embedding kwargs = Some r ->
  factory_calls depth' embedding kwargs = Some r.
Proof.
  induction 1 as [|depth' _ IH]; [auto|]. intros H. apply factory_calls_S, IH, H.
Qed.

(** The recursion is over once it has gone as deep as the string is long. *)
Lemma factory_calls_finish depth embedding :
  String.length embedding <= depth ->
  factory_calls depth embedding kwargs
  = Some (embedding_model_factory embedding kwargs).
Proof.
  intros Hd. unfold embedding_model_factory.
  pose proof (factory_calls_some (String.length embedding) embedding (le_n _)) as Hs.
  destruct (factory_calls (String.length embedding) embedding kwargs) as [r|] eqn:Hr;
    [|congruence].
  apply (factory_calls_mono _ _ _ _ Hd Hr).
Qed.

(** The function in terms of itself, as the source has it. *)
Lemma embedding_model_factory_eq embedding :
  embedding_model_factory embedding kwargs =
  let embedding := strip embedding in
  if startswith embedding "hybrid-" then
    let dense_name := slice_from (String.length "hybrid-") embedding in
    if String.eqb dense_name "" then Raise ValueError
    else
      dense_model <- embedding_model_factory dense_name kwargs ;;
      Ok (HybridEmbeddingModel [dense_model; SparseEmbeddingModel kwargs])
  else if startswith embedding "st-" then
    let model_name := strip (slice_from (String.length "st-") embedding) in
    if String.eqb model_name "" then Raise ValueError
    else Ok (SentenceTransformerEmbeddingModel model_name kwargs)
  else if startswith embedding "litellm-" then
    let model_name := strip (slice_from (String.length "litellm-") embedding) in
    if String.eqb model_name "" then Raise ValueError
    else Ok (LiteLLMEmbeddingModel model_name kwargs)
  else if String.eqb embedding "sparse" then Ok (SparseEmbeddingModel kwargs)
  else Ok (LiteLLMEmbeddingModel embedding kwargs).
Proof.
  unfold embedding_model_factory at 1. rewrite factory_calls_eq. cbv zeta.
  destruct (startswith (strip embedding) "hybrid-") eqn:Hh.
  - destruct (String.eqb _ ""); [reflexivity|].
    apply dense_name_shorter in Hh.
    destruct (String.length embedding) as [|n] eqn:Hn; [lia|].
    rewrite (factory_calls_finish n) by lia.
    destruct (embedding_model_factory _ kwargs); reflexivity.
  - repeat match goal with |- context [if ?b then _ else _] => destruct b end;
      reflexivity.
Qed.

End Factory.

Lemma eqb_empty s : String.eqb s "" = false -> s <> "".
Proof. intros H ->. discriminate. Qed.

Lemma rstrip_app_rstripped p s :
  rstrip s = s -> s <> "" -> rstrip (p ++ s) = p ++ s.
Proof.
  intros Hs Hne. induction p as [|c p IH]; [exact Hs|].
  change (String c p ++ s) with (String c (p ++ s)).
  cbn [rstrip]. rewrite IH.
  destruct (p ++ s) eqn:Hp; [|reflexivity].
  destruct p; [change (s = "") in Hp; congruence|discriminate Hp].
Qed.

Lemma strip_rstripped s : strip s = s -> rstrip s = s.
Proof. intros H. rewrite <- H. apply rstrip_strip. Qed.

Lemma embedding_model_factory_pad {K} (l embedding r : string) (kwargs : K) :
  blank l = true -> blank r = true ->
  embedding_model_factory (l ++ embedding ++ r) kwargs
  = embedding_model_factory embedding kwargs.
Proof.
  intros Hl Hr.
  rewrite (embedding_model_factory_eq kwargs (l ++ embedding ++ r)),
    (embedding_model_factory_eq kwargs embedding).
  rewrite strip_pad by assumption. reflexivity.
Qed.

Lemma factory_result_shape {K} (kwargs : K) (n : nat) : forall embedding,
  String.length embedding <= n ->
  match embedding_model_factory embedding kwargs with
  | Ok m => if blank embedding then m = LiteLLMEmbeddingModel "" kwargs
            else well_named kwargs m
  | Raise e => e = ValueError
  end.
Proof.
  induction n as [|n IH]; intros embedding Hn;
    rewrite embedding_model_factory_eq; cbv zeta.
  - destruct embedding; [reflexivity|simpl in Hn; lia].
  - pose proof (strip_empty embedding) as Hb.
    pose proof (strip_strip embedding) as Hss.
    destruct (startswith (strip embedding) "hybrid-") eqn:Hh.
    { destruct (String.eqb _ "") eqn:He; [reflexivity|].
      apply eqb_empty in He.
      pose proof (dense_name_shorter _ Hh) as Hlt.
      pose proof (rstrip_slice_from (String.length "hybrid-") _
                    (rstrip_strip embedding)) as Hr.
      pose proof (rstripped_not_blank _ Hr He) as Hnb.
      specialize (IH (slice_from (String.length "hybrid-") (strip embedding))
                    ltac:(lia)).
      destruct (embedding_model_factory _ kwargs) as [m|e]; [|exact IH].
      cbn [rbind].
      destruct (blank embedding) eqn:Hbe.
      { rewrite (proj2 Hb eq_refl) in Hh. discriminate. }
      destruct (blank (slice_from _ (strip embedding))) eqn:Hbd.
      { apply strip_empty in Hbd. congruence. }
      split; [exact IH|reflexivity]. }
    assert (Hname : forall p,
              String.eqb (strip (slice_from p (strip embedding))) "" = false ->
              strip (slice_from p (strip embedding)) <> "" /\
              strip (strip (slice_from p (strip embedding)))
              = strip (slice_from p (strip embedding)) /\ kwargs = kwargs).
    { intros p He. split; [apply eqb_empty, He|]. split; [apply strip_strip|reflexivity]. }
    assert (Hnb : forall p, startswith (strip embedding) p = true -> p <> "" ->
                            blank embedding = false).
    { intros p Hp Hne. destruct (blank embedding); [|reflexivity].
      rewrite (proj2 Hb eq_refl) in Hp. destruct p; [congruence|discriminate]. }
    destruct (startswith (strip embedding) "st-") eqn:Hst.
    { destruct (String.eqb _ "") eqn:He; [reflexivity|].
      rewrite (Hnb _ Hst) by discriminate. apply Hname, He. }
    destruct (startswith (strip embedding) "litellm-") eqn:Hl.
    { destruct (String.eqb _ "") eqn:He; [reflexivity|].
      rewrite (Hnb _ Hl) by discriminate. apply Hname, He. }
    destruct (String.eqb (strip embedding) "sparse") eqn:Hsp.
    { apply String.eqb_eq in Hsp. destruct (blank embedding); [|reflexivity].
      rewrite (proj2 Hb eq_refl) in Hsp. discriminate. }
    destruct (blank embedding) eqn:Hbe.
    + rewrite (proj2 Hb eq_refl). reflexivity.
    + repeat split; [|exact Hss].
      intros H. apply Hb in H. congruence.
Qed.

Lemma string_app_assoc (a b c : string) : (a ++ b) ++ c = a ++ b ++ c.
Proof.
  induction a as [|x a IH]; [reflexivity|].
  change (String x ((a ++ b) ++ c) = String x (a ++ b ++ c)). congruence.
Qed.

Lemma string_app_nil_r (a : string) : a ++ "" = a.
Proof.
  induction a as [|x a IH]; [reflexivity|].
  change (String x (a ++ "") = String x a). congruence.
Qed.

Lemma strip_prefixed p l name :
  lstrip p = p -> p <> "" -> blank l = true ->
  strip name = name -> name <> "" ->
  strip (p ++ l ++ name) = p ++ l ++ name /\ strip (l ++ name) = name.
Proof.
  intros Hp Hpne Hl Hn Hne. split.
  - unfold strip. rewrite lstrip_app.
    destruct (blank p) eqn:Hbp.
    { apply lstrip_blank in Hbp. congruence. }
    rewrite Hp, <- (string_app_assoc p l name).
    rewrite rstrip_app_rstripped by (auto using strip_rstripped).
    reflexivity.
  - rewrite <- (string_app_nil_r name) at 1.
    rewrite strip_pad by auto. exact Hn.
Qed.

Lemma factory_prefix_dispatch {K} (l name : string) (kwargs : K) :
  blank l = true -> strip name = name -> name <> "" ->
  embedding_model_factory ("st-" ++ l ++ name) kwargs
  = Ok (SentenceTransformerEmbeddingModel name kwargs) /\
  embedding_model_factory ("litellm-" ++ l ++ name) kwargs
  = Ok (LiteLLMEmbeddingModel name kwargs) /\
  embedding_model_factory ("hybrid-" ++ l ++ name) kwargs
  = (dense_model <- embedding_model_factory name kwargs ;;
     Ok (HybridEmbeddingModel [dense_model; SparseEmbeddingModel kwargs])).
Proof.
  intros Hl Hn Hne.
  assert (Hnb : String.eqb name "" = false).
  { apply String.eqb_neq, Hne. }
  assert (Hlne : String.eqb (l ++ name) "" = false).
  { apply String.eqb_neq. destruct l; [exact Hne|discriminate]. }
  split; [|split].
  - rewrite embedding_model_factory_eq. cbv zeta.
    destruct (strip_prefixed "st-" l name eq_refl ltac:(discriminate) Hl Hn Hne)
      as [-> Hs].
    change (startswith ("st-" ++ l ++ name) "hybrid-") with false.
    change (startswith ("st-" ++ l ++ name) "st-") with (String.prefix "" (l ++ name)).
    change (slice_from (String.length "st-") ("st-" ++ l ++ name)) with (l ++ name).
    rewrite Hs, Hnb. destruct (l ++ name); reflexivity.
  - rewrite embedding_model_factory_eq. cbv zeta.
    destruct (strip_prefixed "litellm-" l name eq_refl ltac:(discriminate) Hl Hn Hne)
      as [-> Hs].
    change (startswith ("litellm-" ++ l ++ name) "hybrid-") with false.
    change (startswith ("litellm-" ++ l ++ name) "st-") with false.
    change (startswith ("litellm-" ++ l ++ name) "litellm-")
      with (String.prefix "" (l ++ name)).
    change (slice_from (String.length "litellm-") ("litellm-" ++ l ++ name))
      with (l ++ name).
    rewrite Hs, Hnb. destruct (l ++ name); reflexivity.
  - rewrite embedding_model_factory_eq. cbv zeta.
    destruct (strip_prefixed "hybrid-" l name eq_refl ltac:(discriminate) Hl Hn Hne)
      as [-> Hs].
    change (startswith ("hybrid-" ++ l ++ name) "hybrid-")
      with (String.prefix "" (l ++ name)).
    change (slice_from (String.length "hybrid-") ("hybrid-" ++ l ++ name))
      with (l ++ name).
    rewrite Hlne.
    rewrite <- (embedding_model_factory_pad l name "" kwargs Hl eq_refl).
    rewrite string_app_nil_r.
    destruct (l ++ name); reflexivity.
Qed.

Lemma factory_bare_name {K} (name : string) (kwargs : K) :
  strip name = name ->
  startswith name "hybrid-" = false -> startswith name "st-" = false ->
  startswith name "litellm-" = false -> name <> "sparse" ->
  embedding_model_factory name kwargs = Ok (LiteLLMEmbeddingModel name kwargs).
Proof.
  intros Hn Hh Hs Hl Hsp. rewrite embedding_model_factory_eq. cbv zeta.
  rewrite Hn, Hh, Hs, Hl, (proj2 (String.eqb_neq _ _) Hsp). reflexivity.
Qed.

Lemma factory_missing_name {K} (b : string) (kwargs : K) :
  blank b = true ->
  embedding_model_factory ("hybrid-" ++ b) kwargs = Raise ValueError /\
  embedding_model_factory ("st-" ++ b) kwargs = Raise ValueError /\
  embedding_model_factory ("litellm-" ++ b) kwargs = Raise ValueError.
Proof.
  intros Hb.
  assert (H : forall p, strip (p ++ b) = strip p).
  { intros p. apply (strip_pad "" p b eq_refl Hb). }
  repeat split; rewrite embedding_model_factory_eq; cbv zeta; rewrite H; reflexivity.
Qed.

End StringProperties.

(** ** Stores built by updates *)

Lemma second_pass_first {A} (it : Iterable A) (a : A) :
  In a (second_pass it) -> In a (first_pass it).
Proof. destruct it; [intros H; exact H|intros []]. Qed.

(** What [add_texts_and_embeddings] does to the fields other than the
    matrix, whether it returns or raises. *)
Lemma add_fields (hash : Embeddable -> Z) (s : NumpyVectorStore)
    (texts_arg : Iterable Embeddable) :
  let s' := snd (add_texts_and_embeddings hash s texts_arg) in
  mmr_lambda s' = mmr_lambda s /\
  texts_hashes s'
  = texts_hashes s ∪ list_to_set (map hash (first_pass texts_arg)) /\
  texts s' = texts s ++ second_pass texts_arg /\
  _texts_filter s' = _texts_filter s.
Proof.
  cbv zeta. unfold add_texts_and_embeddings.
  destruct (np_array _); repeat split.
Qed.

(** Its matrix: the embeddings of all texts when it returns, and then they
    have one dimension; the matrix it found when it raises. *)
Lemma add_matrix (hash : Embeddable -> Z) (s : NumpyVectorStore)
    (texts_arg : Iterable Embeddable) :
  let out := add_texts_and_embeddings hash s texts_arg in
  match fst out with
  | Ok _ =>
      _embeddings_matrix (snd out) = Some (map embedding (texts (snd out))) /\
      exists d, Forall (fun t => length (embedding t) = d) (texts (snd out))
  | Raise e =>
      e = ValueError /\ _embeddings_matrix (snd out) = _embeddings_matrix s
  end.
Proof.
  cbv zeta. unfold add_texts_and_embeddings.
  destruct (np_array _) as [m|e] eqn:E; cbn [fst snd texts _embeddings_matrix].
  - apply np_array_ok in E. destruct E as [-> [d Hd]].
    split; [reflexivity|]. exists d.
    apply List.Forall_forall. intros t Ht.
    apply (proj1 (List.Forall_forall _ _) Hd). apply in_map. exact Ht.
  - split; [|reflexivity].
    destruct (map embedding _) as [|r rest]; [discriminate E|].
    cbn [np_array] in E.
    match type of E with (if ?b then _ else _) = _ => destruct b end;
      congruence.
Qed.

Lemma texts_updates (hash : Embeddable -> Z) (us : list update) :
  forall s,
    texts (fold_left (apply_update hash) us s)
    = fold_left (fun acc u => match u with
                              | AddTextsAndEmbeddings texts_arg =>
                                  acc ++ second_pass texts_arg
                              | ClearStore => []
                              end) us (texts s).
Proof.
  induction us as [|u us IH]; intros s; [reflexivity|].
  cbn [fold_left]. rewrite IH. destruct u as [texts_arg|]; [|reflexivity].
  cbn [apply_update].
  rewrite (proj1 (proj2 (proj2 (add_fields hash s texts_arg)))).
  reflexivity.
Qed.

Lemma texts_after_updates (hash : Embeddable -> Z) (lam : float)
    (us : list update) :
  texts (after_updates hash lam us) = kept_texts us.
Proof. apply texts_updates. Qed.

Lemma kept_by_update (hash : Embeddable -> Z) (lam : float)
    (s : NumpyVectorStore) (u : update) :
  kept_by_updates hash lam s -> kept_by_updates hash lam (apply_update hash s u).
Proof.
  intros (Hl & Hf & Hh & Hm). destruct u as [texts_arg|]; cbn [apply_update].
  - destruct (add_fields hash s texts_arg) as (E1 & E2 & E3 & E4).
    pose proof (add_matrix hash s texts_arg) as Hmat. cbv zeta in *.
    split; [congruence|]. split; [congruence|]. split.
    + intros t Ht. rewrite E3 in Ht. rewrite E2.
      apply in_app_or in Ht. destruct Ht as [Ht|Ht].
      * apply elem_of_union_l, Hh, Ht.
      * apply elem_of_union_r, elem_of_list_to_set, list_elem_of_In, in_map.
        apply second_pass_first, Ht.
    + destruct (fst (add_texts_and_embeddings hash s texts_arg)).
      * destruct Hmat as [Hmat _]. intros m Hsome. exists [].
        rewrite Hmat in Hsome. injection Hsome as <-.
        symmetry. apply app_nil_r.
      * destruct Hmat as [_ Hmat]. intros m Hsome. rewrite Hmat in Hsome.
        destruct (Hm m Hsome) as [more Hmore].
        exists (more ++ map embedding (second_pass texts_arg)).
        rewrite E3, map_app, Hmore, app_assoc. reflexivity.
  - split; [exact Hl|]. split; [reflexivity|]. split; [intros t []|].
    intros m H. discriminate H.
Qed.

Lemma kept_by_all_updates (hash : Embeddable -> Z) (lam : float)
    (us : list update) :
  forall s, kept_by_updates hash lam s ->
            kept_by_updates hash lam (fold_left (apply_update hash) us s).
Proof.
  induction us as [|u us IH]; intros s Hs; [exact Hs|].
  cbn [fold_left]. apply IH, kept_by_update, Hs.
Qed.

Lemma in_order_updates (hash : Embeddable -> Z) (us : list update) :
  forall s, _texts_filter s = None -> in_order s -> adds_return hash s us ->
            in_order (fold_left (apply_update hash) us s).
Proof.
  induction us as [|u us IH]; intros s Hf Hs Hr; [exact Hs|].
  cbn [fold_left]. cbn [adds_return] in Hr. destruct Hr as [Hu Hr].
  apply IH; [| |exact Hr].
  - destruct u as [texts_arg|]; [|reflexivity]. cbn [apply_update].
    rewrite (proj2 (proj2 (proj2 (add_fields hash s texts_arg)))). exact Hf.
  - destruct u as [texts_arg|]; cbn [apply_update].
    + pose proof (add_matrix hash s texts_arg) as Hmat. cbv zeta in Hmat.
      rewrite Hu in Hmat. destruct Hmat as [Hm [d Hd]].
      left. exists d. constructor; [exact Hm|exact Hd|].
      intros mask Hmask.
      rewrite (proj2 (proj2 (proj2 (add_fields hash s texts_arg)))) in Hmask.
      congruence.
    + right. split; reflexivity.
Qed.

Lemma hashes_of_sequences (hash : Embeddable -> Z) (us : list update) :
  forall s, batches_are_sequences us ->
            texts_hashes s = list_to_set (map hash (texts s)) ->
            let s' := fold_left (apply_update hash) us s in
            texts_hashes s' = list_to_set (map hash (texts s')).
Proof.
  induction us as [|u us IH]; intros s Hseq Hs; [exact Hs|].
  cbn [fold_left]. inversion Hseq as [|? ? Hu Hrest]; subst.
  apply IH; [exact Hrest|].
  destruct u as [[items|items]|]; [|destruct Hu|reflexivity].
  cbn [apply_update].
  destruct (add_fields hash s (sequence items)) as (_ & E2 & E3 & _).
  cbv zeta in *. rewrite E2, E3, Hs. cbn [first_pass second_pass].
  rewrite map_app, list_to_set_app_L. reflexivity.
Qed.

Lemma contains_in_step (hash : Embeddable -> Z) (s : NumpyVectorStore)
    (t : Embeddable) :
  texts_hashes s = list_to_set (map hash (texts s)) ->
  contains hash s t = true <-> exists t', In t' (texts s) /\ hash t' = hash t.
Proof.
  intros Hh. unfold contains. rewrite bool_decide_eq_true, Hh.
  rewrite elem_of_list_to_set, list_elem_of_In, in_map_iff.
  split; intros (t' & H1 & H2); exists t'; tauto.
Qed.

(** With texts of one dimension the matrix is in step. *)
Lemma uniform_updates (hash : Embeddable -> Z) (d : nat) (us : list update) :
  forall s,
    _texts_filter s = None ->
    (Forall (fun t => length (embedding t) = d) (texts s) -> in_order s) ->
    let s' := fold_left (apply_update hash) us s in
    Forall (fun t => length (embedding t) = d) (texts s') ->
    _texts_filter s' = None /\ in_order s'.
Proof.
  induction us as [|u us IH]; intros s Hf Hs; [cbv zeta; auto|].
  cbn [fold_left]. apply IH.
  - destruct u as [texts_arg|]; [|reflexivity]. cbn [apply_update].
    rewrite (proj2 (proj2 (proj2 (add_fields hash s texts_arg)))). exact Hf.
  - destruct u as [texts_arg|]; cbn [apply_update];
      [|intros _; right; split; reflexivity].
    intros Hd. pose proof Hd as Hd'.
    rewrite (proj1 (proj2 (proj2 (add_fields hash s texts_arg)))) in Hd'.
    rewrite (add_sequence_uniform hash d s texts_arg Hd'). cbn [snd].
    left. exists d. constructor; [reflexivity|exact Hd'|].
    cbn [_texts_filter]. intros mask Hmask. congruence.
Qed.

(** ** Searches change nothing of a store but its filter *)

Lemma corpus_with_filter (s s' : NumpyVectorStore) :
  with_filter s' None = with_filter s None -> corpus s' = corpus s.
Proof. intros H. unfold corpus. injection H as -> -> -> ->. reflexivity. Qed.

Lemma partition_loop_corpus (argsort : list float -> list nat)
    (query : string) (k : Z) (tp parts : list Z) :
  forall w : World,
    let w' := snd (partition_loop argsort parts tp query k w) in
    with_filter (self w') None = with_filter (self w) None.
Proof.
  induction parts as [|p rest IH]; intros w; [reflexivity|].
  cbv zeta. cbn [partition_loop]. unfold bind at 1.
  cbn [set_texts_filter]. unfold bind at 1.
  match goal with |- context [similarity_search argsort query k ?w0] =>
    pose proof (similarity_search_self argsort query k w0) as Hself;
    destruct (similarity_search argsort query k w0) as [[r|e] w1]
  end; cbn [snd self] in Hself.
  - unfold bind at 1. specialize (IH w1). cbv zeta in IH.
    destruct (partition_loop argsort rest tp query k w1) as [[rs|e] w2];
      cbn [snd ret] in *; rewrite IH, Hself; reflexivity.
  - cbn [snd]. rewrite Hself. reflexivity.
Qed.

Lemma partitioned_search_corpus (argsort : list float -> list nat)
    (query : string) (k : Z) (pfn : Embeddable -> Z) (w : World) :
  with_filter
    (self (snd (partitioned_similarity_search argsort query k pfn w))) None
  = with_filter (self w) None.
Proof.
  rewrite partitioned_similarity_search_unfold.
  pose proof (partition_loop_corpus argsort query k
                (map pfn (texts (self w)))
                (np_unique (map pfn (texts (self w)))) w) as H.
  cbv zeta in H.
  destruct (partition_loop _ _ _ _ _ _) as [[rs|e] w1]; cbn [snd self] in *;
    exact H.
Qed.

(** ** Scores *)

Lemma nan_to_num_proper (x : float) : proper_score (nan_to_num x).
Proof.
  split; [apply nan_to_num_not_nan|].
  unfold nan_to_num. destruct (is_nan x) eqn:Hn; [discriminate|].
  destruct (PrimFloat.eqb x pos_inf) eqn:Hp; [discriminate|].
  destruct (PrimFloat.eqb x neg_inf) eqn:Hm; [discriminate|].
  intros ->. discriminate Hp.
Qed.

Lemma rmap_Forall {A B} (P : B -> Prop) (f : A -> result B) (l : list A) :
  (forall a b, In a l -> f a = Ok b -> P b) ->
  forall r, rmap f l = Ok r -> Forall P r.
Proof.
  induction l as [|a l IH]; intros Hf r; cbn [rmap].
  - intros [= <-]. constructor.
  - destruct (f a) as [b|e] eqn:Hb; [|discriminate]. cbn [rbind].
    destruct (rmap f l) as [bs|e] eqn:Hbs; [|discriminate]. cbn [rbind].
    intros [= <-]. constructor.
    + apply (Hf a b); [left; reflexivity|exact Hb].
    + apply IH; [|reflexivity]. intros a' b' Ha'. apply Hf. right. exact Ha'.
Qed.

Lemma take_indices_Forall {A} (P : A -> Prop) (l : list A) (idx : list nat)
    (r : list A) :
  Forall P l -> take_indices l idx = Ok r -> Forall P r.
Proof.
  intros Hl. apply rmap_Forall. intros i a _. unfold getitem.
  destruct (nth_error l i) as [x|] eqn:Hx; [|discriminate]. intros [= <-].
  apply nth_error_In in Hx. revert Hx. apply List.Forall_forall, Hl.
Qed.

Lemma search_rows_scores (argsort : list float -> list nat)
    (s : NumpyVectorStore) (q : vector) (k : Z) :
  match search_rows argsort s q k with
  | Ok (ts, ss) => Forall proper_score ss
  | Raise _ => True
  end.
Proof.
  unfold search_rows.
  destruct (match _texts_filter s with Some _ => _ | None => _ end)
    as [sel|e]; [|exact I]. cbn [rbind].
  destruct (match snd sel with Some _ => _ | None => _ end) as [m|e];
    [|exact I]. cbn [rbind].
  destruct (cosine_similarity [q] m) as [sims|e]; [|exact I]. cbn [rbind].
  destruct (getitem sims 0) as [row0|e]; [|exact I]. cbn [rbind].
  destruct (take_indices (fst sel) _) as [resolved|e]; [|exact I]. cbn [rbind].
  destruct (take_indices (texts s) _) as [ts|e]; [|exact I]. cbn [rbind].
  destruct (take_indices (map nan_to_num row0) _) as [ss|e] eqn:Hss; [|exact I].
  cbn [rbind]. revert Hss. apply take_indices_Forall.
  apply Forall_map, List.Forall_forall. intros x _. apply nan_to_num_proper.
Qed.

Lemma similarity_search_scores (argsort : list float -> list nat)
    (query : string) (k : Z) (w : World) :
  match fst (similarity_search argsort query k w) with
  | Ok (ts, ss) => Forall proper_score ss
  | Raise _ => True
  end.
Proof.
  unfold similarity_search, bind, get_self.
  destruct (Z.min k _ =? 0); [constructor|].
  unfold set_mode at 1, embed_documents.
  cbn [self embedding_model mode calls respond].
  destruct (respond _ _ _ _) as [vecs|e]; [|exact I].
  unfold lift at 1. destruct (getitem vecs 0) as [v|e]; [|exact I].
  cbn [set_mode lift fst self].
  apply search_rows_scores.
Qed.

(** ** The round-robin merge loses and repeats nothing *)

Lemma max_length_tl {A} (ls : list (list A)) :
  max_length (map (@tl A) ls) = (max_length ls - 1)%nat.
Proof.
  induction ls as [|l ls IH]; [reflexivity|].
  cbn [map max_length fold_right]. fold (max_length (map (@tl A) ls)).
  fold (max_length ls). rewrite IH. destruct l; cbn [tl length]; lia.
Qed.

Lemma max_length_0 {A} (ls : list (list A)) :
  max_length ls = 0%nat -> concat ls = [].
Proof.
  induction ls as [|l ls IH]; [reflexivity|].
  cbn [max_length fold_right concat]. fold (max_length ls). intros H.
  destruct l; [|cbn [length] in H; lia]. apply IH. cbn [length] in H. lia.
Qed.

Lemma heads_tails_perm {A} (ls : list (list A)) :
  Permutation (heads ls ++ concat (map (@tl A) ls)) (concat ls).
Proof.
  induction ls as [|l ls IH]; [constructor|].
  unfold heads in *. cbn [flat_map map concat].
  destruct l as [|x l]; cbn [tl app]; [exact IH|].
  constructor. rewrite Permutation_app_swap_app.
  apply Permutation_app_head, IH.
Qed.

Lemma round_robin_rounds_perm {A} (rounds : nat) : forall ls : list (list A),
  (max_length ls <= rounds)%nat ->
  Permutation (round_robin_rounds rounds ls) (concat ls).
Proof.
  induction rounds as [|r IH]; intros ls Hr; cbn [round_robin_rounds].
  - rewrite max_length_0 by lia. constructor.
  - rewrite <- heads_tails_perm. apply Permutation_app_head, IH.
    rewrite max_length_tl. lia.
Qed.

Lemma round_robin_perm {A} (ls : list (list A)) :
  Permutation (round_robin ls) (concat ls).
Proof. apply round_robin_rounds_perm. reflexivity. Qed.

Lemma round_robin_rounds_map {A B} (f : A -> B) (rounds : nat) :
  forall ls : list (list A),
    round_robin_rounds rounds (map (map f) ls)
    = map f (round_robin_rounds rounds ls).
Proof.
  induction rounds as [|r IH]; intros ls; [reflexivity|].
  cbn [round_robin_rounds]. rewrite map_app, <- IH, !map_map. f_equal.
  - unfold heads. induction ls as [|l ls IHl]; [reflexivity|].
    cbn [map flat_map]. rewrite map_app, IHl. destruct l; reflexivity.
  - f_equal. apply map_ext. intros l. destruct l; reflexivity.
Qed.

Lemma round_robin_map {A B} (f : A -> B) (ls : list (list A)) :
  round_robin (map (map f) ls) = map f (round_robin ls).
Proof.
  unfold round_robin.
  assert (H : max_length (map (map f) ls) = max_length ls).
  { unfold max_length. induction ls as [|l ls IH]; [reflexivity|].
    cbn [map fold_right]. rewrite IH, length_map. reflexivity. }
  rewrite H. apply round_robin_rounds_map.
Qed.

Lemma partition_loop_scores (argsort : list float -> list nat)
    (query : string) (k : Z) (tp parts : list Z) :
  forall w : World,
    match fst (partition_loop argsort parts tp query k w) with
    | Ok rs => Forall (Forall proper_score) (snd rs)
    | Raise _ => True
    end.
Proof.
  induction parts as [|p rest IH]; intros w; [constructor|].
  cbn [partition_loop]. unfold bind at 1.
  cbn [set_texts_filter]. unfold bind at 1.
  match goal with |- context [similarity_search argsort query k ?w0] =>
    pose proof (similarity_search_scores argsort query k w0) as Hs;
    destruct (similarity_search argsort query k w0) as [[r|e] w1]
  end; [|exact I].
  unfold bind at 1. specialize (IH w1).
  destruct (partition_loop argsort rest tp query k w1) as [[rs|e] w2];
    [|exact I].
  cbn [fst snd ret] in *. destruct r as [ts ss]. constructor; assumption.
Qed.

Lemma Forall_round_robin {A} (P : A -> Prop) (ls : list (list A)) :
  Forall (Forall P) ls -> Forall P (round_robin ls).
Proof.
  intros H. rewrite round_robin_perm. apply Forall_concat. exact H.
Qed.

Lemma partitioned_search_scores (argsort : list float -> list nat)
    (query : string) (k : Z) (pfn : Embeddable -> Z) (w : World) :
  match fst (partitioned_similarity_search argsort query k pfn w) with
  | Ok (ts, ss) => Forall proper_score ss
  | Raise _ => True
  end.
Proof.
  rewrite partitioned_similarity_search_unfold.
  pose proof (partition_loop_scores argsort query k
                (map pfn (texts (self w)))
                (np_unique (map pfn (texts (self w)))) w) as H.
  destruct (partition_loop _ _ _ _ _ _) as [[rs|e] w1]; [|exact I].
  cbn [fst] in *. rewrite chain_zip_longest.
  apply Forall_slice_to, Forall_round_robin, H.
Qed.

(** ** A search that returns every active text *)

Lemma ranking_perm (argsort : list float -> list nat) (s : NumpyVectorStore)
    (q : vector) :
  argsort_contract argsort ->
  Permutation (ranking argsort s q) (seq 0 (length (active_texts s))).
Proof.
  intros Hc.
  destruct (Hc _ (no_nan_neg_scores q (active_texts s))) as [Hp _].
  rewrite !length_map in Hp. exact Hp.
Qed.

Lemma top_k_whole (argsort : list float -> list nat) (d : nat)
    (s : NumpyVectorStore) (q : vector) (k : Z) :
  argsort_contract argsort -> store_ok d s ->
  Z.of_nat (length (texts s)) <= k ->
  Permutation (fst (top_k argsort s q k)) (active_texts s) /\
  snd (top_k argsort s q k) = map (score q) (fst (top_k argsort s q k)).
Proof.
  intros Hc Hs Hk. unfold top_k. cbn [fst snd].
  split; [|apply pick_map].
  pose proof (ranking_perm argsort s q Hc) as Hp.
  pose proof (Permutation_length Hp) as Hlen. rewrite length_seq in Hlen.
  pose proof (active_texts_length d s Hs) as Hact.
  replace (Z.min k (Z.of_nat (length (texts s))))
    with (Z.of_nat (length (texts s))) by lia.
  rewrite slice_to_all by lia. apply pick_permutation, Hp.
Qed.

(** ** The partitions cover the store *)

Lemma flat_map_pointwise_perm {A B} (f g : A -> list B) (l : list A) :
  (forall a, In a l -> Permutation (f a) (g a)) ->
  Permutation (flat_map f l) (flat_map g l).
Proof.
  induction l as [|a l IH]; intros H; [constructor|]. cbn [flat_map].
  apply Permutation_app; [apply H; left; reflexivity|].
  apply IH. intros a' Ha'. apply H. right. exact Ha'.
Qed.

Lemma flat_map_cons_at {A} (t : A) (c : Z) (g : Z -> list A) (ps : list Z) :
  List.NoDup ps -> In c ps ->
  Permutation (flat_map (fun p => if p =? c then t :: g p else g p) ps)
              (t :: flat_map g ps).
Proof.
  induction ps as [|p ps IH]; intros Hnd Hin; [destruct Hin|].
  apply List.NoDup_cons_iff in Hnd. destruct Hnd as [Hp Hnd].
  cbn [flat_map]. destruct (Z.eqb_spec p c) as [->|Hne].
  - cbn [app]. constructor. apply Permutation_app_head.
    apply flat_map_pointwise_perm. intros a Ha.
    destruct (Z.eqb_spec a c) as [->|_]; [contradiction|reflexivity].
  - destruct Hin as [Heq|Hin]; [congruence|].
    rewrite (IH Hnd Hin). symmetry. apply Permutation_middle.
Qed.

Lemma partitions_cover (pfn : Embeddable -> Z) (ps : list Z) :
  List.NoDup ps ->
  forall l : list Embeddable,
    (forall t, In t l -> In (pfn t) ps) ->
    Permutation
      (flat_map (fun p => select_rows l (map (Z.eqb p) (map pfn l))) ps) l.
Proof.
  intros Hnd. induction l as [|t l IH]; intros Hin.
  - clear. induction ps as [|p ps IHp]; [constructor|exact IHp].
  - cbn [map select_rows].
    rewrite (flat_map_cons_at t (pfn t)
               (fun p => select_rows l (map (Z.eqb p) (map pfn l))) ps Hnd)
      by (apply Hin; left; reflexivity).
    constructor. apply IH. intros t' Ht'. apply Hin. right. exact Ht'.
Qed.

Lemma StronglySorted_lt_NoDup (l : list Z) :
  StronglySorted Z.lt l -> List.NoDup l.
Proof.
  induction 1 as [|x l Hs IH Hx]; constructor; [|exact IH].
  intros Hin. apply (proj1 (List.Forall_forall _ _) Hx) in Hin. lia.
Qed.

Lemma slice_to_map {A B} (f : A -> B) (k : Z) (l : list A) :
  slice_to k (map f l) = map f (slice_to k l).
Proof. unfold slice_to. rewrite length_map. destruct (0 <=? k); apply firstn_map. Qed.

Lemma concat_map_flat_map {A B} (f : A -> list B) (l : list A) :
  concat (map f l) = flat_map f l.
Proof. symmetry. apply flat_map_concat_map. Qed.

(** ** One partition *)

Lemma np_unique_constant (c : Z) (l : list Z) :
  l <> [] -> (forall x, In x l -> x = c) -> np_unique l = [c].
Proof.
  induction l as [|x l IH]; intros Hne Hc; [congruence|].
  unfold np_unique in *. cbn [fold_right].
  rewrite (Hc x) by (left; reflexivity).
  destruct l as [|y l]; [reflexivity|].
  rewrite IH; [|discriminate|intros z Hz; apply Hc; right; exact Hz].
  cbn [insert_unique]. rewrite Z.ltb_irrefl, Z.eqb_refl. reflexivity.
Qed.

Lemma select_rows_all {A} (key : A -> Z) (c : Z) (l : list A) :
  (forall t, In t l -> key t = c) ->
  select_rows l (map (Z.eqb c) (map key l)) = l.
Proof.
  induction l as [|t l IH]; intros Hc; [reflexivity|].
  cbn [map select_rows]. rewrite (Hc t) by (left; reflexivity).
  rewrite Z.eqb_refl, IH; [reflexivity|].
  intros t' Ht'. apply Hc. right. exact Ht'.
Qed.

Lemma round_robin_rounds_one {A} (l : list A) : forall rounds,
  (length l <= rounds)%nat -> round_robin_rounds rounds [l] = l.
Proof.
  induction l as [|x l IH]; intros rounds Hr.
  - induction rounds as [|r IHr]; [reflexivity|].
    cbn [round_robin_rounds map tl]. unfold heads. cbn [flat_map app].
    apply IHr. cbn [length]. lia.
  - destruct rounds as [|r]; [cbn [length] in Hr; lia|].
    cbn [round_robin_rounds map tl]. unfold heads. cbn [flat_map app].
    rewrite IH; [reflexivity|]. cbn [length] in Hr. lia.
Qed.

Lemma round_robin_one {A} (l : list A) : round_robin [l] = l.
Proof.
  apply round_robin_rounds_one. unfold max_length. cbn [fold_right]. lia.
Qed.

Lemma pick_length_le {A} (l : list A) (idx : list nat) :
  (length (pick l idx) <= length idx)%nat.
Proof.
  unfold pick. induction idx as [|i idx IH]; [reflexivity|].
  cbn [flat_map]. rewrite length_app. destruct (nth_error l i); cbn [length]; lia.
Qed.

Lemma slice_to_short {A} (k : Z) (l : list A) :
  Z.of_nat (length l) <= k -> slice_to k l = l.
Proof.
  intros H. replace k with (Z.of_nat (Z.to_nat k)) by lia.
  apply slice_to_all. lia.
Qed.

Lemma slice_to_length {A} (k : Z) (l : list A) :
  0 <= k -> Z.of_nat (length (slice_to k l)) <= k.
Proof.
  intros H. unfold slice_to. rewrite (proj2 (Z.leb_le 0 k)) by exact H.
  rewrite length_firstn. lia.
Qed.

Lemma pick_nil {A} (idx : list nat) : pick (@nil A) idx = [].
Proof.
  unfold pick. induction idx as [|i idx IH]; [reflexivity|].
  cbn [flat_map]. rewrite IH. destruct i; reflexivity.
Qed.

Lemma slice_to_nil {A} (k : Z) : slice_to k (@nil A) = [].
Proof. unfold slice_to. destruct (0 <=? k); apply firstn_nil. Qed.

Lemma with_filter_same (s : NumpyVectorStore) :
  with_filter s (_texts_filter s) = s.
Proof. destruct s. reflexivity. Qed.

(** ** The best text of every partition *)

Lemma select_rows_member (pfn : Embeddable -> Z) (l : list Embeddable)
    (t : Embeddable) :
  In t l -> In t (select_rows l (map (Z.eqb (pfn t)) (map pfn l))).
Proof.
  induction l as [|x l IH]; intros Hin; [destruct Hin|].
  cbn [map select_rows]. destruct Hin as [->|Hin].
  - rewrite Z.eqb_refl. left. reflexivity.
  - destruct (pfn t =? pfn x); [right|]; apply IH, Hin.
Qed.

Lemma top_k_best (argsort : list float -> list nat) (d : nat)
    (s : NumpyVectorStore) (q : vector) (k : Z) :
  argsort_contract argsort -> store_ok d s ->
  1 <= k -> texts s <> [] ->
  exists best rest,
    fst (top_k argsort s q k) = best :: rest /\
    In best (active_texts s) /\
    forall t, In t (active_texts s) ->
              PrimFloat.leb (score q t) (score q best) = true.
Proof.
  intros Hc Hs Hk Hne.
  pose proof (ranking_perm argsort s q Hc) as Hp.
  pose proof (ranking_in_range argsort Hc s q) as Hr.
  pose proof (active_texts_nonempty d s Hs Hne) as Hact.
  pose proof (ranking_descending argsort s q
                (Z.of_nat (length (ranking argsort s q))) Hc) as Hd.
  rewrite slice_to_all in Hd by reflexivity.
  assert (Hperm : Permutation
                    (pick (map (score q) (active_texts s)) (ranking argsort s q))
                    (map (score q) (active_texts s))).
  { apply pick_permutation. rewrite length_map. exact Hp. }
  destruct (ranking argsort s q) as [|i0 r'] eqn:Er.
  { apply Permutation_nil in Hp.
    destruct (active_texts s); [congruence|discriminate Hp]. }
  inversion Hr as [|? ? Hi0 Hr']; subst.
  destruct (nth_error (active_texts s) i0) as [best|] eqn:Eb;
    [|apply nth_error_None in Eb; lia].
  assert (Es : nth_error (map (score q) (active_texts s)) i0
               = Some (score q best)).
  { rewrite nth_error_map, Eb. reflexivity. }
  rewrite (pick_cons _ _ _ _ Es) in Hd, Hperm.
  exists best.
  assert (Hk' : exists n, Z.to_nat (Z.min k (Z.of_nat (length (texts s)))) = S n).
  { destruct (texts s); [congruence|]. cbn [length].
    exists (Z.to_nat (Z.min k (Z.of_nat (S (length l)))) - 1)%nat. lia. }
  destruct Hk' as [n Hn].
  exists (pick (active_texts s) (firstn n r')). split; [|split].
  - unfold top_k. cbn [fst]. rewrite Er. unfold slice_to.
    rewrite (proj2 (Z.leb_le 0 _)) by lia. rewrite Hn. cbn [firstn].
    apply pick_cons, Eb.
  - apply nth_error_In in Eb. exact Eb.
  - intros t Ht.
    assert (Hin : In (score q t) (score q best ::
                     pick (map (score q) (active_texts s)) r')).
    { apply (Permutation_in _ (Permutation_sym Hperm)), in_map, Ht. }
    destruct Hin as [<-|Hin].
    + apply leb_refl. apply nan_to_num_not_nan.
    + apply StronglySorted_inv in Hd. destruct Hd as [_ Hall].
      exact (proj1 (List.Forall_forall _ _) Hall _ Hin).
Qed.

Lemma heads_in {A} (ls : list (list A)) (x : A) (rest : list A) :
  In (x :: rest) ls -> In x (heads ls).
Proof.
  intros H. unfold heads. apply in_flat_map. exists (x :: rest).
  split; [exact H|left; reflexivity].
Qed.

Lemma heads_length {A} (ls : list (list A)) :
  (length (heads ls) <= length ls)%nat.
Proof.
  unfold heads. induction ls as [|l ls IH]; [reflexivity|].
  cbn [flat_map]. rewrite length_app. destruct l; cbn [length]; lia.
Qed.

Lemma round_robin_heads {A} (ls : list (list A)) (x : A) (k : Z) :
  In x (heads ls) -> Z.of_nat (length ls) <= k ->
  In x (slice_to k (round_robin ls)).
Proof.
  intros Hx Hk. unfold round_robin.
  destruct (max_length ls) as [|r] eqn:Hm.
  { apply max_length_0 in Hm. exfalso. revert Hx Hm. clear.
    unfold heads. induction ls as [|l ls IH]; [intros []|].
    cbn [flat_map concat]. intros Hx Hc. apply app_eq_nil in Hc.
    destruct Hc as [-> Hc]. apply IH; assumption. }
  cbn [round_robin_rounds]. unfold slice_to.
  rewrite (proj2 (Z.leb_le 0 k)) by lia.
  rewrite firstn_app. apply in_or_app. left.
  pose proof (heads_length ls).
  rewrite firstn_all2 by lia. exact Hx.
Qed.

(** ** The Qdrant store *)

(** Runs a method of the Qdrant store down to the answers of its client. *)
Ltac run_store :=
  cbv beta iota zeta delta
    [Qdrant.clear Qdrant.add_texts_and_embeddings Qdrant.qbind Qdrant.qret
     Qdrant.get_self Qdrant.set_self Qdrant.set_texts_hashes
     Qdrant.set_point_ids Qdrant.collection_exists Qdrant.command
     Qdrant.call_client Qdrant.with_request fst snd Qdrant.self
     Qdrant.client Qdrant.requests Qdrant.collection_exists_answer
     Qdrant.command_answer Qdrant.query_points_answer Qdrant.texts_hashes
     Qdrant._point_ids Qdrant.collection_name Qdrant.vector_name
     Qdrant.mmr_lambda Qdrant.embedding_model negb].

Section QdrantProperties.
Import Qdrant.

Lemma omap_map {A B} (f : A -> outcome B) (g : A -> B) (l : list A) :
  (forall a, In a l -> f a = Done (g a)) -> omap f l = Done (map g l).
Proof.
  induction l as [|a l IH]; intros H; [reflexivity|].
  cbn [omap map]. rewrite (H a) by (left; reflexivity).
  rewrite IH; [reflexivity|]. intros a' Ha'. apply H. right. exact Ha'.
Qed.

Lemma text_of_stored (vector_name : option string) (t : Embeddable) (sc : float) :
  text_of_point vector_name
    {| payload := model_dump t;
       point_vector := as_stored vector_name (embedding t);
       score := sc |}
  = Done t.
Proof.
  unfold text_of_point, as_stored. cbn [point_vector payload].
  destruct (named vector_name) as [n|]; cbn [dict_get].
  - rewrite String.eqb_refl. destruct t; reflexivity.
  - destruct t; reflexivity.
Qed.

Lemma text_of_stored_other (written read : option string) (t : Embeddable)
    (sc : float) :
  named written <> named read ->
  exists e,
    text_of_point read
      {| payload := model_dump t;
         point_vector := as_stored written (embedding t);
         score := sc |}
    = Failed e.
Proof.
  unfold text_of_point, as_stored. cbn [point_vector payload].
  destruct (named written) as [n|], (named read) as [m|]; intros H;
    cbn [dict_get]; try (eexists; reflexivity); [|congruence].
  destruct (String.eqb_spec n m) as [->|_]; [congruence|].
  eexists; reflexivity.
Qed.

End QdrantProperties.

(** ** The filter of a partitioned search, for any partitioning function *)

(** One pass of the partition loop, for any keys. *)
Lemma partition_loop_step (argsort : list float -> list nat) (p : Z)
    (rest keys : list Z) (query : string) (k : Z) (w : World) :
  partition_loop argsort (p :: rest) keys query k w
  = match similarity_search argsort query k
            {| self := with_filter (self w) (Some (map (Z.eqb p) keys));
               embedding_model := embedding_model w |} with
    | (Ok r, w') =>
        match partition_loop argsort rest keys query k w' with
        | (Ok rs, w'') => (Ok (fst r :: fst rs, snd r :: snd rs), w'')
        | (Raise e, w'') => (Raise e, w'')
        end
    | (Raise e, w') => (Raise e, w')
    end.
Proof. reflexivity. Qed.

(** The filter while and after the partition loop runs over any keys. *)
Lemma partition_loop_mask (argsort : list float -> list nat)
    (query : string) (k : Z) (keys parts : list Z) :
  forall w : World,
    let out := partition_loop argsort parts keys query k w in
    match fst out with
    | Ok _ => True
    | Raise _ => exists p, In p parts /\
                           _texts_filter (self (snd out))
                           = Some (map (Z.eqb p) keys)
    end.
Proof.
  induction parts as [|p rest IH]; intros w; [exact I|].
  cbv zeta. rewrite partition_loop_step.
  match goal with |- context [similarity_search argsort query k ?w0] =>
    pose proof (similarity_search_self argsort query k w0) as Hself;
    destruct (similarity_search argsort query k w0) as [[r|e] w1]
  end; cbn [snd self] in Hself.
  - specialize (IH w1). cbv zeta in IH.
    destruct (partition_loop argsort rest keys query k w1) as [[rs|e] w2];
      cbn [fst snd] in *; [exact I|].
    destruct IH as (p' & Hp' & Hf). exists p'.
    split; [right; exact Hp'|exact Hf].
  - cbn [fst snd]. exists p. split; [left; reflexivity|].
    rewrite Hself. reflexivity.
Qed.

Lemma rmap_raise {A B} (f : A -> result B) (l : list A) (e : exn) :
  rmap f l = Raise e -> exists a, In a l /\ f a = Raise e.
Proof.
  induction l as [|a l IH]; cbn [rmap]; [discriminate|].
  destruct (f a) as [b|e'] eqn:Ea; cbn [rbind].
  - destruct (rmap f l) as [bs|e''] eqn:El; cbn [rbind]; [discriminate|].
    intros [= ->]. destruct (IH eq_refl) as (a' & Hin & Ha').
    exists a'. split; [right; exact Hin|exact Ha'].
  - intros [= ->]. exists a. split; [left; reflexivity|exact Ea].
Qed.

(** ** The default of the abstract class *)

(** The default [partitioned_similarity_search] of [VectorStore] raises
    [NotImplementedError] and changes nothing. *)
Lemma default_partitioned_search_not_implemented (query : string) (k : Z)
    (partitioning_fn : Embeddable -> Z) (w : World) :
  default_partitioned_similarity_search query k partitioning_fn w
  = (Raise NotImplementedError, w).
Proof. reflexivity. Qed.

(** * The claims *)

Import Examples.
Local Open Scope string_scope.
Local Open Scope Z_scope.

(** C1 (the code departs from it). With [mmr_lambda = 1.0], [k = 1] and
    [fetch_k = 2] on a store of three texts, [max_marginal_relevance_search]
    returns the two texts that [similarity_search] fetched for [fetch_k],
    while [similarity_search] for [k] returns one: the early return hands
    back the fetched candidates without cutting them to [k]. *)
Theorem mmr_lambda_one_returns_fetch_k :
  let w := world_of 1 [east; north; west] in
  fst (max_marginal_relevance_search stable_argsort "q" 1 2 None w)
    = Ok ([east; north], [1; 0]%float) /\
  fst (similarity_search stable_argsort "q" 1 w) = Ok ([east], [1]%float).
Proof. split; vm_compute; reflexivity. Qed.

(** C2 (the code departs from it). For two equal 2-by-2 matrices with rows
    (1, 0) and (2, 0), whose cosines are all 1 (the second and third lines
    give entries (0, 1) and (1, 0) by the formula of the claim),
    [cosine_similarity] returns [[1, 0.5], [2, 1]]: entry (i, j) is divided
    by [norm(A_j) * norm(B_j)].
    For 2 rows against 3 rows it raises [ValueError], and for 2 rows against
    one row it returns a 2-by-2 matrix instead of a 2-by-1 one. *)
Theorem cosine_similarity_broadcast :
  cosine_similarity [[1; 0]; [2; 0]]%float [[1; 0]; [2; 0]]%float
    = Ok [[1; 0.5]; [2; 1]]%float /\
  cosine [1; 0]%float [2; 0]%float = 1%float /\
  cosine [2; 0]%float [1; 0]%float = 1%float /\
  cosine_similarity [[1; 0]; [2; 0]]%float [[1; 0]; [2; 0]; [0; 1]]%float
    = Raise ValueError /\
  cosine_similarity [[1; 0]; [2; 0]]%float [[4; 0]]%float
    = Ok [[1; 0.5]; [2; 1]]%float.
Proof. repeat split; vm_compute; reflexivity. Qed.




(** C4 (the code departs from it). Four candidates in relevance order, the
    last two with a zero embedding (relevance [-inf]), [k = 3],
    [mmr_lambda = 0.5]. The first pass of the loop adds candidate 1. In the
    second pass the score of every candidate is [-inf], [argmax] answers 0,
    a candidate already selected, and [remaining_indices.remove(0)] raises
    [ValueError]; the claim has candidate 2 added, the earliest of those not
    yet selected. *)
Theorem mmr_selects_selected_candidate :
  let candidates := [east; north; zero1; zero2] in
  let scores := [1; 0; neg_inf; neg_inf]%float in
  fst (similarity_search stable_argsort "q" 4 (world_of 0.5 candidates))
    = Ok (candidates, scores) /\
  (exists similarity_matrix,
      cosine_similarity (map embedding candidates) (map embedding candidates)
        = Ok similarity_matrix /\
      mmr_loop 1 0.5 scores similarity_matrix [0%nat] [1; 2; 3]%nat
        = Ok [0; 1]%nat /\
      mmr_loop 2 0.5 scores similarity_matrix [0%nat] [1; 2; 3]%nat
        = Raise ValueError) /\
  fst (max_marginal_relevance_search stable_argsort "q" 3 4 None
         (world_of 0.5 candidates))
    = Raise ValueError.
Proof.
  cbv zeta. split; [vm_compute; reflexivity|]. split.
  - eexists. split; [vm_compute; reflexivity|].
    split; vm_compute; reflexivity.
  - vm_compute. reflexivity.
Qed.

(** C5. On a store in order, with an embedding model that answers the query
    and an [argsort] that keeps NumPy's contract,
    [partitioned_similarity_search] goes through the distinct partition keys
    in ascending order; what it collects for a key is what
    [similarity_search] returns when the key's mask is the filter, texts of
    that partition only, in non-increasing order of score; and it returns
    the round-robin interleaving of the
    collected lists cut by [[:k]]. In particular lists of three and of one
    entries interleave as first, first, second, third. *)
Theorem partitioned_search_round_robin (argsort : list float -> list nat)
    (d : nat) (query : string) (q : vector) (k : Z)
    (partitioning_fn : Embeddable -> Z) (w : World) :
  argsort_contract argsort ->
  store_ok d (self w) -> length q = d ->
  answers (embedding_model w) query q ->
  let partitions := np_unique (map partitioning_fn (texts (self w))) in
  let found :=
    map (scoped_search argsort partitioning_fn (self w) q k) partitions in
  StronglySorted Z.lt partitions /\
  (forall p, In p partitions <->
             exists t, In t (texts (self w)) /\ partitioning_fn t = p) /\
  Forall (fun p =>
            fst (similarity_search argsort query k
                   (scoped_world partitioning_fn w p))
              = Ok (scoped_search argsort partitioning_fn (self w) q k p) /\
            Forall (fun t => In t (texts (self w)) /\ partitioning_fn t = p)
                   (fst (scoped_search argsort partitioning_fn (self w) q k p)) /\
            descending
              (snd (scoped_search argsort partitioning_fn (self w) q k p)))
         partitions /\
  fst (partitioned_similarity_search argsort query k partitioning_fn w)
    = Ok (slice_to k (round_robin (map fst found)),
          slice_to k (round_robin (map snd found))) /\
  (forall (A : Type) (a0 a1 a2 b0 : A),
      slice_to 4 (round_robin [[a0; a1; a2]; [b0]]) = [a0; b0; a1; a2]).
Proof.
  intros Hc Hs Hq Ha partitions found. split; [apply np_unique_sorted|].
  split.
  { intros p. unfold partitions. rewrite np_unique_in, in_map_iff.
    split; intros (t & H1 & H2); exists t; tauto. }
  split.
  { apply List.Forall_forall. intros p Hp. split.
    - apply (proj1 (np_unique_in p _)) in Hp.
      pose proof (store_ok_scoped d partitioning_fn _ p Hs Hp) as Hs1.
      rewrite (similarity_search_ok argsort Hc d query q k Hq
                 (scoped_world partitioning_fn w p) Hs1 Ha).
      + reflexivity.
      + left. cbn. intros Hn. rewrite Hn in Hp. exact Hp.
    - split; [apply scoped_search_members|].
      apply ranking_descending, Hc. }
  split; [|reflexivity].
  rewrite (partitioned_similarity_search_run argsort Hc d query q k Hq
             partitioning_fn w Hs Ha).
  reflexivity.
Qed.

Lemma partitioned_search_round_robin_witness :
  let w := world_of 1 [A1; B0; A0; A2] in
  let partitions := np_unique (map by_letter (texts (self w))) in
  let found :=
    map (scoped_search stable_argsort by_letter (self w) [1; 0]%float 4)
        partitions in
  StronglySorted Z.lt partitions /\
  (forall p, In p partitions <->
             exists t, In t (texts (self w)) /\ by_letter t = p) /\
  Forall (fun p =>
            fst (similarity_search stable_argsort "q" 4
                   (scoped_world by_letter w p))
              = Ok (scoped_search stable_argsort by_letter (self w)
                      [1; 0]%float 4 p) /\
            Forall (fun t => In t (texts (self w)) /\ by_letter t = p)
                   (fst (scoped_search stable_argsort by_letter (self w)
                           [1; 0]%float 4 p)) /\
            descending
              (snd (scoped_search stable_argsort by_letter (self w)
                      [1; 0]%float 4 p)))
         partitions /\
  fst (partitioned_similarity_search stable_argsort "q" 4 by_letter w)
    = Ok (slice_to 4 (round_robin (map fst found)),
          slice_to 4 (round_robin (map snd found))) /\
  (forall (A : Type) (a0 a1 a2 b0 : A),
      slice_to 4 (round_robin [[a0; a1; a2]; [b0]]) = [a0; b0; a1; a2]).
Proof.
  apply (partitioned_search_round_robin stable_argsort 2 "q" [1; 0]%float 4
           by_letter (world_of 1 [A1; B0; A0; A2])).
  - exact stable_argsort_contract.
  - apply store_of_ok. repeat constructor.
  - reflexivity.
  - apply constant_model_answers.
Defined.

Example partitioned_search_example :
  fst (partitioned_similarity_search stable_argsort "q" 4 by_letter
         (world_of 1 [A1; B0; A0; A2]))
  = Ok ([A0; B0; A1; A2], [1; 1; 0; -1]%float).
Proof. vm_compute. reflexivity. Qed.

(** C6 (the code departs from it). When [partitioned_similarity_search]
    returns, the filter is [None]. When it raises, the filter is not reset:
    either [partitioning_fn] raised on a text, before any mask was
    installed, and the store is as it was; or the search of a partition
    raised, and the filter is still that partition's mask.
    With two partitions and an embedding model that fails on its second
    call, the call raises and leaves the mask of the second partition; a
    later [similarity_search] for two texts then returns one text, where
    the same search on the store as it was before returns both.
    With a [partitioning_fn] that raises on the second text, the call
    raises and the store is as it was. *)
Theorem partitioned_search_filter :
  (forall (argsort : list float -> list nat) (query : string) (k : Z)
          (partitioning_fn : Embeddable -> result Z) (w : World),
     let out :=
       partitioned_similarity_search argsort query k partitioning_fn w in
     match fst out with
     | Ok _ => _texts_filter (self (snd out)) = None
     | Raise e =>
         (snd out = w /\
          exists t, In t (texts (self w)) /\ partitioning_fn t = Raise e) \/
         (exists keys p,
            rmap partitioning_fn (texts (self w)) = Ok keys /\
            In p (np_unique keys) /\
            _texts_filter (self (snd out)) = Some (map (Z.eqb p) keys))
     end) /\
  (let w := {| self := store_of 1 [A0; B0];
               embedding_model := fails_on_second_call [1; 0]%float |} in
   let out := partitioned_similarity_search stable_argsort "q" 1 by_letter w in
   fst out = Raise EmbeddingError /\
   _texts_filter (self (snd out)) = Some [false; true] /\
   fst (similarity_search stable_argsort "q" 2
          {| self := self (snd out);
             embedding_model := constant_model [1; 0]%float |})
   = Ok ([B0], [1]%float) /\
   fst (similarity_search stable_argsort "q" 2
          {| self := store_of 1 [A0; B0];
             embedding_model := constant_model [1; 0]%float |})
   = Ok ([A0; B0], [1; 1]%float)) /\
  (let w := world_of 1 [A0; B0] in
   let partitioning_fn :=
     fun t => if String.eqb (text t) "B0" then Raise ValueError else Ok 0 in
   let out :=
     partitioned_similarity_search stable_argsort "q" 1 partitioning_fn w in
   fst out = Raise ValueError /\ snd out = w).
Proof.
  split; [|split].
  - intros argsort query k partitioning_fn w. cbv zeta.
    rewrite partitioned_similarity_search_any.
    change (fun t => call_key (partitioning_fn t)) with partitioning_fn.
    destruct (rmap partitioning_fn (texts (self w))) as [keys|e] eqn:E.
    + pose proof (partition_loop_mask argsort query k keys (np_unique keys) w)
        as H.
      cbv zeta in H.
      destruct (partition_loop _ _ _ _ _ _) as [[rs|e] w1];
        cbn [fst snd self with_filter _texts_filter] in *; [reflexivity|].
      right. destruct H as (p & Hp & Hf). exists keys, p. auto.
    + cbn [fst snd]. left. split; [reflexivity|].
      apply rmap_raise, E.
  - repeat split; vm_compute; reflexivity.
  - split; vm_compute; reflexivity.
Qed.







(** C9 (the code departs from it). [similarity_search] turns the NaN of a
    zero embedding into [-inf] and ranks it last, but the similarity matrix
    of [max_marginal_relevance_search] keeps its NaN entries. With
    [mmr_lambda = 0] the zero embedding gets the score NaN, which [argmax]
    takes for the maximum: it is selected second, before the two candidates
    of higher relevance. With [mmr_lambda = 0.5] and only zero embeddings
    left to select, the call raises [ValueError]. *)
Theorem mmr_keeps_nan :
  fst (similarity_search stable_argsort "q" 4
         (world_of 0 [east; zero1; north; west]))
    = Ok ([east; north; west; zero1], [1; 0; -1; neg_inf]%float) /\
  cosine_similarity (map embedding [east; north; west; zero1])
                    (map embedding [east; north; west; zero1])
    = Ok [[1; 0; -1; nan]; [0; 1; 0; nan]; [-1; 0; 1; nan];
          [0; 0; 0; nan]]%float /\
  fst (max_marginal_relevance_search stable_argsort "q" 2 4 None
         (world_of 0 [east; zero1; north; west]))
    = Ok ([east; zero1], [1; neg_inf]%float) /\
  fst (max_marginal_relevance_search stable_argsort "q" 2 3 None
         (world_of 0.5 [east; zero1; zero2]))
    = Raise ValueError.
Proof. repeat split; vm_compute; reflexivity. Qed.

(** C10 (the code departs from it). [add_texts_and_embeddings] iterates
    its argument twice: once for the hashes, once for [texts.extend]. A
    batch that is a one-shot iterator gives its hashes to [texts_hashes]
    and no text to [texts]: after adding the iterator over [east] to a new
    store the call has returned, [texts] is empty and the matrix has no row,
    while [east in store] holds, [len(store)] is 1 and a search finds
    nothing.
    A batch whose embeddings have not the length of the stored ones is
    appended to [texts], after which [np.array] raises [ValueError] and the
    matrix is the old one.
    A batch that is a sequence, with embeddings of the one length that the
    stored ones have, is appended to [texts] and to the matrix, whatever
    [texts_hashes] holds. On a store that went through sequences only,
    adding a text twice leaves [len(store)] below the number of rows, and a
    search returns the text twice; after an iterator batch [len(store)] can
    be above the number of rows. *)
Theorem add_iterates_twice (hash : Embeddable -> Z) :
  (forall s items,
     let out := add_texts_and_embeddings hash s (iterator items) in
     texts (snd out) = texts s /\
     texts_hashes (snd out) = texts_hashes s ∪ list_to_set (map hash items)) /\
  (let out := add_texts_and_embeddings name_hash (new_store 1)
                (iterator [east]) in
   fst out = Ok tt /\
   texts (snd out) = [] /\
   _embeddings_matrix (snd out) = Some [] /\
   contains name_hash (snd out) east = true /\
   len (snd out) = 1%nat /\
   fst (similarity_search stable_argsort "q" 1
          {| self := snd out; embedding_model := constant_model [1; 0]%float |})
   = Ok ([], [])) /\
  (let out := add_texts_and_embeddings name_hash (store_of 1 [east])
                (sequence [deep]) in
   fst out = Raise ValueError /\
   texts (snd out) = [east; deep] /\
   _embeddings_matrix (snd out) = Some [[1; 0]%float]) /\
  (forall d s items,
     Forall (fun t => length (embedding t) = d) (texts s ++ items)%list ->
     let out := add_texts_and_embeddings hash s (sequence items) in
     fst out = Ok tt /\
     texts (snd out) = (texts s ++ items)%list /\
     _embeddings_matrix (snd out)
     = Some (map embedding (texts s) ++ map embedding items)%list /\
     texts_hashes (snd out) = texts_hashes s ∪ list_to_set (map hash items)) /\
  (forall lam us t,
     batches_are_sequences us ->
     let s' := after_updates hash lam
                 (us ++ [AddTextsAndEmbeddings (sequence [t]);
                         AddTextsAndEmbeddings (sequence [t])])%list in
     texts s' = (kept_texts us ++ [t; t])%list /\
     (len s' < length (texts s'))%nat) /\
  (fst (similarity_search stable_argsort "q" 2
          {| self := after_updates name_hash 1
                       [AddTextsAndEmbeddings (sequence [east]);
                        AddTextsAndEmbeddings (sequence [east])];
             embedding_model := constant_model [1; 0]%float |})
   = Ok ([east; east], [1; 1]%float)) /\
  (let s' := after_updates name_hash 1
               [AddTextsAndEmbeddings (iterator [north; west]);
                AddTextsAndEmbeddings (sequence [east]);
                AddTextsAndEmbeddings (sequence [east])] in
   texts s' = [east; east] /\ len s' = 3%nat).
Proof.
  split; [|split; [|split; [|split; [|split; [|split]]]]].
  - intros s items. cbv zeta.
    destruct (add_fields hash s (iterator items)) as (_ & E2 & E3 & _).
    cbv zeta in *. cbn [first_pass second_pass] in *.
    rewrite E2, E3, app_nil_r. split; reflexivity.
  - cbv zeta. split; [reflexivity|]. split; [reflexivity|].
    split; [reflexivity|]. split; [|split].
    + apply bool_decide_eq_true.
      cbn [add_texts_and_embeddings snd texts_hashes first_pass second_pass
           new_store texts app map np_array].
      cbn [map]. rewrite list_to_set_cons. set_solver.
    + unfold len.
      cbn [add_texts_and_embeddings snd texts_hashes first_pass second_pass
           new_store texts app map np_array].
      rewrite list_to_set_cons, list_to_set_nil.
      rewrite (left_id_L ∅ (∪)), (right_id_L ∅ (∪)). apply size_singleton.
    + reflexivity.
  - cbv zeta. repeat split; vm_compute; reflexivity.
  - intros d s items Hd. cbv zeta.
    rewrite (add_sequence_uniform hash d s (sequence items) Hd).
    cbn [fst snd texts _embeddings_matrix texts_hashes first_pass second_pass].
    rewrite map_app. repeat split.
  - intros lam us t Hseq s'.
    assert (Hseq' : batches_are_sequences
                      (us ++ [AddTextsAndEmbeddings (sequence [t]);
                              AddTextsAndEmbeddings (sequence [t])])).
    { apply Forall_app. split; [exact Hseq|repeat constructor]. }
    pose proof (hashes_of_sequences hash _ (new_store lam) Hseq' eq_refl) as Hh.
    cbv zeta in Hh. fold (after_updates hash lam
                            (us ++ [AddTextsAndEmbeddings (sequence [t]);
                                    AddTextsAndEmbeddings (sequence [t])])) in Hh.
    fold s' in Hh.
    assert (Ht : texts s' = (kept_texts us ++ [t; t])%list).
    { unfold s'. rewrite texts_after_updates. unfold kept_texts.
      rewrite fold_left_app. cbn [fold_left second_pass].
      rewrite <- app_assoc. reflexivity. }
    split; [exact Ht|].
    unfold len. rewrite Hh, Ht.
    assert (Hset : (list_to_set (map hash (kept_texts us ++ [t; t])) : gset Z)
                   = list_to_set (map hash (kept_texts us ++ [t]))).
    { rewrite !map_app, !list_to_set_app_L. cbn [map].
      rewrite !list_to_set_cons, list_to_set_nil. set_solver. }
    rewrite Hset.
    pose proof (size_list_to_set_le (map hash (kept_texts us ++ [t]))) as Hle.
    rewrite length_map in Hle. rewrite !length_app in *. cbn [length] in *.
    lia.
  - vm_compute. reflexivity.
  - split; vm_compute; reflexivity.
Qed.

(** * Further properties *)

(** X1. When the MMR path of [max_marginal_relevance_search] is taken
    ([mmr_lambda < 1] and more candidates than [k >= 1]) and no MMR score of
    a candidate not yet selected is NaN or [-inf], the call returns the
    candidate at index 0 followed by [k - 1] greedy choices, each the
    earliest not-yet-selected candidate of maximal
    [mmr_lambda * relevance - (1 - mmr_lambda) * max similarity to the
    selected], paired with their relevance scores, in selection order. The
    similarity is the one the code computes, [pairwise_similarity]. *)
Theorem mmr_search_greedy (argsort : list float -> list nat) (d : nat)
    (query : string) (q : vector) (k fetch_k : Z) (w : World) :
  argsort_contract argsort ->
  store_ok d (self w) -> length q = d ->
  answers (embedding_model w) query q ->
  PrimFloat.leb 1 (mmr_lambda (self w)) = false ->
  k <= fetch_k ->
  let candidates := top_k argsort (self w) q fetch_k in
  let n := length (fst candidates) in
  let similarity_matrix :=
    pairwise_similarity (map embedding (fst candidates))
                        (map embedding (fst candidates)) in
  1 <= k < Z.of_nat n ->
  scores_usable n (mmr_lambda (self w)) (snd candidates) similarity_matrix ->
  exists picks,
    fst (max_marginal_relevance_search argsort query k fetch_k None w)
      = Ok (pick (fst candidates) (0%nat :: picks),
            pick (snd candidates) (0%nat :: picks)) /\
    length picks = Z.to_nat (k - 1) /\
    greedy_selection n (mmr_lambda (self w)) (snd candidates)
                     similarity_matrix [0%nat] picks.
Proof.
  intros Hc Hs Hq Ha Hlam Hk candidates n sim Hn Hu.
  destruct (top_k_shape argsort d (self w) q fetch_k Hc Hs) as [Hd Hl].
  fold candidates in Hd, Hl.
  destruct (mmr_select_greedy d (mmr_lambda (self w)) k (fst candidates)
              (snd candidates) Hd Hl ltac:(fold n; lia) Hu)
    as (picks & Hp1 & Hp2 & Hp3).
  exists picks. split; [|split; assumption].
  unfold max_marginal_relevance_search.
  rewrite (proj2 (Z.ltb_ge fetch_k k)) by exact Hk.
  unfold bind at 1.
  rewrite (similarity_search_ok argsort Hc d query q fetch_k Hq w Hs Ha)
    by (right; lia).
  fold candidates. unfold bind, get_self.
  cbn [self after_queries]. rewrite Hlam.
  rewrite (proj2 (Z.leb_gt _ _)) by (fold n; lia).
  cbn [orb]. unfold lift. cbn [fst]. exact Hp1.
Qed.

Lemma mmr_search_greedy_witness :
  let w := world_of 0.5 [north; east; west; east2] in
  exists picks,
    fst (max_marginal_relevance_search stable_argsort "q" 2 4 None w)
      = Ok (pick [east; east2; north; west] (0%nat :: picks),
            pick [1; 1; 0; -1]%float (0%nat :: picks)) /\
    length picks = 1%nat /\
    greedy_selection 4 0.5 [1; 1; 0; -1]%float
      (pairwise_similarity (map embedding [east; east2; north; west])
                           (map embedding [east; east2; north; west]))
      [0%nat] picks.
Proof.
  apply (mmr_search_greedy stable_argsort 2 "q" [1; 0]%float 2 4
           (world_of 0.5 [north; east; west; east2])).
  - exact stable_argsort_contract.
  - apply store_of_ok. repeat constructor.
  - reflexivity.
  - apply constant_model_answers.
  - reflexivity.
  - lia.
  - vm_compute. split; [discriminate|reflexivity].
  - apply scores_usable_check; try reflexivity.
    repeat constructor.
Defined.

(** The scenario of the specification: the near-duplicate [east2] of the
    first pick is passed over for the less relevant [north]. *)
Example mmr_search_example :
  fst (max_marginal_relevance_search stable_argsort "q" 2 4 None
         (world_of 0.5 [north; east; west; east2]))
  = Ok ([east; north], [1; 0]%float).
Proof. vm_compute. reflexivity. Qed.

(** X2. With [mmr_lambda >= 1] and [k <= fetch_k],
    [max_marginal_relevance_search] without a partitioning function is
    [similarity_search] for [fetch_k], result and state. *)
Theorem mmr_disabled_returns_fetched (argsort : list float -> list nat)
    (query : string) (k fetch_k : Z) (w : World) :
  k <= fetch_k -> PrimFloat.leb 1 (mmr_lambda (self w)) = true ->
  max_marginal_relevance_search argsort query k fetch_k None w
  = similarity_search argsort query fetch_k w.
Proof.
  intros Hk Hlam. unfold max_marginal_relevance_search.
  rewrite (proj2 (Z.ltb_ge fetch_k k)) by exact Hk.
  unfold bind, get_self.
  pose proof (similarity_search_self argsort query fetch_k w) as Hself.
  destruct (similarity_search argsort query fetch_k w) as [[r|e] w1];
    [|reflexivity].
  cbn [snd] in Hself. rewrite Hself, Hlam, orb_true_r. reflexivity.
Qed.

Lemma mmr_disabled_returns_fetched_witness :
  max_marginal_relevance_search stable_argsort "q" 1 2 None
    (world_of 1 [east; north; west])
  = similarity_search stable_argsort "q" 2 (world_of 1 [east; north; west]).
Proof.
  apply (mmr_disabled_returns_fetched stable_argsort "q" 1 2
           (world_of 1 [east; north; west])).
  - lia.
  - reflexivity.
Defined.

(** X3. [max_marginal_relevance_search] with [fetch_k < k] raises
    [ValueError] before it touches the store or the embedding model. *)
Theorem mmr_fetch_k_below_k_raises (argsort : list float -> list nat)
    (query : string) (k fetch_k : Z)
    (partitioning_fn : option (Embeddable -> Z)) (w : World) :
  fetch_k < k ->
  max_marginal_relevance_search argsort query k fetch_k partitioning_fn w
  = (Raise ValueError, w).
Proof.
  intros Hk. unfold max_marginal_relevance_search.
  rewrite (proj2 (Z.ltb_lt fetch_k k)) by exact Hk. reflexivity.
Qed.

Lemma mmr_fetch_k_below_k_raises_witness :
  max_marginal_relevance_search stable_argsort "q" 3 2 None
    (world_of 0.5 [east; north; west])
  = (Raise ValueError, world_of 0.5 [east; north; west]).
Proof.
  apply (mmr_fetch_k_below_k_raises stable_argsort "q" 3 2 None
           (world_of 0.5 [east; north; west])).
  lia.
Defined.

(** X4. For a single row [q] against a matrix [b] of rows of the same
    dimension, [cosine_similarity] returns the one row of the cosines of [q]
    with the rows of [b]: the case [similarity_search] uses. *)
Theorem cosine_similarity_one_query_row (q : vector) (b : matrix) :
  b <> [] -> Forall (fun r => length r = length q) b ->
  cosine_similarity [q] b = Ok [map (cosine q) b].
Proof. apply cosine_similarity_query. Qed.

Lemma cosine_similarity_one_query_row_witness :
  cosine_similarity [[1; 0]]%float [[2; 0]; [0; 1]; [-1; 0]]%float
  = Ok [map (cosine [1; 0]%float) [[2; 0]; [0; 1]; [-1; 0]]%float].
Proof.
  apply (cosine_similarity_one_query_row [1; 0]%float
           [[2; 0]; [0; 1]; [-1; 0]]%float).
  - discriminate.
  - repeat constructor.
Defined.

(** X5. For two matrices of equally many rows, all of one dimension,
    [cosine_similarity] returns [pairwise_similarity]: entry (i, j) is
    [dot(a_i, b_j) / (norm(a_j) * norm(b_j))]. *)
Theorem cosine_similarity_equal_row_counts (d : nat) (a b : matrix) :
  a <> [] -> length a = length b ->
  Forall (fun r => length r = d) a -> Forall (fun r => length r = d) b ->
  cosine_similarity a b = Ok (pairwise_similarity a b).
Proof. apply cosine_similarity_square. Qed.

Lemma cosine_similarity_equal_row_counts_witness :
  cosine_similarity [[1; 0]; [2; 0]]%float [[0; 1]; [4; 0]]%float
  = Ok (pairwise_similarity [[1; 0]; [2; 0]]%float [[0; 1]; [4; 0]]%float).
Proof.
  apply (cosine_similarity_equal_row_counts 2 [[1; 0]; [2; 0]]%float
           [[0; 1]; [4; 0]]%float).
  - discriminate.
  - reflexivity.
  - repeat constructor.
  - repeat constructor.
Defined.

(** X6. Whatever sequence of [add_texts_and_embeddings] and [clear] calls a
    new store has gone through, whatever the batches were and whether the
    additions returned or raised: its [mmr_lambda] is the initial one, it
    has no filter, [texts] holds what the second iteration of every batch
    since the last [clear] gave, every stored text is [in] the store, and
    the matrix, if there is one, holds the embeddings of the first stored
    texts, in order. If every addition returned, the matrix holds one row of
    one length for every stored text (or is [None] with no text stored). If
    every batch was a sequence, [item in store] holds exactly when a stored
    text has the hash of [item], and [len(store)] is at most the number of
    stored texts. *)
Theorem store_stays_in_step (hash : Embeddable -> Z) (lam : float)
    (us : list update) :
  let s := after_updates hash lam us in
  mmr_lambda s = lam /\
  _texts_filter s = None /\
  texts s = kept_texts us /\
  (forall t, In t (texts s) -> contains hash s t = true) /\
  (forall m, _embeddings_matrix s = Some m ->
             exists more, map embedding (texts s) = (m ++ more)%list) /\
  (adds_return hash (new_store lam) us -> in_order s) /\
  (batches_are_sequences us ->
   (forall t, contains hash s t = true <->
              exists t', In t' (texts s) /\ hash t' = hash t) /\
   (len s <= length (texts s))%nat).
Proof.
  cbv zeta. unfold after_updates.
  destruct (kept_by_all_updates hash lam us (new_store lam))
    as (Hl & Hf & Hh & Hm).
  { split; [reflexivity|]. split; [reflexivity|]. split; [intros t []|].
    intros m H. discriminate H. }
  split; [exact Hl|]. split; [exact Hf|].
  split; [apply texts_after_updates|].
  split. { intros t Ht. apply bool_decide_eq_true, Hh, Ht. }
  split; [exact Hm|]. split.
  - apply in_order_updates; [reflexivity|right; split; reflexivity].
  - intros Hseq.
    pose proof (hashes_of_sequences hash us (new_store lam) Hseq eq_refl) as Hs.
    cbv zeta in Hs. split; [intros t; apply contains_in_step, Hs|].
    unfold len. rewrite Hs.
    etransitivity; [apply size_list_to_set_le|]. rewrite length_map.
    reflexivity.
Qed.



(** X8. [similarity_search] with [k = 0], or with [k >= 0] on a store
    without texts, returns two empty lists and calls nothing. *)
Theorem similarity_search_nothing_to_return (argsort : list float -> list nat)
    (query : string) (k : Z) (w : World) :
  k = 0 \/ (0 <= k /\ texts (self w) = []) ->
  similarity_search argsort query k w = (Ok ([], []), w).
Proof.
  intros H. unfold similarity_search, bind, get_self.
  replace (Z.min k (Z.of_nat (length (texts (self w))))) with 0; [reflexivity|].
  destruct H as [->|[Hk He]]; [lia|]. rewrite He. simpl. lia.
Qed.

Lemma similarity_search_nothing_to_return_witness :
  similarity_search stable_argsort "q" 0 (world_of 1 [north; west; east])
  = (Ok ([], []), world_of 1 [north; west; east]).
Proof.
  apply (similarity_search_nothing_to_return stable_argsort "q" 0
           (world_of 1 [north; west; east])).
  left. reflexivity.
Defined.

(** X9. No search changes what a store holds, whether it returns or raises:
    [similarity_search] leaves the store as it is, and
    [partitioned_similarity_search] and [max_marginal_relevance_search]
    (with or without a partitioning function) leave its [mmr_lambda], hash
    set, texts and matrix as they are; only the filter can differ. *)
Theorem searches_keep_the_corpus (argsort : list float -> list nat)
    (query : string) (k fetch_k : Z) (partitioning_fn : Embeddable -> Z)
    (choice : option (Embeddable -> Z)) (w : World) :
  self (snd (similarity_search argsort query k w)) = self w /\
  corpus (self (snd (partitioned_similarity_search argsort query k
                       partitioning_fn w)))
  = corpus (self w) /\
  corpus (self (snd (max_marginal_relevance_search argsort query k fetch_k
                       choice w)))
  = corpus (self w).
Proof.
  split; [apply similarity_search_self|].
  split; [apply corpus_with_filter, partitioned_search_corpus|].
  destruct (Z.ltb_spec fetch_k k) as [Hlt|Hge].
  - unfold max_marginal_relevance_search.
    rewrite (proj2 (Z.ltb_lt _ _) Hlt). reflexivity.
  - rewrite mmr_world by exact Hge. destruct choice as [f|].
    + apply corpus_with_filter, partitioned_search_corpus.
    + rewrite similarity_search_self. reflexivity.
Qed.

(** X10. Every score that [similarity_search],
    [partitioned_similarity_search] or [max_marginal_relevance_search]
    returns is neither NaN nor plus infinity ([np.nan_to_num] has replaced
    them by minus infinity and by the largest finite number), for every
    store, embedding model and [argsort]. *)
Theorem search_scores_never_nan (argsort : list float -> list nat)
    (query : string) (k fetch_k : Z) (partitioning_fn : Embeddable -> Z)
    (choice : option (Embeddable -> Z)) (w : World) :
  let proper r :=
    match r with
    | Ok (ts, ss) => Forall proper_score ss
    | Raise _ => True
    end in
  proper (fst (similarity_search argsort query k w)) /\
  proper (fst (partitioned_similarity_search argsort query k
                 partitioning_fn w)) /\
  proper (fst (max_marginal_relevance_search argsort query k fetch_k
                 choice w)).
Proof.
  cbv zeta. split; [apply similarity_search_scores|].
  split; [apply partitioned_search_scores|].
  unfold max_marginal_relevance_search.
  destruct (fetch_k <? k); [exact I|]. unfold bind at 1.
  assert (Htail : forall r w1,
            match r with (ts, ss) => Forall proper_score ss end ->
            match fst ((s <~ get_self ;;
                        if (Z.of_nat (length (fst r)) <=? k)
                           || PrimFloat.leb 1 (mmr_lambda s)
                        then ret r
                        else lift (mmr_select (mmr_lambda s) k (fst r) (snd r)))
                         w1) with
            | Ok (ts, ss) => Forall proper_score ss
            | Raise _ => True
            end).
  { intros [ts ss] w1 H. unfold bind, get_self.
    destruct (_ || _); [exact H|]. unfold lift. cbn [fst snd].
    unfold mmr_select.
    destruct (cosine_similarity _ _) as [sm|e]; [|exact I]. cbn [rbind].
    destruct (mmr_loop _ _ _ _ _ _) as [selected|e]; [|exact I]. cbn [rbind].
    destruct (take_indices ts selected) as [sel_texts|e]; [|exact I].
    cbn [rbind].
    destruct (take_indices ss selected) as [sel_scores|e] eqn:Hss; [|exact I].
    cbn [rbind]. revert Hss. apply take_indices_Forall, H. }
  destruct choice as [f|].
  - pose proof (partitioned_search_scores argsort query fetch_k f w) as H.
    destruct (partitioned_similarity_search argsort query fetch_k f w)
      as [[r|e] w1]; [|exact I].
    apply Htail. destruct r. exact H.
  - pose proof (similarity_search_scores argsort query fetch_k w) as H.
    destruct (similarity_search argsort query fetch_k w)
      as [[r|e] w1]; [|exact I].
    apply Htail. destruct r. exact H.
Qed.

(** X11. On a store in order without a filter, with [k >= 0], a
    partitioning function that gives every stored text the same key makes
    [partitioned_similarity_search] return what [similarity_search]
    returns, and leave the same state. *)
Theorem partitioned_search_one_partition (argsort : list float -> list nat)
    (d : nat) (query : string) (q : vector) (k : Z)
    (partitioning_fn : Embeddable -> Z) (c : Z) (w : World) :
  argsort_contract argsort ->
  store_ok d (self w) -> length q = d ->
  answers (embedding_model w) query q ->
  _texts_filter (self w) = None -> 0 <= k ->
  (forall t, In t (texts (self w)) -> partitioning_fn t = c) ->
  partitioned_similarity_search argsort query k partitioning_fn w
  = similarity_search argsort query k w.
Proof.
  intros Hc Hs Hq Ha Hf Hk Hone.
  rewrite (partitioned_similarity_search_run argsort Hc d query q k Hq
             partitioning_fn w Hs Ha).
  rewrite (similarity_search_ok argsort Hc d query q k Hq w Hs Ha)
    by (right; exact Hk).
  assert (Hw : {| self := with_filter (self w) None;
                  embedding_model := embedding_model w |} = w).
  { rewrite <- Hf, with_filter_same. destruct w. reflexivity. }
  rewrite Hw.
  destruct (texts (self w)) as [|t0 ts0] eqn:Ht.
  - unfold top_k, active_texts, embeddings_made. rewrite Hf, Ht.
    cbn [map np_unique fold_right length].
    replace (Z.min k (Z.of_nat 0)) with 0 by lia.
    rewrite !pick_nil. unfold round_robin. cbn [max_length fold_right round_robin_rounds].
    rewrite !slice_to_nil. reflexivity.
  - assert (Hu : np_unique (map partitioning_fn (texts (self w))) = [c]).
    { apply np_unique_constant.
      - rewrite Ht. discriminate.
      - intros x Hx. apply in_map_iff in Hx. destruct Hx as (t & <- & Hin).
        apply Hone. rewrite <- Ht. exact Hin. }
    rewrite <- Ht, Hu. cbn [map length]. rewrite !round_robin_one.
    assert (Htop : scoped_search argsort partitioning_fn (self w) q k c
                   = top_k argsort (self w) q k).
    { unfold scoped_search, top_k, ranking, active_texts, partition_mask.
      cbn [with_filter _texts_filter texts]. rewrite Hf.
      rewrite select_rows_all; [reflexivity|].
      intros t Hin. apply Hone. rewrite <- Ht. exact Hin. }
    rewrite Htop.
    assert (Hlen : Z.of_nat (length (slice_to
                     (Z.min k (Z.of_nat (length (texts (self w)))))
                     (ranking argsort (self w) q))) <= k).
    { etransitivity; [apply slice_to_length; lia|lia]. }
    unfold top_k. cbn [fst snd].
    pose proof (pick_length_le (map (score q) (active_texts (self w)))
                  (slice_to (Z.min k (Z.of_nat (length (texts (self w)))))
                            (ranking argsort (self w) q))) as H1.
    pose proof (pick_length_le (active_texts (self w))
                  (slice_to (Z.min k (Z.of_nat (length (texts (self w)))))
                            (ranking argsort (self w) q))) as H2.
    rewrite (slice_to_short k (pick (active_texts (self w)) _)) by lia.
    rewrite (slice_to_short k (pick (map (score q) _) _)) by lia.
    reflexivity.
Qed.

Lemma partitioned_search_one_partition_witness :
  partitioned_similarity_search stable_argsort "q" 2 (fun _ => 7)
    (world_of 1 [north; west; east])
  = similarity_search stable_argsort "q" 2 (world_of 1 [north; west; east]).
Proof.
  apply (partitioned_search_one_partition stable_argsort 2 "q" [1; 0]%float 2
           (fun _ => 7) 7 (world_of 1 [north; west; east])).
  - exact stable_argsort_contract.
  - apply store_of_ok. repeat constructor.
  - reflexivity.
  - apply constant_model_answers.
  - reflexivity.
  - lia.
  - intros t _. reflexivity.
Defined.

(** X12. With [k] at least the number of texts,
    [partitioned_similarity_search] on a store in order returns every text
    of the store exactly once, whatever the partitioning function, each
    with its score: the partitions cover the store and the round-robin
    merge loses and repeats nothing. *)
Theorem partitioned_search_whole_corpus (argsort : list float -> list nat)
    (d : nat) (query : string) (q : vector) (k : Z)
    (partitioning_fn : Embeddable -> Z) (w : World) :
  argsort_contract argsort ->
  store_ok d (self w) -> length q = d ->
  answers (embedding_model w) query q ->
  Z.of_nat (length (texts (self w))) <= k ->
  exists ts ss,
    fst (partitioned_similarity_search argsort query k partitioning_fn w)
    = Ok (ts, ss) /\
    Permutation ts (texts (self w)) /\
    ss = map (score q) ts.
Proof.
  intros Hc Hs Hq Ha Hk.
  rewrite (partitioned_similarity_search_run argsort Hc d query q k Hq
             partitioning_fn w Hs Ha).
  cbn [fst]. eexists _, _. split; [reflexivity|].
  set (partitions := np_unique (map partitioning_fn (texts (self w)))).
  set (found := map (scoped_search argsort partitioning_fn (self w) q k)
                    partitions).
  assert (Hscoped : forall p, In p partitions ->
            Permutation
              (fst (scoped_search argsort partitioning_fn (self w) q k p))
              (select_rows (texts (self w))
                 (map (Z.eqb p) (map partitioning_fn (texts (self w))))) /\
            snd (scoped_search argsort partitioning_fn (self w) q k p)
            = map (score q)
                (fst (scoped_search argsort partitioning_fn (self w) q k p))).
  { intros p Hp. apply (proj1 (np_unique_in p _)) in Hp.
    apply (top_k_whole argsort d _ q k Hc
             (store_ok_scoped d partitioning_fn _ p Hs Hp)).
    exact Hk. }
  assert (Hsnd : map snd found = map (map (score q)) (map fst found)).
  { unfold found. rewrite !map_map. apply map_ext_in. intros p Hp.
    apply (Hscoped p Hp). }
  assert (Hperm : Permutation (round_robin (map fst found)) (texts (self w))).
  { rewrite round_robin_perm. unfold found.
    rewrite map_map, concat_map_flat_map.
    rewrite (flat_map_pointwise_perm _ _ _ (fun p Hp => proj1 (Hscoped p Hp))).
    apply partitions_cover.
    - apply StronglySorted_lt_NoDup, np_unique_sorted.
    - intros t Ht. apply np_unique_in, in_map, Ht. }
  assert (Hall : slice_to k (round_robin (map fst found))
                 = round_robin (map fst found)).
  { replace k with (Z.of_nat (Z.to_nat k)) by lia. apply slice_to_all.
    rewrite (Permutation_length Hperm). lia. }
  split; [rewrite Hall; exact Hperm|].
  rewrite Hsnd, round_robin_map. apply slice_to_map.
Qed.

Lemma partitioned_search_whole_corpus_witness :
  exists ts ss,
    fst (partitioned_similarity_search stable_argsort "q" 4 by_letter
           (world_of 1 [A1; B0; A0; A2]))
    = Ok (ts, ss) /\
    Permutation ts (texts (self (world_of 1 [A1; B0; A0; A2]))) /\
    ss = map (score [1; 0]%float) ts.
Proof.
  apply (partitioned_search_whole_corpus stable_argsort 2 "q" [1; 0]%float 4
           by_letter (world_of 1 [A1; B0; A0; A2])).
  - exact stable_argsort_contract.
  - apply store_of_ok. repeat constructor.
  - reflexivity.
  - apply constant_model_answers.
  - simpl. lia.
Defined.

(** X13. With [k] at least the number of distinct partition keys,
    [partitioned_similarity_search] on a store in order returns, for every
    stored text, a stored text of the same partition that scores at least
    as high: the best text of every partition is in the result. *)
Theorem partitioned_search_best_of_each_partition
    (argsort : list float -> list nat) (d : nat) (query : string) (q : vector) (k : Z)
    (partitioning_fn : Embeddable -> Z) (w : World) :
  argsort_contract argsort ->
  store_ok d (self w) -> length q = d ->
  answers (embedding_model w) query q ->
  Z.of_nat (length (np_unique (map partitioning_fn (texts (self w))))) <= k ->
  exists ts ss,
    fst (partitioned_similarity_search argsort query k partitioning_fn w)
    = Ok (ts, ss) /\
    forall t, In t (texts (self w)) ->
      exists best,
        In best ts /\ In best (texts (self w)) /\
        partitioning_fn best = partitioning_fn t /\
        PrimFloat.leb (score q t) (score q best) = true.
Proof.
  intros Hc Hs Hq Ha Hk.
  rewrite (partitioned_similarity_search_run argsort Hc d query q k Hq
             partitioning_fn w Hs Ha).
  cbn [fst]. eexists _, _. split; [reflexivity|]. intros t Ht.
  set (p := partitioning_fn t).
  assert (Hp : In p (map partitioning_fn (texts (self w)))).
  { apply in_map, Ht. }
  assert (Hpu : In p (np_unique (map partitioning_fn (texts (self w))))).
  { apply np_unique_in, Hp. }
  assert (Hk1 : 1 <= k).
  { destruct (np_unique (map partitioning_fn (texts (self w))));
      [destruct Hpu|cbn [length] in Hk; lia]. }
  assert (Hne : texts (self w) <> []).
  { intros E. rewrite E in Ht. destruct Ht. }
  destruct (top_k_best argsort d
              (with_filter (self w)
                 (Some (partition_mask partitioning_fn (self w) p))) q k Hc
              (store_ok_scoped d partitioning_fn _ p Hs Hp) Hk1 Hne)
    as (best & rest & Htop & Hin & Hmax).
  unfold active_texts in Hin, Hmax.
  cbn [with_filter _texts_filter texts] in Hin, Hmax.
  unfold partition_mask in Hin, Hmax.
  exists best. split; [|split; [|split]].
  - apply (round_robin_heads _ best).
    + apply (heads_in _ best rest). apply in_map_iff.
      exists (scoped_search argsort partitioning_fn (self w) q k p).
      split; [exact Htop|]. apply in_map, Hpu.
    + rewrite !length_map. exact Hk.
  - apply (select_rows_in _ _ _ Hin).
  - apply (select_rows_partition _ _ _ _ Hin).
  - apply Hmax. apply select_rows_member, Ht.
Qed.

Lemma partitioned_search_best_of_each_partition_witness :
  exists ts ss,
    fst (partitioned_similarity_search stable_argsort "q" 2 by_letter
           (world_of 1 [A1; B0; A0; A2]))
    = Ok (ts, ss) /\
    forall t, In t (texts (self (world_of 1 [A1; B0; A0; A2]))) ->
      exists best,
        In best ts /\ In best (texts (self (world_of 1 [A1; B0; A0; A2]))) /\
        by_letter best = by_letter t /\
        PrimFloat.leb (score [1; 0]%float t) (score [1; 0]%float best) = true.
Proof.
  apply (partitioned_search_best_of_each_partition stable_argsort 2 "q"
           [1; 0]%float 2 by_letter (world_of 1 [A1; B0; A0; A2])).
  - exact stable_argsort_contract.
  - apply store_of_ok. repeat constructor.
  - reflexivity.
  - apply constant_model_answers.
  - vm_compute. discriminate.
Defined.

(** X14. [embedding_model_factory] ignores whitespace around the
    identifier: it builds the same model, or raises the same error, with
    and without it. *)
Theorem factory_ignores_surrounding_whitespace {K : Type}
    (l embedding r : string) (kwargs : K) :
  blank l = true -> blank r = true ->
  embedding_model_factory (l ++ embedding ++ r) kwargs
  = embedding_model_factory embedding kwargs.
Proof. apply embedding_model_factory_pad. Qed.

Lemma factory_ignores_surrounding_whitespace_witness :
  embedding_model_factory ("  " ++ "hybrid-st-all-MiniLM-L6-v2" ++ " ") tt
  = embedding_model_factory "hybrid-st-all-MiniLM-L6-v2" tt.
Proof.
  apply (factory_ignores_surrounding_whitespace "  "
           "hybrid-st-all-MiniLM-L6-v2" " " tt); reflexivity.
Defined.

(** X15. [embedding_model_factory] returns for every string: its recursion
    is over within as many nested calls as the string is long. The only
    error its own code raises is [ValueError], the constructors being taken
    to succeed; for a string of whitespace only (the
    empty string included) it builds a LiteLLM model with the empty name;
    and for every other string the model it builds is well named: every
    model name in it is non-empty and has no whitespace around it, every
    hybrid model holds exactly a model and the sparse model, in this order,
    and the keyword arguments reach every constructor. *)
Theorem factory_result {K : Type} (embedding : string) (kwargs : K) :
  (forall depth, (String.length embedding <= depth)%nat ->
     factory_calls depth embedding kwargs
     = Some (embedding_model_factory embedding kwargs)) /\
  match embedding_model_factory embedding kwargs with
  | Ok m => if blank embedding then m = LiteLLMEmbeddingModel "" kwargs
            else well_named kwargs m
  | Raise e => e = ValueError
  end.
Proof.
  split.
  - intros depth Hd. apply factory_calls_finish, Hd.
  - apply (factory_result_shape kwargs (String.length embedding)).
    reflexivity.
Qed.

(** X16. For a non-empty name [name] without whitespace around it, and
    any whitespace [l] between prefix and name: ["st-" + l + name] builds
    the SentenceTransformer model [name], ["litellm-" + l + name] the
    LiteLLM model [name], ["hybrid-" + l + name] the hybrid of the model
    that [name] itself builds and the sparse model; and [name] alone, when
    it has none of the three prefixes and is not ["sparse"], builds the
    LiteLLM model [name]. *)
Theorem factory_prefix_selects_class {K : Type} (l name : string)
    (kwargs : K) :
  blank l = true -> strip name = name -> name <> "" ->
  embedding_model_factory ("st-" ++ l ++ name) kwargs
  = Ok (SentenceTransformerEmbeddingModel name kwargs) /\
  embedding_model_factory ("litellm-" ++ l ++ name) kwargs
  = Ok (LiteLLMEmbeddingModel name kwargs) /\
  embedding_model_factory ("hybrid-" ++ l ++ name) kwargs
  = (dense_model <- embedding_model_factory name kwargs ;;
     Ok (HybridEmbeddingModel [dense_model; SparseEmbeddingModel kwargs])) /\
  (startswith name "hybrid-" = false -> startswith name "st-" = false ->
   startswith name "litellm-" = false -> name <> "sparse" ->
   embedding_model_factory name kwargs = Ok (LiteLLMEmbeddingModel name kwargs)).
Proof.
  intros Hl Hn Hne.
  destruct (factory_prefix_dispatch l name kwargs Hl Hn Hne) as (H1 & H2 & H3).
  repeat split; try assumption.
  apply factory_bare_name, Hn.
Qed.

Lemma factory_prefix_selects_class_witness :
  embedding_model_factory ("st-" ++ " " ++ "all-MiniLM-L6-v2") tt
  = Ok (SentenceTransformerEmbeddingModel "all-MiniLM-L6-v2" tt) /\
  embedding_model_factory ("litellm-" ++ " " ++ "all-MiniLM-L6-v2") tt
  = Ok (LiteLLMEmbeddingModel "all-MiniLM-L6-v2" tt) /\
  embedding_model_factory ("hybrid-" ++ " " ++ "all-MiniLM-L6-v2") tt
  = (dense_model <- embedding_model_factory "all-MiniLM-L6-v2" tt ;;
     Ok (HybridEmbeddingModel [dense_model; SparseEmbeddingModel tt])) /\
  (startswith "all-MiniLM-L6-v2" "hybrid-" = false ->
   startswith "all-MiniLM-L6-v2" "st-" = false ->
   startswith "all-MiniLM-L6-v2" "litellm-" = false ->
   "all-MiniLM-L6-v2" <> "sparse" ->
   embedding_model_factory "all-MiniLM-L6-v2" tt
   = Ok (LiteLLMEmbeddingModel "all-MiniLM-L6-v2" tt)).
Proof.
  apply (factory_prefix_selects_class " " "all-MiniLM-L6-v2" tt).
  - reflexivity.
  - reflexivity.
  - discriminate.
Defined.

(** X17. A prefix with nothing but whitespace after it is an error:
    [embedding_model_factory] raises [ValueError] for ["hybrid-"], ["st-"]
    and ["litellm-"] followed by whitespace only or by nothing. *)
Theorem factory_prefix_without_name_raises {K : Type} (b : string)
    (kwargs : K) :
  blank b = true ->
  embedding_model_factory ("hybrid-" ++ b) kwargs = Raise ValueError /\
  embedding_model_factory ("st-" ++ b) kwargs = Raise ValueError /\
  embedding_model_factory ("litellm-" ++ b) kwargs = Raise ValueError.
Proof. apply factory_missing_name. Qed.

Lemma factory_prefix_without_name_raises_witness :
  embedding_model_factory ("hybrid-" ++ "  ") tt = Raise ValueError /\
  embedding_model_factory ("st-" ++ "  ") tt = Raise ValueError /\
  embedding_model_factory ("litellm-" ++ "  ") tt = Raise ValueError.
Proof.
  apply (factory_prefix_without_name_raises "  " tt). reflexivity.
Defined.

(** ** The Qdrant store

    Inside this section the names are those of the module [Qdrant]. *)
Section QdrantStore.
Import Qdrant.
Import QdrantExamples.
Local Open Scope list_scope.

(** X18. When the client says that the collection does not exist,
    [QdrantVectorStore.similarity_search] returns two empty lists for every
    [k]; it has asked the client that one question and has not touched the
    embedding model. *)
Theorem qdrant_search_without_collection (query : string) (k : Z)
    (w : World) :
  collection_exists_answer (client (self w)) (requests (client (self w)))
    (collection_name (self w)) = Done false ->
  similarity_search query k w
  = (Done ([], []),
     with_request w (CollectionExists (collection_name (self w)))).
Proof.
  intros H. unfold similarity_search, qbind, get_self, collection_exists,
    call_client. rewrite H. reflexivity.
Qed.

Lemma qdrant_search_without_collection_witness :
  similarity_search "q" 3 (qdrant_world (client_with false []) None)
  = (Done ([], []),
     with_request (qdrant_world (client_with false []) None)
       (CollectionExists
          (collection_name (self (qdrant_world (client_with false []) None))))).
Proof.
  apply (qdrant_search_without_collection "q" 3
           (qdrant_world (client_with false []) None)).
  reflexivity.
Defined.

(** X19. When the collection exists, the embedding model answers the
    query and the client answers [query_points] with points whose vectors
    can be read, [QdrantVectorStore.similarity_search] returns the texts
    rebuilt from the points and the points' scores, in the client's order.
    Whatever [k] is (zero and negative included) it has embedded the query
    once, between [set_mode(QUERY)] and [set_mode(DOCUMENT)], and has passed
    [k] to the client as the limit, after the question whether the
    collection exists. *)
Theorem qdrant_search_returns_client_points (query : string) (q : vector)
    (k : Z)
    (points : list ScoredPoint) (ts : list Embeddable) (w : World) :
  let s := self w in
  let c := client s in
  let asked := CollectionExists (collection_name s) in
  let queried := QueryPoints (collection_name s) q (vector_name s) k in
  collection_exists_answer c (requests c) (collection_name s) = Done true ->
  answers (embedding_model w) query q ->
  query_points_answer c (requests c ++ [asked]) queried = Done points ->
  omap (text_of_point (vector_name s)) points = Done ts ->
  similarity_search query k w
  = (Done (ts, map score points),
     {| self := self (with_request (with_request w asked) queried);
        embedding_model :=
          {| mode := DOCUMENT;
             calls := calls (embedding_model w) ++ query_calls query;
             respond := respond (embedding_model w) |} |}).
Proof.
  intros s c asked queried He Ha Hq Ht.
  unfold similarity_search, qbind at 1, get_self.
  unfold qbind at 1, collection_exists, call_client. fold s c. rewrite He.
  cbn [negb]. unfold qbind at 1, set_mode at 1.
  unfold qbind at 1, embed_documents.
  cbn [embedding_model mode calls respond].
  destruct (Ha (calls (embedding_model w) ++ [SetMode QUERY]) QUERY)
    as [more Hr].
  cbn [with_request embedding_model]. rewrite Hr.
  unfold qbind at 1, qlift at 1. cbn [getitem nth_error].
  unfold qbind at 1, set_mode. unfold qbind at 1, query_points, call_client.
  cbn [self client requests query_points_answer collection_name vector_name
       with_request embedding_model mode calls respond].
  fold s c asked queried. rewrite Hq.
  unfold qbind, qlift. cbn [collection_name vector_name self].
  fold s. rewrite Ht. unfold qret, query_calls, with_request.
  cbn [self client requests collection_exists_answer command_answer
       query_points_answer collection_name vector_name _point_ids
       mmr_lambda texts_hashes embedding_model].
  rewrite <- !app_assoc. reflexivity.
Qed.

Lemma qdrant_search_returns_client_points_witness :
  let point := {| payload := model_dump east;
                  point_vector := Plain [1; 0]%float;
                  score := 1%float |} in
  let w := qdrant_world (client_with true [point]) None in
  let asked := CollectionExists (collection_name (self w)) in
  let queried := QueryPoints (collection_name (self w)) [1; 0]%float
                   (vector_name (self w)) 0 in
  similarity_search "q" 0 w
  = (Done ([east], map score [point]),
     {| self := self (with_request (with_request w asked) queried);
        embedding_model :=
          {| mode := DOCUMENT;
             calls := calls (embedding_model w) ++ query_calls "q";
             respond := respond (embedding_model w) |} |}).
Proof.
  intros point w asked queried.
  apply (qdrant_search_returns_client_points "q" [1; 0]%float 0 [point]
           [east] w).
  - reflexivity.
  - apply constant_model_answers.
  - reflexivity.
  - reflexivity.
Defined.

(** X20. The point that [add_texts_and_embeddings] uploads for a text is
    read back by [similarity_search] as that text when the store's
    [vector_name] is the same, [None] and the empty string being the same;
    under a [vector_name] that differs, reading it raises. *)
Theorem qdrant_point_round_trip (vector_name : option string)
    (t : Embeddable) (sc : float) :
  let point := {| payload := model_dump t;
                  point_vector := as_stored vector_name (embedding t);
                  score := sc |} in
  (forall read, named read = named vector_name ->
                text_of_point read point = Done t) /\
  (forall read, named read <> named vector_name ->
                exists e, text_of_point read point = Failed e).
Proof.
  cbv zeta. split.
  - intros read H. rewrite <- (text_of_stored vector_name t sc).
    unfold text_of_point. rewrite H. reflexivity.
  - intros read H. apply text_of_stored_other. congruence.
Qed.

(** X21. [QdrantVectorStore.add_texts_and_embeddings] is not atomic: the
    hashes of what the first iteration of [texts] gives are in
    [texts_hashes] afterwards whether the call returns or a call on the
    client raises, so that [text in store] holds for texts that were never
    uploaded. [_point_ids] is replaced by the ids of what [list(texts)]
    gives afterwards, ids made from the embeddings only, when the call
    returns, and is left as it was when the call raises. *)
Theorem qdrant_add_state (hash : Embeddable -> Z) (uuid5 : vector -> string)
    (texts : Iterable Embeddable) (w : World) :
  let out := add_texts_and_embeddings hash uuid5 texts w in
  let s' := self (snd out) in
  texts_hashes s'
  = texts_hashes (self w) ∪ list_to_set (map hash (first_pass texts)) /\
  _point_ids s'
  = match fst out with
    | Done _ =>
        Some (list_to_set
                (map (fun t => uuid5 (embedding t)) (second_pass texts)))
    | Failed _ => _point_ids (self w)
    end /\
  mmr_lambda s' = mmr_lambda (self w) /\
  collection_name s' = collection_name (self w) /\
  vector_name s' = vector_name (self w) /\
  embedding_model (snd out) = embedding_model w.
Proof.
  destruct w as [[lam hs c name vn ids] e]. destruct c as [rq ea ca qa].
  destruct texts as [[|first rest]|items]; run_store;
    cbn [first_pass second_pass].
  - destruct (ca rq _) as [[]|x]; repeat split.
  - destruct (ea rq name) as [[|]|x]; [| |repeat split].
    + destruct (ca _ _) as [[]|x]; repeat split.
    + destruct (ca _ _) as [[]|x]; [|repeat split].
      destruct (ca _ _) as [[]|x]; repeat split.
  - destruct (ca rq _) as [[]|x]; repeat split.
Qed.

(** X22. With an empty batch [QdrantVectorStore.add_texts_and_embeddings]
    does not ask whether the collection exists and creates none: its one
    call on the client is [upload_collection] with three empty lists, and
    the call returns or raises as that one does. [texts_hashes] does not
    change; [_point_ids] becomes the empty set when the call returns. *)
Theorem qdrant_add_empty_batch (hash : Embeddable -> Z)
    (uuid5 : vector -> string)
    (w : World) :
  let s := self w in
  let upload := UploadCollection (collection_name s) [] [] [] in
  let out := add_texts_and_embeddings hash uuid5 (sequence []) w in
  fst out = command_answer (client s) (requests (client s)) upload /\
  requests (client (self (snd out))) = requests (client s) ++ [upload] /\
  texts_hashes (self (snd out)) = texts_hashes s /\
  match fst out with
  | Done _ => _point_ids (self (snd out)) = Some ∅
  | Failed _ => _point_ids (self (snd out)) = _point_ids s
  end.
Proof.
  destruct w as [[lam hs c name vn ids] e]. destruct c as [rq ea ca qa].
  run_store. cbn [first_pass second_pass map].
  rewrite list_to_set_nil, (right_id_L ∅ (∪)).
  destruct (ca rq _) as [[]|x]; repeat split.
Qed.

(** X23. When [list(texts)] is not empty and the client says the
    collection does not exist, [QdrantVectorStore.add_texts_and_embeddings]
    creates it with the size of the first text's embedding (under the
    vector name, when the store has a non-empty one) and then uploads one
    vector, one payload and one id per text, in the order of the batch. *)
Theorem qdrant_add_creates_collection (hash : Embeddable -> Z)
    (uuid5 : vector -> string) (texts : Iterable Embeddable)
    (first : Embeddable) (rest : list Embeddable) (w : World) :
  let s := self w in
  let c := client s in
  let texts_list := first :: rest in
  let asked := CollectionExists (collection_name s) in
  let created := CreateCollection (collection_name s) (named (vector_name s))
                   (length (embedding first)) in
  let uploaded :=
    UploadCollection (collection_name s)
      (map (fun t => as_stored (vector_name s) (embedding t)) texts_list)
      (map model_dump texts_list)
      (map (fun t => uuid5 (embedding t)) texts_list) in
  second_pass texts = texts_list ->
  collection_exists_answer c (requests c) (collection_name s) = Done false ->
  command_answer c (requests c ++ [asked]) created = Done tt ->
  command_answer c (requests c ++ [asked; created]) uploaded = Done tt ->
  let out := add_texts_and_embeddings hash uuid5 texts w in
  fst out = Done tt /\
  requests (client (self (snd out)))
  = requests c ++ [asked; created; uploaded].
Proof.
  destruct w as [[lam hs c name vn ids] e]. destruct c as [rq ea ca qa].
  cbv zeta. cbn [self client requests collection_exists_answer command_answer
                 collection_name vector_name].
  intros Hs He Hc Hu. run_store. rewrite Hs. run_store. rewrite He.
  run_store. rewrite Hc.
  rewrite <- !app_assoc. cbn [app]. run_store. rewrite Hu.
  split; reflexivity.
Qed.

Lemma qdrant_add_creates_collection_witness :
  let w := qdrant_world (client_with false []) (Some "dense") in
  let out := add_texts_and_embeddings name_hash sign_id
               (sequence [east; north]) w in
  fst out = Done tt /\
  requests (client (self (snd out)))
  = requests (client (self w))
    ++ [CollectionExists "paper-qa";
        CreateCollection "paper-qa" (Some "dense") 2;
        UploadCollection "paper-qa"
          (map (fun t => as_stored (Some "dense") (embedding t)) [east; north])
          (map model_dump [east; north])
          (map (fun t => sign_id (embedding t)) [east; north])].
Proof.
  intros w out.
  apply (qdrant_add_creates_collection name_hash sign_id
           (sequence [east; north]) east [north] w);
    reflexivity.
Defined.

(** X24. [QdrantVectorStore.clear] always empties [texts_hashes] and asks
    the client whether the collection exists. Only when the client says
    yes does it ask for every point to be deleted, and only when that
    returns is [_point_ids] reset to [None]: without a collection, or when
    a call on the client raises, [_point_ids] stays as it was. *)
Theorem qdrant_clear_state (w : World) :
  let s := self w in
  let c := client s in
  let present := collection_exists_answer c (requests c) (collection_name s) in
  let out := clear w in
  let s' := self (snd out) in
  texts_hashes s' = ∅ /\
  requests (client s')
  = requests c ++ CollectionExists (collection_name s)
      :: match present with
         | Done true => [Delete (collection_name s)]
         | _ => []
         end /\
  _point_ids s'
  = match present, fst out with
    | Done true, Done _ => None
    | _, _ => _point_ids s
    end.
Proof.
  destruct w as [[lam hs c name vn ids] e]. destruct c as [rq ea ca qa].
  run_store. destruct (ea rq name) as [[|]|x]; run_store;
    [|repeat split..].
  destruct (ca _ _) as [[]|x]; rewrite <- ?app_assoc; repeat split.
Qed.

(** X26. When [texts] is a one-shot iterator,
    [QdrantVectorStore.add_texts_and_embeddings] uploads nothing of it: the
    base class has consumed it for the hashes, [list(texts)] is empty, and
    the one call on the client is [upload_collection] with no vector, no
    payload and no id. The hashes of the items are in [texts_hashes]
    afterwards, and [_point_ids] is the empty set when the call returns. *)
Theorem qdrant_add_iterator (hash : Embeddable -> Z)
    (uuid5 : vector -> string) (items : list Embeddable) (w : World) :
  let s := self w in
  let upload := UploadCollection (collection_name s) [] [] [] in
  let out := add_texts_and_embeddings hash uuid5 (iterator items) w in
  fst out = command_answer (client s) (requests (client s)) upload /\
  requests (client (self (snd out))) = requests (client s) ++ [upload] /\
  texts_hashes (self (snd out))
  = texts_hashes s ∪ list_to_set (map hash items) /\
  match fst out with
  | Done _ => _point_ids (self (snd out)) = Some ∅
  | Failed _ => _point_ids (self (snd out)) = _point_ids s
  end.
Proof.
  destruct w as [[lam hs c name vn ids] e]. destruct c as [rq ea ca qa].
  run_store. cbn [first_pass second_pass map]. rewrite list_to_set_nil.
  destruct (ca rq _) as [[]|x]; repeat split.
Qed.

End QdrantStore.

(** ** Adding, then searching *)

(** X25. A new store that has gone through any sequence of
    [add_texts_and_embeddings] and [clear] calls, searched with [k] at
    least the number of texts stored since the last [clear] (what the
    second iteration of every batch gave), returns exactly those texts,
    each once, with their scores in non-increasing order: provided their
    embeddings and the query's have one dimension, the embedding model
    answers the query, and [argsort] keeps NumPy's contract. *)
Theorem added_texts_are_found (argsort : list float -> list nat)
    (hash : Embeddable -> Z) (d : nat) (lam : float) (us : list update)
    (query : string) (q : vector) (k : Z) (e : EmbeddingModel) :
  argsort_contract argsort ->
  Forall (fun t => length (embedding t) = d) (kept_texts us) ->
  length q = d -> answers e query q ->
  Z.of_nat (length (kept_texts us)) <= k ->
  exists ts ss,
    fst (similarity_search argsort query k
           {| self := after_updates hash lam us; embedding_model := e |})
    = Ok (ts, ss) /\
    Permutation ts (kept_texts us) /\
    ss = map (score q) ts /\
    descending ss.
Proof.
  intros Hc Hd Hq Ha Hk.
  rewrite <- (texts_after_updates hash lam) in Hd, Hk |- *.
  destruct (uniform_updates hash d us (new_store lam) eq_refl
              (fun _ => or_intror (conj eq_refl eq_refl)) Hd) as [Hf Hs].
  fold (after_updates hash lam us) in Hf, Hs.
  set (s := after_updates hash lam us) in *.
  destruct Hs as [[d' Hs]|[_ Hnil]].
  - assert (Hs' : store_ok d s).
    { constructor; [apply (ok_matrix d' s Hs)|exact Hd|].
      intros mask H. congruence. }
    rewrite (similarity_search_ok argsort Hc d query q k Hq
               {| self := s; embedding_model := e |} Hs' Ha) by (right; lia).
    cbn [fst self]. eexists _, _. split; [reflexivity|].
    destruct (top_k_whole argsort d s q k Hc Hs' Hk) as [Hp Hss].
    split; [|split; [exact Hss|]].
    + unfold active_texts in Hp. rewrite Hf in Hp. exact Hp.
    + apply ranking_descending, Hc.
  - exists [], []. rewrite Hnil in Hk |- *. cbn [length] in Hk.
    unfold similarity_search, bind, get_self. cbn [self]. rewrite Hnil.
    cbn [length]. replace (Z.min k (Z.of_nat 0)) with 0 by lia.
    repeat split; constructor.
Qed.

Lemma added_texts_are_found_witness :
  exists ts ss,
    fst (similarity_search stable_argsort "q" 2
           {| self := after_updates name_hash 1
                        [AddTextsAndEmbeddings (sequence [north]); ClearStore;
                         AddTextsAndEmbeddings (iterator [north]);
                         AddTextsAndEmbeddings (sequence [west; east])];
              embedding_model := constant_model [1; 0]%float |})
    = Ok (ts, ss) /\
    Permutation ts
      (kept_texts [AddTextsAndEmbeddings (sequence [north]); ClearStore;
                   AddTextsAndEmbeddings (iterator [north]);
                   AddTextsAndEmbeddings (sequence [west; east])]) /\
    ss = map (score [1; 0]%float) ts /\
    descending ss.
Proof.
  apply (added_texts_are_found stable_argsort name_hash 2 1
           [AddTextsAndEmbeddings (sequence [north]); ClearStore;
            AddTextsAndEmbeddings (iterator [north]);
            AddTextsAndEmbeddings (sequence [west; east])]
           "q" [1; 0]%float 2 (constant_model [1; 0]%float)).
  - exact stable_argsort_contract.
  - repeat constructor.
  - reflexivity.
  - apply constant_model_answers.
  - vm_compute. discriminate.
Defined.
